(** * Firestore client core: connection layer, transaction runner, change buffer

    A shallow embedding of
      - [packages/firestore/src/platform/node/grpc_connection.ts]
        (createMetadata, GrpcConnection.invokeRPC / invokeStreamingRPC /
        openStream),
      - the test wrapper [TestRemoteDocumentCache] (addEntries / addEntry),
      - the integration tests of the transaction runner,
    together with the properties the specification states about them and
    further properties read off the code.

    Conventions.
      - A JS object used as a record of fields is a [gmap string json]; a JS
        [Map<string,string>] is the list of its entries in insertion order.
      - A function that may throw returns an [Outcome]; mutable fields are
        threaded explicitly.
      - Calls to [logDebug] / [logWarn] / [logError] only write to the console
        and are left out. *)

From stdpp Require Import gmap strings list fin_maps.
From Stdlib Require Import ZArith Ascii.

Local Open Scope string_scope.
Local Open Scope list_scope.
Local Open Scope nat_scope.

(* ===================================================================== *)
(** * Values, errors, assertions                                          *)
(* ===================================================================== *)

(** JSON values carried by request payloads. *)
#[local] Set Warnings "-register-all".
Inductive json : Type :=
  | JNull
  | JBool (b : bool)
  | JNum (z : Z)
  | JStr (s : string)
  | JArr (items : list json)
  | JObj (fields : list (string * json)).
#[local] Set Warnings "register-all".

(** A request payload: a plain JS object, keyed by field name. *)
Abbreviation JsObject := (gmap string json).

(** [Code] is the string enum of util/error ('aborted', 'unavailable', ...). *)
Definition Code : Type := string.

(** [new FirestoreError(code, message)]. *)
Record FirestoreError : Type := mkFirestoreError {
  code : Code;
  message : string
}.

(** [grpc.ServiceError]: the status code is a number, the details a string. *)
Record ServiceError : Type := mkServiceError {
  grpc_code : Z;
  grpc_message : string
}.

(** What a JS exception carries here. *)
Inductive JsError : Type :=
  | InternalAssertionFailed (msg : string)
  | OtherError (msg : string).

(** The result of a call that either returns or throws. *)
Inductive Outcome (A : Type) : Type :=
  | Returned (a : A)
  | Thrown (e : JsError).
Arguments Returned {A} a.
Arguments Thrown {A} e.

(** Sequencing: a thrown exception skips the rest. *)
#[global] Instance Outcome_ret : MRet Outcome := @Returned.
#[global] Instance Outcome_bind : MBind Outcome := λ A B k o,
  match o with
  | Returned a => k a
  | Thrown e => Thrown e
  end.

(** Modelled from the spec: [hardAssert] of util/assert, whose source is not
    embedded here.  A failed assertion is fatal: it throws. *)
Definition hardAssert (assertion : bool) (msg : string) : Outcome unit :=
  if assertion then Returned tt else Thrown (InternalAssertionFailed msg).

(** The state of a promise as its consumer sees it. *)
Inductive PromiseState (T : Type) : Type :=
  | Pending
  | Resolved (value : T)
  | Rejected (reason : FirestoreError).
Arguments Pending {T}.
Arguments Resolved {T} value.
Arguments Rejected {T} reason.

(** JS truthiness of a string: only the empty string is falsy. *)
Definition truthy (s : string) : bool :=
  match s with
  | EmptyString => false
  | String _ _ => true
  end.

(* ===================================================================== *)
(** * Tokens and request metadata                                         *)
(* ===================================================================== *)

(** [Token] of api/credentials, as far as the connection reads it. *)
Record Token : Type := mkToken {
  type : string;
  headers : list (string * string)
}.

(** [grpc.Metadata], the header bag of the transport library.  [set]
    lower-cases the key, validates the key and the value, and throws when
    one of them is illegal; otherwise it stores the value under the
    lower-cased key and replaces what was there.  [get] looks the
    lower-cased key up.  What the validation refuses is the library's
    business: [validate key value] is what it throws for a lower-cased key
    and a value, if it throws. *)
Module Metadata.

Definition lower_ascii (c : ascii) : ascii :=
  let n := nat_of_ascii c in
  if (65 <=? n)%nat && (n <=? 90)%nat then ascii_of_nat (n + 32) else c.

Fixpoint normalizeKey (key : string) : string :=
  match key with
  | EmptyString => EmptyString
  | String c rest => String (lower_ascii c) (normalizeKey rest)
  end.

Definition empty : gmap string string := ∅.

Definition set (validate : string → string → option JsError)
    (key value : string) (md : gmap string string)
  : Outcome (gmap string string) :=
  let key := normalizeKey key in
  match validate key value with
  | Some e => Thrown e
  | None => Returned (<[key := value]> md)
  end.

Definition get (key : string) (md : gmap string string) : option string :=
  md !! normalizeKey key.

End Metadata.

Definition grpcVersion : string := "__GRPC_VERSION__".

(** [process.versions.node], [SDK_VERSION] of core/version,
    [mapCodeFromRpcCode] of remote/rpc_error and the validation of
    [grpc.Metadata] are not embedded; they are taken as given.
    [metadataValidate key value] is the error the validation throws for a
    lower-cased header name and a value, if it throws. *)
Class Platform : Type := {
  nodeVersion : string;
  SDK_VERSION : string;
  mapCodeFromRpcCode : Z → Code;
  metadataValidate : string → string → option JsError
}.

Section Connection.

Context `{Platform}.

Definition X_GOOG_API_CLIENT_VALUE : string :=
  "gl-node/" +:+ nodeVersion +:+ " fire/" +:+ SDK_VERSION
    +:+ " grpc/" +:+ grpcVersion.

Definition isOAuthOrNull (authToken : option Token) : bool :=
  match authToken with
  | None => true
  | Some t => bool_decide (type t = "OAuth")
  end.

(** [metadata.set(key, value)]. *)
Definition metadataSet (key value : string) (metadata : gmap string string)
  : Outcome (gmap string string) :=
  Metadata.set metadataValidate key value metadata.

(** [headers.forEach((value, key) => metadata.set(key, value))]: the
    entries are set in the order of the map; a [set] that throws ends the
    loop and the exception goes on. *)
Fixpoint setAll (hs : list (string * string)) (metadata : gmap string string)
  : Outcome (gmap string string) :=
  match hs with
  | [] => Returned metadata
  | (key, value) :: rest =>
      metadata ← metadataSet key value metadata; setAll rest metadata
  end.

Definition createMetadata (databasePath : string)
    (authToken appCheckToken : option Token) (appId : string)
  : Outcome (gmap string string) :=
  _ ← hardAssert (isOAuthOrNull authToken)
        "If provided, token must be OAuth";
  let metadata := Metadata.empty in
  metadata ←
    match authToken with
    | Some t => setAll (headers t) metadata
    | None => Returned metadata
    end;
  metadata ←
    match appCheckToken with
    | Some t => setAll (headers t) metadata
    | None => Returned metadata
    end;
  metadata ←
    (if truthy appId then metadataSet "X-Firebase-GMPID" appId metadata
     else Returned metadata);
  metadata ← metadataSet "X-Goog-Api-Client" X_GOOG_API_CLIENT_VALUE metadata;
  metadata ← metadataSet "Google-Cloud-Resource-Prefix" databasePath metadata;
  metadata ← metadataSet "x-goog-request-params" databasePath metadata;
  Returned metadata.

(* ------------------------------------------------------------------- *)
(** ** The connection object                                            *)
(* ------------------------------------------------------------------- *)

(** [DatabaseId] and [DatabaseInfo] of core/database_info, as far as the
    connection reads them. *)
Record DatabaseId : Type := mkDatabaseId {
  projectId : string;
  database : string
}.

Record DatabaseInfo : Type := mkDatabaseInfo {
  databaseId : DatabaseId;
  appId : string;
  host : string;
  ssl : bool
}.

Inductive ChannelCredentials : Type := createSsl | createInsecure.

(** [new this.firestore.Firestore(host, credentials)]. *)
Record GeneratedGrpcStub : Type := mkStub {
  stub_host : string;
  stub_credentials : ChannelCredentials
}.

(** A call made on the stub: [stub[rpcName](...)] with its arguments. *)
Inductive StubCall : Type :=
  | UnaryCall (rpcName : string) (jsonRequest : JsObject)
              (metadata : gmap string string)
  | ServerStreamingCall (rpcName : string) (jsonRequest : JsObject)
              (metadata : gmap string string)
  | DuplexCall (rpcName : string) (metadata : gmap string string).

(** The fields of [GrpcConnection]; [issued] records, oldest first, the
    calls made on the stub so far. *)
Record GrpcConnection : Type := mkConnection {
  databaseInfo : DatabaseInfo;
  databasePath : string;
  cachedStub : option GeneratedGrpcStub;
  issued : list StubCall
}.

(** The constructor. *)
Definition newGrpcConnection (info : DatabaseInfo) : GrpcConnection :=
  {| databaseInfo := info;
     databasePath :=
       "projects/" +:+ projectId (databaseId info)
         +:+ "/databases/" +:+ database (databaseId info);
     cachedStub := None;
     issued := [] |}.

Definition ensureActiveStub (this : GrpcConnection)
  : GrpcConnection * GeneratedGrpcStub :=
  match cachedStub this with
  | Some stub => (this, stub)
  | None =>
      let credentials :=
        if ssl (databaseInfo this) then createSsl else createInsecure in
      let stub := mkStub (host (databaseInfo this)) credentials in
      ({| databaseInfo := databaseInfo this;
          databasePath := databasePath this;
          cachedStub := Some stub;
          issued := issued this |}, stub)
  end.

(** [stub[rpcName](...)]: the call goes out on the transport. *)
Definition issue (this : GrpcConnection) (c : StubCall) : GrpcConnection :=
  {| databaseInfo := databaseInfo this;
     databasePath := databasePath this;
     cachedStub := cachedStub this;
     issued := issued this ++ [c] |}.

(* ------------------------------------------------------------------- *)
(** ** invokeRPC                                                        *)
(* ------------------------------------------------------------------- *)

(** A node-style callback [(error?, value?)]; calling it settles the
    promise. *)
Definition NodeCallback (T : Type) : Type :=
  option FirestoreError → T → PromiseState T.

(** Modelled from the spec: [nodePromise] of util/node_api, whose source is
    not embedded here.  It runs the action with a callback that rejects
    the promise when it is given an error and resolves it with the value
    otherwise. *)
Definition nodePromise {T R} (action : NodeCallback T → R) : R :=
  action (λ error value,
    match error with
    | Some e => Rejected e
    | None => Resolved value
    end).

(** The promise [invokeRPC] returns, as a function of how the transport
    completes the call: [(grpcError?, value?)]. *)
Definition UnaryPromise (Resp : Type) : Type :=
  option ServiceError → Resp → PromiseState Resp.

Definition invokeRPC {Resp : Type} (this : GrpcConnection)
    (rpcName path : string) (request : JsObject)
    (authToken appCheckToken : option Token)
  : GrpcConnection * Outcome (UnaryPromise Resp) :=
  let '(this, stub) := ensureActiveStub this in
  match createMetadata (databasePath this) authToken appCheckToken
          (appId (databaseInfo this)) with
  | Thrown e => (this, Thrown e)
  | Returned metadata =>
      (* { database: this.databasePath, ...request } *)
      let jsonRequest :=
        request ∪ {[ "database" := JStr (databasePath this) ]} in
      (issue this (UnaryCall rpcName jsonRequest metadata),
       Returned (nodePromise (λ callback : NodeCallback Resp,
         λ grpcError value,
           match grpcError with
           | Some ge =>
               callback
                 (Some (mkFirestoreError
                          (mapCodeFromRpcCode (grpc_code ge))
                          (grpc_message ge)))
                 value
           | None => callback None value
           end)))
  end.

(* ------------------------------------------------------------------- *)
(** ** invokeStreamingRPC                                               *)
(* ------------------------------------------------------------------- *)

(** What the server-streaming call emits: 'data', 'end', 'error'. *)
Inductive StreamingEvent (Resp : Type) : Type :=
  | Data (response : Resp)
  | End_
  | Error (grpcError : ServiceError).
#[global] Arguments Data {Resp} response.
#[global] Arguments End_ {Resp}.
#[global] Arguments Error {Resp} grpcError.

(** Modelled from the spec: [Deferred] of util/promise, whose source is not
    embedded here.  It wraps a promise: the first [resolve] or
    [reject] settles it, later ones do nothing.  [resolve] is always given
    the [results] array itself, so a resolved promise holds that array, not
    a copy. *)
Inductive Deferred : Type :=
  | Unsettled
  | ResolvedWithResults
  | RejectedWith (reason : FirestoreError).

Definition resolve (d : Deferred) : Deferred :=
  match d with
  | Unsettled => ResolvedWithResults
  | _ => d
  end.

Definition reject (d : Deferred) (reason : FirestoreError) : Deferred :=
  match d with
  | Unsettled => RejectedWith reason
  | _ => d
  end.

(** The locals of one [invokeStreamingRPC] call. *)
Record StreamingCallState (Resp : Type) : Type := mkStreamingCall {
  results : list Resp;
  responseDeferred : Deferred
}.
#[global] Arguments mkStreamingCall {Resp} results responseDeferred.
#[global] Arguments results {Resp} s.
#[global] Arguments responseDeferred {Resp} s.

(** The three listeners registered with [stream.on]. *)
Definition onStreamingEvent {Resp} (st : StreamingCallState Resp)
    (ev : StreamingEvent Resp) : StreamingCallState Resp :=
  match ev with
  | Data response =>
      mkStreamingCall (results st ++ [response]) (responseDeferred st)
  | End_ =>
      mkStreamingCall (results st) (resolve (responseDeferred st))
  | Error grpcError =>
      let code := mapCodeFromRpcCode (grpc_code grpcError) in
      mkStreamingCall (results st)
        (reject (responseDeferred st)
           (mkFirestoreError code (grpc_message grpcError)))
  end.

(** [responseDeferred.promise] as its consumer sees it. *)
Definition promise {Resp} (st : StreamingCallState Resp)
  : PromiseState (list Resp) :=
  match responseDeferred st with
  | Unsettled => Pending
  | ResolvedWithResults => Resolved (results st)
  | RejectedWith reason => Rejected reason
  end.

(** The promise [invokeStreamingRPC] returns, as a function of the events
    the transport has delivered so far. *)
Definition StreamingPromise (Resp : Type) : Type :=
  list (StreamingEvent Resp) → PromiseState (list Resp).

Definition invokeStreamingRPC {Resp : Type} (this : GrpcConnection)
    (rpcName path : string) (request : JsObject)
    (authToken appCheckToken : option Token)
  : GrpcConnection * Outcome (StreamingPromise Resp) :=
  let st0 := mkStreamingCall [] Unsettled in
  let '(this, stub) := ensureActiveStub this in
  match createMetadata (databasePath this) authToken appCheckToken
          (appId (databaseInfo this)) with
  | Thrown e => (this, Thrown e)
  | Returned metadata =>
      (* { ...request, database: this.databasePath } *)
      let jsonRequest :=
        <[ "database" := JStr (databasePath this) ]> request in
      (issue this (ServerStreamingCall rpcName jsonRequest metadata),
       Returned (λ events, promise (foldl onStreamingEvent st0 events)))
  end.

(* ------------------------------------------------------------------- *)
(** ** openStream                                                       *)
(* ------------------------------------------------------------------- *)

Section Stream.

(** [writeThrows msg] is what [grpcStream.write(msg)] throws, if it throws
    (it does on a message that does not conform to the proto). *)
Context {Req Resp : Type} (writeThrows : Req → option JsError).

(** Modelled from the spec: [StreamBridge] of remote/stream_bridge, whose
    source is not embedded here.  [callOnOpen], [callOnMessage] and
    [callOnClose] hand the event to the callback the owner registered, and
    the callback returns.  An [Effect] is what the stream does to its two
    neighbours, the owner and the transport; the history lists the effects
    in the order they happen. *)
Inductive Effect : Type :=
  | CallOnOpen
  | CallOnMessage (msg : Resp)
  | CallOnClose (err : option FirestoreError)
  | GrpcWrite (msg : Req)
  | GrpcEnd.

(** The locals [openStream] leaves behind in its closures: the [closed]
    flag and the timer set with [setTimeout]; [effects] is the history. *)
Record StreamState : Type := mkStream {
  closed : bool;
  openTimerPending : bool;
  effects : list Effect
}.

Definition emit (st : StreamState) (es : list Effect) : StreamState :=
  mkStream (closed st) (openTimerPending st) (effects st ++ es).

(** [const close = (err?) => { if (!closed) { closed = true;
    stream.callOnClose(err); grpcStream.end(); } }]. *)
Definition close (err : option FirestoreError) (st : StreamState)
  : StreamState :=
  if negb (closed st) then
    mkStream true (openTimerPending st)
      (effects st ++ [CallOnClose err; GrpcEnd])
  else st.

(** [sendFn]: the write is tried only on a stream that is not closed; what
    it throws is logged and thrown on. *)
Definition sendFn (msg : Req) (st : StreamState)
  : StreamState * Outcome unit :=
  if negb (closed st) then
    match writeThrows msg with
    | None => (emit st [GrpcWrite msg], Returned tt)
    | Some e => (emit st [GrpcWrite msg], Thrown e)
    end
  else (st, Returned tt).

Definition closeFn (st : StreamState) : StreamState := close None st.

(** What can happen to an open stream: the owner calls [send] or [close]
    on it, the transport emits 'data', 'end' or 'error', the timer set by
    [openStream] fires. *)
Inductive Event : Type :=
  | Send (msg : Req)
  | Close
  | OnData (msg : Resp)
  | OnEnd
  | OnError (grpcError : ServiceError)
  | Timeout.

Definition handle (st : StreamState) (ev : Event)
  : StreamState * Outcome unit :=
  match ev with
  | Send msg => sendFn msg st
  | Close => (closeFn st, Returned tt)
  | OnData msg =>
      (if negb (closed st) then emit st [CallOnMessage msg] else st,
       Returned tt)
  | OnEnd => (close None st, Returned tt)
  | OnError grpcError =>
      (if negb (closed st) then
         let code := mapCodeFromRpcCode (grpc_code grpcError) in
         close (Some (mkFirestoreError code (grpc_message grpcError))) st
       else st,
       Returned tt)
  | Timeout =>
      (if openTimerPending st then
         mkStream (closed st) false (effects st ++ [CallOnOpen])
       else st,
       Returned tt)
  end.

(** An exception thrown by [send] goes to the caller of [send]; the stream
    carries on from the state the call left. *)
Definition run (st : StreamState) (evs : list Event) : StreamState :=
  foldl (λ s ev, (handle s ev).1) st evs.

Definition openStream (this : GrpcConnection) (rpcName : string)
    (authToken appCheckToken : option Token)
  : GrpcConnection * Outcome StreamState :=
  let '(this, stub) := ensureActiveStub this in
  match createMetadata (databasePath this) authToken appCheckToken
          (appId (databaseInfo this)) with
  | Thrown e => (this, Thrown e)
  | Returned metadata =>
      (issue this (DuplexCall rpcName metadata),
       Returned (mkStream false true []))
  end.

End Stream.

End Connection.

(* ===================================================================== *)
(** * Transactions and their runner                                      *)
(* ===================================================================== *)

(** Modelled from the spec: the transaction handle (core/transaction), the
    transaction runner (core/transaction_runner) and the backend they talk to
    have no source embedded here; only their integration tests have.
    The definitions follow sections 3, 4.3 and 7 of the specification. *)
Module Tx.

(** A stored document: the version the server assigned to its last write
    and its fields.  Version 0 is the minimum sentinel, the version of a
    document that does not exist. *)
Record Document : Type := mkDocument {
  version : nat;
  data : JsObject
}.

(** The backend: the documents and the last version it handed out. *)
Record Backend : Type := mkBackend {
  docs : gmap string Document;
  clock : nat
}.

Definition emptyBackend : Backend := mkBackend ∅ 0.

Definition currentVersion (b : Backend) (key : string) : nat :=
  match docs b !! key with
  | Some d => version d
  | None => 0
  end.

(** [setDoc(docRef, data)]: a write outside of any transaction. *)
Definition setDoc (key : string) (fields : JsObject) (b : Backend)
  : Backend :=
  mkBackend (<[key := mkDocument (S (clock b)) fields]> (docs b))
            (S (clock b)).

Definition getDoc (key : string) (b : Backend) : option Document :=
  docs b !! key.

Inductive Mutation : Type :=
  | SetMutation (key : string) (fields : JsObject)
  | PatchMutation (key : string) (fields : JsObject).

(** A transaction owns the versions it observed, each with the snapshot it
    was given then, and the writes it staged. *)
Record Transaction : Type := mkTransaction {
  reads : gmap string (nat * option Document);
  mutations : list Mutation
}.

(** The captured read versions. *)
Definition readVersions (txn : Transaction) : gmap string nat :=
  fst <$> reads txn.

Definition newTransaction : Transaction := mkTransaction ∅ [].

(** Modelled from the spec: [get] of the transaction handle
    (core/transaction).  The first get of a key in an attempt records the
    version observed, with the snapshot; a repeated get of the key is
    answered from that record, so that it returns the same version. *)
Definition get (key : string) (txn : Transaction) (b : Backend)
  : Transaction * option Document :=
  match reads txn !! key with
  | Some (_, snapshot) => (txn, snapshot)
  | None =>
      let snapshot := docs b !! key in
      (mkTransaction (<[key := (currentVersion b key, snapshot)]> (reads txn))
                     (mutations txn),
       snapshot)
  end.

(** Modelled from the spec: [set] of the transaction handle
    (core/transaction).  It stages a write. *)
Definition set (key : string) (fields : JsObject) (txn : Transaction)
  : Transaction :=
  mkTransaction (reads txn) (mutations txn ++ [SetMutation key fields]).

Definition programmingError : FirestoreError :=
  mkFirestoreError "invalid-argument"
    "update of a document that was not read in this attempt".

(** Modelled from the spec: [update] of the transaction handle
    (core/transaction).  It stages a patch; it fails locally when the key was
    never read in this attempt. *)
Definition update (key : string) (fields : JsObject) (txn : Transaction)
  : FirestoreError + Transaction :=
  match reads txn !! key with
  | Some _ =>
      inr (mkTransaction (reads txn)
             (mutations txn ++ [PatchMutation key fields]))
  | None => inl programmingError
  end.

(** Every captured read version still matches the stored one. *)
Definition preconditionsHold (txn : Transaction) (b : Backend) : bool :=
  bool_decide
    (map_Forall (λ key v, currentVersion b key = v) (readVersions txn)).

(** How the backend applies a staged write, at the version [v] of the
    commit.  A set stores the given fields as the document.  A patch (the
    write of [update]) gives the fields it names their new values; the
    specification does not say what becomes of the fields it does not name,
    and the model keeps them as they are stored, which is what the test
    'update transactionally' expects of the backend (it finds [other]
    unchanged).  No property below rests on that choice. *)
Definition applyMutation (v : nat) (ds : gmap string Document)
    (m : Mutation) : gmap string Document :=
  match m with
  | SetMutation key fields => <[key := mkDocument v fields]> ds
  | PatchMutation key fields =>
      let old := match ds !! key with
                 | Some d => data d
                 | None => ∅
                 end in
      <[key := mkDocument v (fields ∪ old)]> ds
  end.

(** Modelled from the spec: the commit of a transaction by the backend.  The
    staged writes are applied, all at one new version, when the
    preconditions hold; otherwise nothing is written and the attempt is
    aborted with a conflict. *)
Definition commit (txn : Transaction) (b : Backend) : Backend * bool :=
  if preconditionsHold txn b then
    (mkBackend (foldl (applyMutation (S (clock b))) (docs b) (mutations txn))
               (S (clock b)),
     true)
  else (b, false).

Definition conflictReason : string :=
  "the stored version of a document read by the transaction has changed".

(** The terminal error of a transaction that ran out of attempts. *)
Definition aborted (reason : string) : FirestoreError :=
  mkFirestoreError "aborted" reason.

(** How one attempt ends. *)
Inductive AttemptOutcome (T : Type) : Type :=
  | Committed (value : T)
  | AbortedRetryable (reason : string)
  | AbortedFatal (e : FirestoreError).
Arguments Committed {T} value.
Arguments AbortedRetryable {T} reason.
Arguments AbortedFatal {T} e.

(** What [runTransaction] reports: how many attempts were made and how the
    promise settled. *)
Record RunResult (T : Type) : Type := mkRunResult {
  attempts : nat;
  settled : PromiseState T
}.
Arguments mkRunResult {T} attempts settled.
Arguments attempts {T} r.
Arguments settled {T} r.

Section Runner.

Context {T : Type}.

(** The user function: it is told the attempt number (the tests count
    their runs), works on a fresh transaction, may write to the backend
    outside of the transaction, and returns a value or fails locally. *)
Variable updateFunction :
  nat → Transaction → Backend → Backend * (FirestoreError + Transaction * T).

(** Modelled from the spec: one attempt of the transaction runner
    (core/transaction_runner): run the user function from scratch, then
    commit. *)
Definition attempt (attemptNumber : nat) (b : Backend)
  : Backend * AttemptOutcome T :=
  let '(b, r) := updateFunction attemptNumber newTransaction b in
  match r with
  | inl e => (b, AbortedFatal e)
  | inr (txn, value) =>
      let '(b, ok) := commit txn b in
      (b, if ok then Committed value else AbortedRetryable conflictReason)
  end.

(** Modelled from the spec: the retry loop of the transaction runner
    (core/transaction_runner).  A conflict is retried while attempts remain,
    anything else settles the promise; the delay before a retry is not
    modelled. *)
Fixpoint runWithBackOff (attemptsRemaining attemptNumber : nat)
    (b : Backend) : Backend * RunResult T :=
  let '(b, outcome) := attempt attemptNumber b in
  match outcome with
  | Committed value => (b, mkRunResult attemptNumber (Resolved value))
  | AbortedFatal e => (b, mkRunResult attemptNumber (Rejected e))
  | AbortedRetryable reason =>
      match attemptsRemaining with
      | O => (b, mkRunResult attemptNumber (Rejected (aborted reason)))
      | S remaining => runWithBackOff remaining (S attemptNumber) b
      end
  end.

(** Modelled from the spec: [runTransaction] of the transaction runner
    (core/transaction_runner), with the budget [maxAttempts] (the tests run
    with DEFAULT_MAX_ATTEMPTS_COUNT).  The first attempt has number 1. *)
Definition runTransaction (maxAttempts : nat) (b : Backend)
  : Backend * RunResult T :=
  runWithBackOff (maxAttempts - 1) 1 b.

End Runner.

(* ------------------------------------------------------------------- *)
(** ** The test 'handle reading a doc twice with different versions'    *)
(* ------------------------------------------------------------------- *)

Definition docRef : string := "counters/doc".

(** JS numbers are IEEE doubles.  [roundToDouble z] is the double nearest
    to the integer [z]: [z] itself when it is below 2^53 in size; beyond
    that the nearest multiple of the spacing the doubles have there, and of
    two that are equally near the one with the even significand.  (Sums of
    2^1024 and more, which a double does not hold, are out of its
    range.) *)
Definition roundToDouble (z : Z) : Z :=
  let a := Z.abs z in
  if (a <? 2 ^ 53)%Z then z
  else
    let u := (2 ^ (Z.log2 a - 52))%Z in
    let q := (a / u)%Z in
    let r := (a mod u)%Z in
    let q' :=
      if (2 * r <? u)%Z then q
      else if (u <? 2 * r)%Z then (q + 1)%Z
      else if Z.even q then q else (q + 1)%Z in
    (Z.sgn z * (q' * u))%Z.

(** [x + y] on JS numbers that hold integers. *)
Definition jsAdd (x y : Z) : Z := roundToDouble (x + y).

Definition countField (z : Z) : JsObject := {[ "count" := JNum z ]}.

(** The user function of the test; [counter] is the attempt number. *)
Definition readTwice (counter : nat) (txn : Transaction) (b : Backend)
  : Backend * (FirestoreError + Transaction * unit) :=
  let '(txn, _) := get docRef txn b in
  let b := setDoc docRef (countField (jsAdd 1234 (Z.of_nat counter))) b in
  let '(txn, _) := get docRef txn b in
  let txn := set docRef (countField 16) txn in
  (b, inr (txn, tt)).

Definition readTwiceTest (maxAttempts : nat) : Backend * RunResult unit :=
  runTransaction readTwice maxAttempts
    (setDoc docRef (countField 15) emptyBackend).

(* ------------------------------------------------------------------- *)
(** ** Concurrent transactions on one counter                           *)
(* ------------------------------------------------------------------- *)

(** Where one concurrent transaction stands: about to read, holding its
    snapshot and waiting to write, or finished. *)
Inductive Phase : Type :=
  | Started
  | Reading (txn : Transaction) (snapshot : option Document)
  | Done
  | Failed (e : FirestoreError).

Record Runner : Type := mkRunner {
  attemptNumber : nat;
  attemptsRemaining : nat;
  phase : Phase
}.

Record System : Type := mkSystem {
  backend : Backend;
  runners : list Runner
}.

(** The tests write with [transaction.set] ('increment transactionally') or
    with [transaction.update] ('update transactionally'). *)
Inductive WriteKind : Type := BySet | ByUpdate.

(** [snapshot.data()!['count']]. *)
Definition countOf (snapshot : option Document) : Z :=
  match snapshot with
  | Some d =>
      match data d !! "count" with
      | Some (JNum z) => z
      | _ => 0
      end
  | None => 0
  end.

(** [{ count: snapshot.data()!['count'] + 1 }], staged with [set] or with
    [update]. *)
Definition stage (kind : WriteKind) (snapshot : option Document)
    (txn : Transaction) : FirestoreError + Transaction :=
  let fields := countField (jsAdd (countOf snapshot) 1) in
  match kind with
  | BySet => inr (set docRef fields txn)
  | ByUpdate => update docRef fields txn
  end.

(** Modelled from the spec: the transaction runner (core/transaction_runner)
    taken one step at a time, for the user function of the two counter
    tests.  A runner that has started reads the counter; a runner that holds
    a snapshot stages the increment and commits, and on a conflict starts
    over while attempts remain. *)
Definition stepRunner (kind : WriteKind) (r : Runner) (b : Backend)
  : Backend * Runner :=
  match phase r with
  | Started =>
      let '(txn, snapshot) := get docRef newTransaction b in
      (b, mkRunner (attemptNumber r) (attemptsRemaining r)
            (Reading txn snapshot))
  | Reading txn snapshot =>
      match stage kind snapshot txn with
      | inl e => (b, mkRunner (attemptNumber r) (attemptsRemaining r) (Failed e))
      | inr txn =>
          let '(b, ok) := commit txn b in
          if ok then
            (b, mkRunner (attemptNumber r) (attemptsRemaining r) Done)
          else
            match attemptsRemaining r with
            | O => (b, mkRunner (attemptNumber r) 0
                         (Failed (aborted conflictReason)))
            | S remaining =>
                (b, mkRunner (S (attemptNumber r)) remaining Started)
            end
      end
  | Done | Failed _ => (b, r)
  end.

(** The scheduler lets runner [i] take its next step. *)
Definition step (kind : WriteKind) (sys : System) (i : nat) : System :=
  match runners sys !! i with
  | Some r =>
      let '(b, r) := stepRunner kind r (backend sys) in
      mkSystem b (<[i := r]> (runners sys))
  | None => sys
  end.

Definition runSchedule (kind : WriteKind) (sys : System)
    (schedule : list nat) : System :=
  foldl (step kind) sys schedule.

(** [n] transactions started against a counter that was set to [start]. *)
Definition startAll (maxAttempts n : nat) (start : Z) : System :=
  mkSystem (setDoc docRef (countField start) emptyBackend)
           (replicate n (mkRunner 1 (maxAttempts - 1) Started)).

Definition isDone (r : Runner) : bool :=
  match phase r with
  | Done => true
  | _ => false
  end.

Definition isFinished (r : Runner) : bool :=
  match phase r with
  | Done | Failed _ => true
  | _ => false
  end.

(** [getDoc(docRef)] followed by [snapshot.data()!['count']]. *)
Definition finalCount (sys : System) : Z :=
  countOf (getDoc docRef (backend sys)).

(** The backend never stores a version it has not handed out yet. *)
Definition versionsWithinClock (b : Backend) : Prop :=
  ∀ key d, docs b !! key = Some d → (version d ≤ clock b)%nat.

(** How many of the runners have committed. *)
Fixpoint doneCount (rs : list Runner) : nat :=
  match rs with
  | [] => 0
  | r :: rs => (if isDone r then 1 else 0) + doneCount rs
  end.

(** How often the scheduler has let runner [i] take a step. *)
Definition turns (i : nat) (schedule : list nat) : nat :=
  List.length (filter (λ j, j = i) schedule).

(** What holds of the backend when [C] of the transactions have committed:
    the counter has been written [C] times since it was set. *)
Definition backendOk (start : Z) (C : nat) (b : Backend) : Prop :=
  clock b = S C
  ∧ ∃ d, docs b !! docRef = Some d
         ∧ version d = S C
         ∧ data d !! "count" = Some (JNum (start + Z.of_nat C)).

(** What holds of one of [n] runners then: it has not used more attempts
    than commits have happened before its last read (its own included, once
    it has committed), and it has only failed if there are more transactions
    than attempts. *)
Definition runnerOk (maxAttempts n : nat) (start : Z) (C : nat) (r : Runner)
  : Prop :=
  attemptNumber r + attemptsRemaining r = maxAttempts
  ∧ 1 ≤ attemptNumber r
  ∧ match phase r with
    | Started => attemptNumber r ≤ S C
    | Reading txn snapshot =>
        ∃ v, txn = mkTransaction {[docRef := (v, snapshot)]} []
             ∧ attemptNumber r ≤ v ∧ v ≤ S C
             ∧ (v = S C → countOf snapshot = (start + Z.of_nat C)%Z)
    | Done => attemptNumber r ≤ C
    | Failed e => maxAttempts < n ∧ e = aborted conflictReason
    end.

Definition systemOk (maxAttempts : nat) (start : Z) (sys : System) : Prop :=
  backendOk start (doneCount (runners sys)) (backend sys)
  ∧ ∀ i r, runners sys !! i = Some r →
      runnerOk maxAttempts (List.length (runners sys)) start
               (doneCount (runners sys)) r.

(** The steps a runner has taken are two per finished attempt, and one more
    once it has read. *)
Definition turnsOk (schedule : list nat) (sys : System) : Prop :=
  ∀ i r, runners sys !! i = Some r →
    match phase r with
    | Started => turns i schedule = 2 * (attemptNumber r - 1)
    | Reading _ _ => turns i schedule = 2 * (attemptNumber r - 1) + 1
    | Done | Failed _ => True
    end.

(** Each runner in turn, once. *)
Definition roundRobin (n : nat) : list nat := seq 0 n.

(** The document of the test 'update transactionally':
    [{ count: z, other: 'yes' }]. *)
Definition countAndOther (z : Z) : JsObject :=
  <[ "other" := JStr "yes" ]> (countField z).

(** [n] transactions started against a document that was set to
    [fields]. *)
Definition startAllOn (maxAttempts n : nat) (fields : JsObject) : System :=
  mkSystem (setDoc docRef fields emptyBackend)
           (replicate n (mkRunner 1 (maxAttempts - 1) Started)).

(** The runs of the user function that have got past their read: the two
    counter tests count them ([started], [counter]). *)
Definition runsOf (r : Runner) : nat :=
  match phase r with
  | Started => attemptNumber r - 1
  | _ => attemptNumber r
  end.

Definition counter (sys : System) : nat := sum_list (map runsOf (runners sys)).

(** The attempts the committed transactions have used. *)
Fixpoint doneAttempts (rs : list Runner) : nat :=
  match rs with
  | [] => 0
  | r :: rs => (if isDone r then attemptNumber r else 0) + doneAttempts rs
  end.

(** [rounds] rounds in which every unfinished transaction reads before any
    of them commits: the case where all reads precede all commits. *)
Definition readsBeforeCommits (n rounds : nat) : list nat :=
  List.concat (replicate rounds (roundRobin n ++ roundRobin n)).

End Tx.

(* ===================================================================== *)
(** * The remote document cache and its change buffer                    *)
(* ===================================================================== *)

(** Modelled from the spec: the remote document cache (local/
    remote_document_cache) and its change buffer (local/
    remote_document_change_buffer) have no source embedded here; only the
    test wrapper [TestRemoteDocumentCache] has.  The definitions of the
    cache and of the buffer follow sections 3, 4.1 and 4.2 of the
    specification; the wrapper follows its source. *)
Module Cache.

Inductive DocumentState : Type := Found | Missing | Unknown.

Record MutableDocument : Type := mkDoc {
  key : string;
  version : nat;
  state : DocumentState;
  fields : JsObject
}.

(** The sentinel a read of an absent key returns. *)
Definition newInvalidDocument (k : string) : MutableDocument :=
  mkDoc k 0 Unknown ∅.

Section WithSize.

(** The number of bytes a document takes in storage. *)
Variable documentSize : MutableDocument → Z.

(** The cache: the stored documents and the aggregate footprint that
    [getSize] reports. *)
Record RemoteDocumentCache : Type := mkCache {
  entries : gmap string MutableDocument;
  storedBytes : Z
}.

(** Modelled from the spec: [getEntry] of the cache
    (local/remote_document_cache).  An absent key yields the sentinel. *)
Definition getEntry (k : string) (cache : RemoteDocumentCache)
  : MutableDocument :=
  match entries cache !! k with
  | Some d => d
  | None => newInvalidDocument k
  end.

Definition getSize (cache : RemoteDocumentCache) : Z := storedBytes cache.

(** The bytes the key takes in the cache now: nothing when it is absent. *)
Definition storedSize (k : string) (cache : RemoteDocumentCache) : Z :=
  match entries cache !! k with
  | Some d => documentSize d
  | None => 0%Z
  end.

(** The buffer of one transaction: the staged documents, and for every
    key read through the buffer the document that was read together with
    the bytes it took in the cache. *)
Record RemoteDocumentChangeBuffer : Type := mkBuffer {
  changes : gmap string MutableDocument;
  reads : gmap string (MutableDocument * Z)
}.

Definition newChangeBuffer : RemoteDocumentChangeBuffer := mkBuffer ∅ ∅.

(** Modelled from the spec: [getEntry] of the change buffer
    (local/remote_document_change_buffer).  It returns the staged state if
    there is one, else what the cache holds, remembered for the rest of the
    transaction. *)
Definition bufferGetEntry (k : string) (buf : RemoteDocumentChangeBuffer)
    (cache : RemoteDocumentCache)
  : RemoteDocumentChangeBuffer * MutableDocument :=
  match changes buf !! k with
  | Some d => (buf, d)
  | None =>
      match reads buf !! k with
      | Some (d, _) => (buf, d)
      | None =>
          let d := getEntry k cache in
          (mkBuffer (changes buf)
                    (<[k := (d, storedSize k cache)]> (reads buf)),
           d)
      end
  end.

(** [getEntries] of the change buffer: [getEntry] for each key. *)
Definition bufferGetEntries (keys : list string)
    (buf : RemoteDocumentChangeBuffer) (cache : RemoteDocumentCache)
  : RemoteDocumentChangeBuffer :=
  foldl (λ acc k, (bufferGetEntry k acc cache).1) buf keys.

(** Modelled from the spec: [addEntry] of the change buffer
    (local/remote_document_change_buffer).  The key must have been read
    through the buffer; staging a document for a key that was not is a
    programming error. *)
Definition addEntry (document : MutableDocument)
    (buf : RemoteDocumentChangeBuffer)
  : Outcome RemoteDocumentChangeBuffer :=
  _ ← hardAssert (bool_decide (is_Some (reads buf !! key document)))
        "Cannot modify a document that was not read";
  Returned (mkBuffer (<[key document := document]> (changes buf))
                     (reads buf)).

(** The bytes recorded when the key was read. *)
Definition baseline (k : string) (buf : RemoteDocumentChangeBuffer) : Z :=
  match reads buf !! k with
  | Some (_, bytes) => bytes
  | None => 0%Z
  end.

Definition write (buf : RemoteDocumentChangeBuffer) (k : string)
    (document : MutableDocument) (cache : RemoteDocumentCache)
  : RemoteDocumentCache :=
  mkCache (<[k := document]> (entries cache))
          (storedBytes cache + (documentSize document - baseline k buf))%Z.

(** Modelled from the spec: [apply] of the change buffer
    (local/remote_document_change_buffer).  Every staged document is
    written, and the footprint moves by the difference to the bytes recorded
    at the read. *)
Definition apply (buf : RemoteDocumentChangeBuffer)
    (cache : RemoteDocumentCache) : RemoteDocumentCache :=
  map_fold (write buf) cache (changes buf).

(** The footprint the stored documents really have. *)
Definition actualBytes (cache : RemoteDocumentCache) : Z :=
  map_fold (λ _ d acc, (documentSize d + acc)%Z) 0%Z (entries cache).

(* ----------------------------------------------------------------- *)
(** ** TestRemoteDocumentCache                                        *)
(* ----------------------------------------------------------------- *)

(** [for (const document of documents) changeBuffer.addEntry(document)]. *)
Fixpoint addAll (documents : list MutableDocument)
    (buf : RemoteDocumentChangeBuffer)
  : Outcome RemoteDocumentChangeBuffer :=
  match documents with
  | [] => Returned buf
  | document :: rest => buf ← addEntry document buf; addAll rest buf
  end.

(** [addEntries(documents)], inside one 'readwrite-primary' transaction:
    read every key through a new change buffer, then add every document,
    then apply.  A throw aborts the transaction and leaves the cache as
    it was. *)
Definition addEntries (documents : list MutableDocument)
    (cache : RemoteDocumentCache) : Outcome RemoteDocumentCache :=
  let changeBuffer := newChangeBuffer in
  let changeBuffer :=
    foldl (λ acc document, (bufferGetEntry (key document) acc cache).1)
          changeBuffer documents in
  changeBuffer ← addAll documents changeBuffer;
  Returned (apply changeBuffer cache).

(** [addEntry(document)] of the wrapper. *)
Definition testAddEntry (document : MutableDocument)
    (cache : RemoteDocumentCache) : Outcome RemoteDocumentCache :=
  addEntries [document] cache.

End WithSize.

End Cache.

(* ===================================================================== *)
(** * Vocabulary of the properties                                       *)
(* ===================================================================== *)

(** The header names a list of entries sets, as the metadata stores them. *)
Definition names (hs : list (string * string)) : list string :=
  map (λ kv, Metadata.normalizeKey kv.1) hs.

Definition tokenHeaders (token : option Token) : list (string * string) :=
  match token with
  | Some t => headers t
  | None => []
  end.

(** What a run of sets leaves in the metadata when none of them throws:
    each value under its lower-cased name, a later one in place of an
    earlier one of the same name. *)
Definition stored (hs : list (string * string)) (md : gmap string string)
  : gmap string string :=
  foldl (λ acc kv, <[Metadata.normalizeKey kv.1 := kv.2]> acc) md hs.

Section Vocabulary.

Context `{Platform}.

(** The headers [createMetadata] sets after those of the tokens. *)
Definition fixedHeaders (databasePath appId : string)
  : list (string * string) :=
  (if truthy appId then [("X-Firebase-GMPID", appId)] else [])
    ++ [("X-Goog-Api-Client", X_GOOG_API_CLIENT_VALUE);
        ("Google-Cloud-Resource-Prefix", databasePath);
        ("x-goog-request-params", databasePath)].

(** Every [metadata.set] of [createMetadata], in the order it is made. *)
Definition metadataEntries (databasePath : string)
    (authToken appCheckToken : option Token) (appId : string)
  : list (string * string) :=
  tokenHeaders authToken ++ tokenHeaders appCheckToken
    ++ fixedHeaders databasePath appId.

(** The metadata a call carries when [createMetadata] returns. *)
Definition metadataOf (this : GrpcConnection)
    (authToken appCheckToken : option Token) : gmap string string :=
  stored (metadataEntries (databasePath this) authToken appCheckToken
                          (appId (databaseInfo this))) Metadata.empty.

(** A header that the validation of the metadata lets through. *)
Definition legal (kv : string * string) : Prop :=
  metadataValidate (Metadata.normalizeKey kv.1) kv.2 = None.

(** The events that make a stream close, and the error each hands to the
    owner. *)
Definition isCloseTrigger {Req Resp} (ev : @Event Req Resp) : bool :=
  match ev with
  | Close | OnEnd | OnError _ => true
  | _ => false
  end.

Definition terminalError {Req Resp} (ev : @Event Req Resp)
  : option FirestoreError :=
  match ev with
  | OnError grpcError =>
      Some (mkFirestoreError (mapCodeFromRpcCode (grpc_code grpcError))
                             (grpc_message grpcError))
  | _ => None
  end.

(** The five things a handler can do to the stream. *)
Inductive Step {Req Resp} (st : @StreamState Req Resp)
    (ev : @Event Req Resp) : @StreamState Req Resp → Prop :=
  | StepNothing : Step st ev st
  | StepWrite msg :
      closed st = false → ev = Send msg →
      Step st ev (emit st [GrpcWrite msg])
  | StepMessage msg :
      closed st = false → ev = OnData msg →
      Step st ev (emit st [CallOnMessage msg])
  | StepClose :
      closed st = false → isCloseTrigger ev = true →
      Step st ev (mkStream true (openTimerPending st)
                    (effects st ++ [CallOnClose (terminalError ev); GrpcEnd]))
  | StepOpen :
      openTimerPending st = true → ev = Timeout →
      Step st ev (mkStream (closed st) false (effects st ++ [CallOnOpen])).

(** What holds of the history of a stream at any time: past the call of the
    owner's close callback there is only the end of the transport and,
    possibly, the late 'open'. *)
Definition closeIsFinal {Req Resp} (st : @StreamState Req Resp) : Prop :=
  ∀ i e, effects st !! i = Some (CallOnClose e) →
    closed st = true
    ∧ ∀ j x, i < j → effects st !! j = Some x → x = GrpcEnd ∨ x = CallOnOpen.

(** A closed stream has called the owner's close callback. *)
Definition closedIsNotified {Req Resp} (st : @StreamState Req Resp) : Prop :=
  closed st = true → ∃ i e, effects st !! i = Some (CallOnClose e).

(** 'open' is delivered by the timer, once. *)
Definition openOnce {Req Resp} (st : @StreamState Req Resp) : Prop :=
  (openTimerPending st = true → ∀ i, effects st !! i ≠ Some CallOnOpen)
  ∧ (openTimerPending st = false → ∃ i, effects st !! i = Some CallOnOpen)
  ∧ (∀ i j, effects st !! i = Some CallOnOpen →
            effects st !! j = Some CallOnOpen → i = j).

Definition isOnData {Req Resp} (ev : @Event Req Resp) : bool :=
  match ev with
  | OnData _ => true
  | _ => false
  end.

Definition isData {Resp} (ev : StreamingEvent Resp) : bool :=
  match ev with
  | Data _ => true
  | _ => false
  end.

(** The messages among the events of a server-streaming call, in order. *)
Definition dataOf {Resp} (evs : list (StreamingEvent Resp)) : list Resp :=
  omap (λ ev, match ev with Data response => Some response | _ => None end)
       evs.

(** Whether a string has a '/' in it. *)
Fixpoint hasSlash (s : string) : bool :=
  match s with
  | EmptyString => false
  | String c rest => if Ascii.eqb c "/"%char then true else hasSlash rest
  end.

(* ------------------------------------------------------------------- *)
(** ** A connection in use                                              *)
(* ------------------------------------------------------------------- *)

(** One use of the connection: one of its three operations, with its
    arguments. *)
Inductive Operation : Type :=
  | InvokeRPC (rpcName path : string) (request : JsObject)
              (authToken appCheckToken : option Token)
  | InvokeStreamingRPC (rpcName path : string) (request : JsObject)
              (authToken appCheckToken : option Token)
  | OpenStream (rpcName : string) (authToken appCheckToken : option Token).

(** The connection as the operation leaves it, whether the operation
    returned or threw. *)
Definition perform (this : GrpcConnection) (op : Operation)
  : GrpcConnection :=
  match op with
  | InvokeRPC rpcName path request authToken appCheckToken =>
      (invokeRPC (Resp:=unit) this rpcName path request authToken
                 appCheckToken).1
  | InvokeStreamingRPC rpcName path request authToken appCheckToken =>
      (invokeStreamingRPC (Resp:=unit) this rpcName path request authToken
                          appCheckToken).1
  | OpenStream rpcName authToken appCheckToken =>
      (openStream (Req:=unit) (Resp:=unit) this rpcName authToken
                  appCheckToken).1
  end.

Definition performAll (this : GrpcConnection) (ops : list Operation)
  : GrpcConnection :=
  foldl perform this ops.

Definition operationName (op : Operation) : string :=
  match op with
  | InvokeRPC rpcName _ _ _ _ => rpcName
  | InvokeStreamingRPC rpcName _ _ _ _ => rpcName
  | OpenStream rpcName _ _ => rpcName
  end.

Definition isReturned {A} (o : Outcome A) : bool :=
  match o with
  | Returned _ => true
  | Thrown _ => false
  end.

(** Whether [createMetadata] returns for the tokens of the operation, on
    this connection: the auth token passes the assertion and every header
    passes the validation of the metadata. *)
Definition createsMetadata (this : GrpcConnection) (op : Operation) : bool :=
  match op with
  | InvokeRPC _ _ _ authToken appCheckToken
  | InvokeStreamingRPC _ _ _ authToken appCheckToken
  | OpenStream _ authToken appCheckToken =>
      isReturned (createMetadata (databasePath this) authToken appCheckToken
                                 (appId (databaseInfo this)))
  end.

(** The parts of a call made on the stub. *)
Definition callName (c : StubCall) : string :=
  match c with
  | UnaryCall rpcName _ _ => rpcName
  | ServerStreamingCall rpcName _ _ => rpcName
  | DuplexCall rpcName _ => rpcName
  end.

Definition callMetadata (c : StubCall) : gmap string string :=
  match c with
  | UnaryCall _ _ metadata => metadata
  | ServerStreamingCall _ _ metadata => metadata
  | DuplexCall _ metadata => metadata
  end.

Definition callRequest (c : StubCall) : option JsObject :=
  match c with
  | UnaryCall _ jsonRequest _ => Some jsonRequest
  | ServerStreamingCall _ jsonRequest _ => Some jsonRequest
  | DuplexCall _ _ => None
  end.

(* ------------------------------------------------------------------- *)
(** ** What a stream relays                                             *)
(* ------------------------------------------------------------------- *)

Definition isTimeout {Req Resp} (ev : @Event Req Resp) : bool :=
  match ev with
  | Timeout => true
  | _ => false
  end.

(** The events that come before the first close invocation. *)
Fixpoint untilClose {Req Resp} (evs : list (@Event Req Resp))
  : list (@Event Req Resp) :=
  match evs with
  | [] => []
  | ev :: rest => if isCloseTrigger ev then [] else ev :: untilClose rest
  end.

(** The messages the transport delivered, and those the owner sent. *)
Definition receivedData {Req Resp} (evs : list (@Event Req Resp))
  : list Resp :=
  omap (λ ev, match ev with OnData msg => Some msg | _ => None end) evs.

Definition sentMessages {Req Resp} (evs : list (@Event Req Resp))
  : list Req :=
  omap (λ ev, match ev with Send msg => Some msg | _ => None end) evs.

(** The messages handed to the owner's message callback, and those written
    to the transport, as the history has them. *)
Definition deliveredMessages {Req Resp} (history : list (@Effect Req Resp))
  : list Resp :=
  omap (λ e, match e with CallOnMessage msg => Some msg | _ => None end)
       history.

Definition writtenMessages {Req Resp} (history : list (@Effect Req Resp))
  : list Req :=
  omap (λ e, match e with GrpcWrite msg => Some msg | _ => None end) history.

End Vocabulary.

(** A validation of header names and values to evaluate the definitions
    with: a name is a non-empty run of digits, small letters, '_', '.' and
    '-'; a name that ends in "-bin" wants a binary value, not a string; a
    value is a run of printable ASCII characters. *)
Definition legalKeyChar (c : ascii) : bool :=
  let n := nat_of_ascii c in
  (48 <=? n) && (n <=? 57) || (97 <=? n) && (n <=? 122)
  || (n =? 95) || (n =? 46) || (n =? 45).

Definition legalValueChar (c : ascii) : bool :=
  let n := nat_of_ascii c in (32 <=? n) && (n <=? 126).

Fixpoint allChars (f : ascii → bool) (s : string) : bool :=
  match s with
  | EmptyString => true
  | String c rest => f c && allChars f rest
  end.

Fixpoint endsWithBin (s : string) : bool :=
  match s with
  | EmptyString => false
  | String _ rest => String.eqb s "-bin" || endsWithBin rest
  end.

Definition exampleValidate (key value : string) : option JsError :=
  if negb (truthy key && allChars legalKeyChar key) then
    Some (OtherError "Metadata key contains illegal characters")
  else if endsWithBin key then
    Some (OtherError "keys that end with '-bin' must have Buffer values")
  else if negb (allChars legalValueChar value) then
    Some (OtherError "Metadata string value contains illegal characters")
  else None.

(** A platform and a database to evaluate the definitions on. *)
Definition examplePlatform : Platform :=
  {| nodeVersion := "18.12.0";
     SDK_VERSION := "9.6.1";
     mapCodeFromRpcCode := λ c,
       if bool_decide (c = 10%Z) then "aborted"
       else if bool_decide (c = 14%Z) then "unavailable"
       else "unknown";
     metadataValidate := exampleValidate |}.

Definition exampleInfo : DatabaseInfo :=
  mkDatabaseInfo (mkDatabaseId "demo" "(default)") "1:234:web:5"
                 "firestore.googleapis.com" true.

(* ===================================================================== *)
(** * Properties of the connection layer                                 *)
(* ===================================================================== *)

Lemma stored_app (hs1 hs2 : list (string * string)) (md : gmap string string) :
  stored (hs1 ++ hs2) md = stored hs2 (stored hs1 md).
Proof. unfold stored. apply foldl_app. Qed.

Lemma stored_lookup_other (hs : list (string * string))
    (md : gmap string string) (name : string) :
  name ∉ names hs → stored hs md !! name = md !! name.
Proof.
  revert md. induction hs as [|[k v] hs IH]; intros md Hnot; [done|].
  cbn in Hnot. apply not_elem_of_cons in Hnot as [Hne Hnot].
  change (stored ((k, v) :: hs) md)
    with (stored hs (<[Metadata.normalizeKey k := v]> md)).
  rewrite IH by done. by rewrite lookup_insert_ne.
Qed.

(** A header that is set and not set again under the same name is there. *)
Lemma stored_lookup_last (before after : list (string * string))
    (k v : string) (md : gmap string string) :
  Metadata.normalizeKey k ∉ names after →
  Metadata.get k (stored (before ++ (k, v) :: after) md) = Some v.
Proof.
  intros Hnot. unfold Metadata.get. rewrite stored_app.
  change (stored ((k, v) :: after) ?m)
    with (stored after (<[Metadata.normalizeKey k := v]> m)).
  rewrite stored_lookup_other by done. apply lookup_insert_eq.
Qed.

(** Closes goals of the form [name ∉ [name1; ...; namek]] for literal names. *)
Ltac distinct_names :=
  cbn; rewrite ?not_elem_of_cons; repeat split;
  first [discriminate | apply not_elem_of_nil].

Lemma stored_lookup_split (hs before : list (string * string))
    (k v : string) (after : list (string * string))
    (md : gmap string string) :
  hs = before ++ (k, v) :: after →
  Metadata.normalizeKey k ∉ names after →
  Metadata.get k (stored hs md) = Some v.
Proof. intros ->. apply stored_lookup_last. Qed.

Section ConnectionProperties.

Context `{Platform}.

Lemma ensureActiveStub_fields (this : GrpcConnection) :
  databasePath (ensureActiveStub this).1 = databasePath this
  ∧ databaseInfo (ensureActiveStub this).1 = databaseInfo this
  ∧ issued (ensureActiveStub this).1 = issued this.
Proof. unfold ensureActiveStub. by destruct (cachedStub this). Qed.

Lemma issued_issue (this : GrpcConnection) (c : StubCall) :
  issued (issue (ensureActiveStub this).1 c) = issued this ++ [c].
Proof.
  destruct (ensureActiveStub_fields this) as (_ & _ & Hissued).
  cbn. by rewrite Hissued.
Qed.

Lemma setAll_app (hs1 hs2 : list (string * string))
    (md : gmap string string) :
  setAll (hs1 ++ hs2) md = (md' ← setAll hs1 md; setAll hs2 md').
Proof.
  revert md. induction hs1 as [|[k v] hs1 IH]; intros md; [done|].
  cbn [app setAll]. destruct (metadataSet k v md) as [md'|e]; [|done].
  apply IH.
Qed.

(** A run of sets returns exactly when the validation lets every header
    through, and then it leaves what [stored] says. *)
Lemma setAll_returns (hs : list (string * string))
    (md md' : gmap string string) :
  setAll hs md = Returned md' ↔ Forall legal hs ∧ md' = stored hs md.
Proof.
  revert md. induction hs as [|[k v] hs IH]; intros md.
  { cbn. split; [by intros [= <-]|by intros [_ ->]]. }
  cbn [setAll]. unfold metadataSet, Metadata.set.
  rewrite Forall_cons. unfold legal at 1. cbn [fst snd].
  destruct (metadataValidate (Metadata.normalizeKey k) v) as [e|].
  - split; [done|]. by intros [[? _] _].
  - change (stored ((k, v) :: hs) md)
      with (stored hs (<[Metadata.normalizeKey k := v]> md)).
    cbn. rewrite IH. split; [by intros [? ?]|by intros [[_ ?] ?]].
Qed.

Lemma createMetadata_assertion_fails (databasePath : string)
    (authToken appCheckToken : option Token) (appId : string) :
  isOAuthOrNull authToken = false →
  createMetadata databasePath authToken appCheckToken appId
  = Thrown (InternalAssertionFailed "If provided, token must be OAuth").
Proof. intros Hno. unfold createMetadata. by rewrite Hno. Qed.

(** Past the assertion, [createMetadata] is the run of its sets. *)
Lemma createMetadata_entries (databasePath : string)
    (authToken appCheckToken : option Token) (appId : string) :
  isOAuthOrNull authToken = true →
  createMetadata databasePath authToken appCheckToken appId
  = setAll (metadataEntries databasePath authToken appCheckToken appId)
           Metadata.empty.
Proof.
  intros Hok. unfold createMetadata. rewrite Hok. cbn [hardAssert].
  unfold metadataEntries. rewrite setAll_app.
  change (_ ← Returned tt; ?k) with k. cbv zeta.
  replace (match authToken with
           | Some t => setAll (headers t) Metadata.empty
           | None => Returned Metadata.empty
           end)
    with (setAll (tokenHeaders authToken) Metadata.empty)
    by (by destruct authToken).
  destruct (setAll (tokenHeaders authToken) Metadata.empty) as [md1|e];
    [|done].
  cbn [mbind Outcome_bind]. rewrite setAll_app.
  replace (match appCheckToken with
           | Some t => setAll (headers t) md1
           | None => Returned md1
           end)
    with (setAll (tokenHeaders appCheckToken) md1)
    by (by destruct appCheckToken).
  destruct (setAll (tokenHeaders appCheckToken) md1) as [md2|e]; [|done].
  cbn [mbind Outcome_bind]. unfold fixedHeaders.
  destruct (truthy appId); cbn [app setAll].
  - destruct (metadataSet "X-Firebase-GMPID" appId md2) as [md3|e];
      [|done].
    cbn [mbind Outcome_bind].
    destruct (metadataSet "X-Goog-Api-Client" _ md3) as [md4|e]; [|done].
    cbn [mbind Outcome_bind].
    destruct (metadataSet "Google-Cloud-Resource-Prefix" _ md4) as [md5|e];
      [|done].
    cbn [mbind Outcome_bind].
    by destruct (metadataSet "x-goog-request-params" _ md5).
  - cbn [mbind Outcome_bind].
    destruct (metadataSet "X-Goog-Api-Client" _ md2) as [md4|e]; [|done].
    cbn [mbind Outcome_bind].
    destruct (metadataSet "Google-Cloud-Resource-Prefix" _ md4) as [md5|e];
      [|done].
    cbn [mbind Outcome_bind].
    by destruct (metadataSet "x-goog-request-params" _ md5).
Qed.

(** [createMetadata] returns exactly when the auth token passes the
    assertion and the validation lets every header through; what it returns
    is the metadata [metadataOf] describes. *)
Lemma createMetadata_returns (databasePath : string)
    (authToken appCheckToken : option Token) (appId : string)
    (md : gmap string string) :
  createMetadata databasePath authToken appCheckToken appId = Returned md
  ↔ isOAuthOrNull authToken = true
    ∧ Forall legal
        (metadataEntries databasePath authToken appCheckToken appId)
    ∧ md = stored (metadataEntries databasePath authToken appCheckToken
                                   appId) Metadata.empty.
Proof.
  destruct (isOAuthOrNull authToken) eqn:Hok.
  - rewrite createMetadata_entries, setAll_returns by done.
    split; [by intros [? ?]|by intros (_ & ? & ?)].
  - rewrite createMetadata_assertion_fails by done.
    split; [done|by intros [? _]].
Qed.

Lemma createMetadata_metadataOf (this : GrpcConnection)
    (authToken appCheckToken : option Token) (md : gmap string string) :
  createMetadata (databasePath this) authToken appCheckToken
                 (appId (databaseInfo this)) = Returned md →
  md = metadataOf this authToken appCheckToken.
Proof. by intros (_ & _ & ->)%createMetadata_returns. Qed.

Lemma invokeRPC_throws {Resp} (this : GrpcConnection) (rpcName path : string)
    (request : JsObject) (authToken appCheckToken : option Token)
    (e : JsError) :
  createMetadata (databasePath this) authToken appCheckToken
                 (appId (databaseInfo this)) = Thrown e →
  invokeRPC (Resp:=Resp) this rpcName path request authToken appCheckToken
  = ((ensureActiveStub this).1, Thrown e).
Proof.
  intros Hthrown. unfold invokeRPC.
  destruct (ensureActiveStub_fields this) as (Hpath & Hinfo & _).
  destruct (ensureActiveStub this) as [this1 stub]. cbn in Hpath, Hinfo.
  by rewrite Hpath, Hinfo, Hthrown.
Qed.

Lemma invokeRPC_returns {Resp} (this : GrpcConnection) (rpcName path : string)
    (request : JsObject) (authToken appCheckToken : option Token)
    (md : gmap string string) :
  createMetadata (databasePath this) authToken appCheckToken
                 (appId (databaseInfo this)) = Returned md →
  ∃ p : UnaryPromise Resp,
    invokeRPC this rpcName path request authToken appCheckToken
    = (issue (ensureActiveStub this).1
         (UnaryCall rpcName
            (request ∪ {[ "database" := JStr (databasePath this) ]}) md),
       Returned p)
    ∧ (∀ ge value,
         p (Some ge) value
         = Rejected (mkFirestoreError (mapCodeFromRpcCode (grpc_code ge))
                                      (grpc_message ge)))
    ∧ (∀ value, p None value = Resolved value).
Proof.
  intros Hreturned. unfold invokeRPC.
  destruct (ensureActiveStub_fields this) as (Hpath & Hinfo & _).
  destruct (ensureActiveStub this) as [this1 stub]. cbn in Hpath, Hinfo.
  rewrite Hpath, Hinfo, Hreturned.
  eexists. split; [reflexivity|]. split; reflexivity.
Qed.

Lemma invokeStreamingRPC_throws {Resp} (this : GrpcConnection)
    (rpcName path : string) (request : JsObject)
    (authToken appCheckToken : option Token) (e : JsError) :
  createMetadata (databasePath this) authToken appCheckToken
                 (appId (databaseInfo this)) = Thrown e →
  invokeStreamingRPC (Resp:=Resp) this rpcName path request authToken
                     appCheckToken
  = ((ensureActiveStub this).1, Thrown e).
Proof.
  intros Hthrown. unfold invokeStreamingRPC.
  destruct (ensureActiveStub_fields this) as (Hpath & Hinfo & _).
  destruct (ensureActiveStub this) as [this1 stub]. cbn in Hpath, Hinfo.
  by rewrite Hpath, Hinfo, Hthrown.
Qed.

Lemma invokeStreamingRPC_returns {Resp} (this : GrpcConnection)
    (rpcName path : string) (request : JsObject)
    (authToken appCheckToken : option Token) (md : gmap string string) :
  createMetadata (databasePath this) authToken appCheckToken
                 (appId (databaseInfo this)) = Returned md →
  invokeStreamingRPC (Resp:=Resp) this rpcName path request authToken
                     appCheckToken
  = (issue (ensureActiveStub this).1
       (ServerStreamingCall rpcName
          (<[ "database" := JStr (databasePath this) ]> request) md),
     Returned (λ events,
       promise (foldl onStreamingEvent (mkStreamingCall [] Unsettled)
                      events))).
Proof.
  intros Hreturned. unfold invokeStreamingRPC.
  destruct (ensureActiveStub_fields this) as (Hpath & Hinfo & _).
  destruct (ensureActiveStub this) as [this1 stub]. cbn in Hpath, Hinfo.
  by rewrite Hpath, Hinfo, Hreturned.
Qed.

Lemma openStream_throws {Req Resp} (this : GrpcConnection)
    (rpcName : string) (authToken appCheckToken : option Token)
    (e : JsError) :
  createMetadata (databasePath this) authToken appCheckToken
                 (appId (databaseInfo this)) = Thrown e →
  openStream (Req:=Req) (Resp:=Resp) this rpcName authToken appCheckToken
  = ((ensureActiveStub this).1, Thrown e).
Proof.
  intros Hthrown. unfold openStream.
  destruct (ensureActiveStub_fields this) as (Hpath & Hinfo & _).
  destruct (ensureActiveStub this) as [this1 stub]. cbn in Hpath, Hinfo.
  by rewrite Hpath, Hinfo, Hthrown.
Qed.

Lemma openStream_returns {Req Resp} (this : GrpcConnection)
    (rpcName : string) (authToken appCheckToken : option Token)
    (md : gmap string string) :
  createMetadata (databasePath this) authToken appCheckToken
                 (appId (databaseInfo this)) = Returned md →
  openStream (Req:=Req) (Resp:=Resp) this rpcName authToken appCheckToken
  = (issue (ensureActiveStub this).1 (DuplexCall rpcName md),
     Returned (mkStream false true [])).
Proof.
  intros Hreturned. unfold openStream.
  destruct (ensureActiveStub_fields this) as (Hpath & Hinfo & _).
  destruct (ensureActiveStub this) as [this1 stub]. cbn in Hpath, Hinfo.
  by rewrite Hpath, Hinfo, Hreturned.
Qed.

(** C9.  A non-null auth token whose type is not 'OAuth' makes invokeRPC,
    invokeStreamingRPC and openStream throw the fatal assertion of
    createMetadata, and none of them has issued a call on the stub by
    then. *)
Theorem non_oauth_token_fails_before_any_request
    (Req Resp : Type) (this : GrpcConnection) (rpcName path : string)
    (request : JsObject) (t : Token) (appCheckToken : option Token) :
  type t ≠ "OAuth" →
  let failure {A} : Outcome A :=
    Thrown (InternalAssertionFailed "If provided, token must be OAuth") in
  (∃ this',
      invokeRPC (Resp:=Resp) this rpcName path request (Some t)
                appCheckToken = (this', failure)
      ∧ issued this' = issued this)
  ∧ (∃ this',
      invokeStreamingRPC (Resp:=Resp) this rpcName path request (Some t)
                         appCheckToken = (this', failure)
      ∧ issued this' = issued this)
  ∧ (∃ this',
      openStream (Req:=Req) (Resp:=Resp) this rpcName (Some t)
                 appCheckToken = (this', failure)
      ∧ issued this' = issued this).
Proof.
  intros Htype failure.
  assert (isOAuthOrNull (Some t) = false) as Hno
    by (by apply bool_decide_eq_false).
  pose proof (createMetadata_assertion_fails (databasePath this) (Some t)
                appCheckToken (appId (databaseInfo this)) Hno) as Hfails.
  pose proof (ensureActiveStub_fields this) as (_ & _ & Hissued).
  repeat split; eexists; (split; [|exact Hissued]).
  - by apply invokeRPC_throws.
  - by apply invokeStreamingRPC_throws.
  - by apply openStream_throws.
Qed.

(* ------------------------------------------------------------------- *)
(** ** The 'database' field of the two request shapes                   *)
(* ------------------------------------------------------------------- *)

Lemma spread_then_database (request : JsObject) (dbPath : string)
    (v : json) :
  request !! "database" = Some v →
  (request ∪ {[ "database" := JStr dbPath ]} : JsObject) !! "database"
  = Some v.
Proof. intros Hv. by apply lookup_union_Some_l. Qed.

Lemma spread_other_fields (request : JsObject) (dbPath field : string) :
  field ≠ "database" →
  (request ∪ {[ "database" := JStr dbPath ]} : JsObject) !! field
  = (<[ "database" := JStr dbPath ]> request : JsObject) !! field.
Proof.
  intros Hne. rewrite lookup_insert_ne by done.
  apply lookup_union_l. by apply lookup_singleton_ne.
Qed.

Lemma wire_requests_equal_iff (request : JsObject) (dbPath : string)
    (v : json) :
  request !! "database" = Some v →
  (request ∪ {[ "database" := JStr dbPath ]}
   = <[ "database" := JStr dbPath ]> request)
  ↔ v = JStr dbPath.
Proof.
  intros Hv. split.
  - intros Heq.
    assert ((request ∪ {[ "database" := JStr dbPath ]} : JsObject)
              !! "database" = Some (JStr dbPath)) as Hl
      by (rewrite Heq; apply lookup_insert_eq).
    rewrite (spread_then_database _ _ v) in Hl by done. congruence.
  - intros ->. apply map_eq. intros field.
    destruct (decide (field = "database")) as [->|Hne].
    + rewrite (spread_then_database _ _ (JStr dbPath)) by done.
      by rewrite lookup_insert_eq.
    + by apply spread_other_fields.
Qed.

(** C10 (as amended).  Whenever createMetadata returns (the auth token is
    null or an OAuth token and the metadata accepts every header), so that
    the operations send a request at all: for a request that has a
    'database' field, invokeRPC sends the caller's value of the field and
    invokeStreamingRPC sends the connection's database path; every other
    field is sent alike, and the two wire requests are the same exactly
    when the caller's value is the connection's database path. *)
Theorem database_field_precedence_differs (Resp : Type)
    (this : GrpcConnection) (rpcName path : string) (request : JsObject)
    (authToken appCheckToken : option Token) (v : json)
    (md : gmap string string) :
  createMetadata (databasePath this) authToken appCheckToken
                 (appId (databaseInfo this)) = Returned md →
  request !! "database" = Some v →
  ∃ this1 this2 (p1 : UnaryPromise Resp) (p2 : StreamingPromise Resp)
    (unaryRequest streamingRequest : JsObject),
    invokeRPC this rpcName path request authToken appCheckToken
    = (this1, Returned p1)
    ∧ issued this1 = issued this ++ [UnaryCall rpcName unaryRequest md]
    ∧ invokeStreamingRPC this rpcName path request authToken appCheckToken
      = (this2, Returned p2)
    ∧ issued this2
      = issued this ++ [ServerStreamingCall rpcName streamingRequest md]
    ∧ unaryRequest !! "database" = Some v
    ∧ streamingRequest !! "database" = Some (JStr (databasePath this))
    ∧ (∀ field, field ≠ "database" →
         unaryRequest !! field = streamingRequest !! field)
    ∧ (unaryRequest = streamingRequest ↔ v = JStr (databasePath this)).
Proof.
  intros Hreturned Hv.
  destruct (invokeRPC_returns (Resp:=Resp) this rpcName path request
              authToken appCheckToken md Hreturned) as (p1 & Hunary & _).
  pose proof (invokeStreamingRPC_returns (Resp:=Resp) this rpcName path
                request authToken appCheckToken md Hreturned) as Hstreaming.
  pose proof (ensureActiveStub_fields this) as (_ & _ & Hissued).
  do 6 eexists.
  split; [exact Hunary|]. split; [cbn; by rewrite Hissued|].
  split; [exact Hstreaming|]. split; [cbn; by rewrite Hissued|].
  split; [by apply spread_then_database|].
  split; [apply lookup_insert_eq|].
  split; [intros field; apply spread_other_fields|].
  by apply wire_requests_equal_iff.
Qed.

(* ------------------------------------------------------------------- *)
(** ** What the metadata of a call carries                              *)
(* ------------------------------------------------------------------- *)

Lemma metadata_client_header (this : GrpcConnection)
    (authToken appCheckToken : option Token) :
  Metadata.get "X-Goog-Api-Client" (metadataOf this authToken appCheckToken)
  = Some X_GOOG_API_CLIENT_VALUE.
Proof.
  unfold metadataOf.
  apply (stored_lookup_split _
           (tokenHeaders authToken ++ tokenHeaders appCheckToken
              ++ if truthy (appId (databaseInfo this))
                 then [("X-Firebase-GMPID", appId (databaseInfo this))]
                 else [])
           _ _
           [("Google-Cloud-Resource-Prefix", databasePath this);
            ("x-goog-request-params", databasePath this)]).
  - unfold metadataEntries, fixedHeaders. by rewrite <-!app_assoc.
  - distinct_names.
Qed.

Lemma metadata_resource_prefix (this : GrpcConnection)
    (authToken appCheckToken : option Token) :
  Metadata.get "Google-Cloud-Resource-Prefix"
               (metadataOf this authToken appCheckToken)
  = Some (databasePath this).
Proof.
  unfold metadataOf.
  apply (stored_lookup_split _
           (tokenHeaders authToken ++ tokenHeaders appCheckToken
              ++ (if truthy (appId (databaseInfo this))
                  then [("X-Firebase-GMPID", appId (databaseInfo this))]
                  else [])
              ++ [("X-Goog-Api-Client", X_GOOG_API_CLIENT_VALUE)])
           _ _
           [("x-goog-request-params", databasePath this)]).
  - unfold metadataEntries, fixedHeaders. by rewrite <-!app_assoc.
  - distinct_names.
Qed.

Lemma metadata_request_params (this : GrpcConnection)
    (authToken appCheckToken : option Token) :
  Metadata.get "x-goog-request-params"
               (metadataOf this authToken appCheckToken)
  = Some (databasePath this).
Proof.
  unfold metadataOf.
  apply (stored_lookup_split _
           (tokenHeaders authToken ++ tokenHeaders appCheckToken
              ++ (if truthy (appId (databaseInfo this))
                  then [("X-Firebase-GMPID", appId (databaseInfo this))]
                  else [])
              ++ [("X-Goog-Api-Client", X_GOOG_API_CLIENT_VALUE);
                  ("Google-Cloud-Resource-Prefix", databasePath this)])
           _ _ []).
  - unfold metadataEntries, fixedHeaders. by rewrite <-!app_assoc.
  - distinct_names.
Qed.

Lemma metadata_appCheck_header (this : GrpcConnection)
    (authToken appCheckToken : option Token)
    (before after : list (string * string)) (k v : string) :
  tokenHeaders appCheckToken = before ++ (k, v) :: after →
  Metadata.normalizeKey k
    ∉ names after
        ++ names (fixedHeaders (databasePath this)
                               (appId (databaseInfo this))) →
  Metadata.get k (metadataOf this authToken appCheckToken) = Some v.
Proof.
  intros Hsplit Hnot. unfold metadataOf.
  apply (stored_lookup_split _ (tokenHeaders authToken ++ before) _ _
           (after ++ fixedHeaders (databasePath this)
                                  (appId (databaseInfo this)))).
  - unfold metadataEntries. rewrite Hsplit. by rewrite <-!app_assoc.
  - unfold names in *. by rewrite map_app.
Qed.

Lemma metadata_auth_header (this : GrpcConnection)
    (authToken appCheckToken : option Token)
    (before after : list (string * string)) (k v : string) :
  tokenHeaders authToken = before ++ (k, v) :: after →
  Metadata.normalizeKey k
    ∉ names after ++ names (tokenHeaders appCheckToken)
        ++ names (fixedHeaders (databasePath this)
                               (appId (databaseInfo this))) →
  Metadata.get k (metadataOf this authToken appCheckToken) = Some v.
Proof.
  intros Hsplit Hnot. unfold metadataOf.
  apply (stored_lookup_split _ before _ _
           (after ++ tokenHeaders appCheckToken
              ++ fixedHeaders (databasePath this)
                              (appId (databaseInfo this)))).
  - unfold metadataEntries. rewrite Hsplit. by rewrite <-!app_assoc.
  - unfold names in *. by rewrite !map_app.
Qed.

(** C6 (as amended).  Whenever createMetadata returns (the auth token is
    null or an OAuth token and the metadata accepts every header it is
    given), invokeRPC issues one unary call, with the metadata createMetadata
    returned: it carries the fixed client-identification header and the
    database path under both of its header names; it carries every app-check
    header whose name is not set again later (by a later app-check header
    or by a fixed header) and every auth header whose name is not set again
    later (by a later auth header, an app-check header or a fixed header);
    names are compared as the metadata stores them.  A failure of the
    transport rejects the promise with a FirestoreError whose code is the
    transport's status code mapped by mapCodeFromRpcCode and whose message
    is the transport's; a success resolves it with the value. *)
Theorem invokeRPC_metadata_and_error_mapping (Resp : Type)
    (this : GrpcConnection) (rpcName path : string) (request : JsObject)
    (authToken appCheckToken : option Token) (md : gmap string string) :
  createMetadata (databasePath this) authToken appCheckToken
                 (appId (databaseInfo this)) = Returned md →
  let fixed :=
    names (fixedHeaders (databasePath this) (appId (databaseInfo this))) in
  ∃ this' (p : UnaryPromise Resp) jsonRequest,
    invokeRPC this rpcName path request authToken appCheckToken
    = (this', Returned p)
    ∧ issued this' = issued this ++ [UnaryCall rpcName jsonRequest md]
    ∧ Metadata.get "X-Goog-Api-Client" md = Some X_GOOG_API_CLIENT_VALUE
    ∧ Metadata.get "Google-Cloud-Resource-Prefix" md
      = Some (databasePath this)
    ∧ Metadata.get "x-goog-request-params" md = Some (databasePath this)
    ∧ (∀ before k v after,
         tokenHeaders appCheckToken = before ++ (k, v) :: after →
         Metadata.normalizeKey k ∉ names after ++ fixed →
         Metadata.get k md = Some v)
    ∧ (∀ before k v after,
         tokenHeaders authToken = before ++ (k, v) :: after →
         Metadata.normalizeKey k
           ∉ names after ++ names (tokenHeaders appCheckToken) ++ fixed →
         Metadata.get k md = Some v)
    ∧ (∀ ge value,
         p (Some ge) value
         = Rejected (mkFirestoreError (mapCodeFromRpcCode (grpc_code ge))
                                      (grpc_message ge)))
    ∧ (∀ value, p None value = Resolved value).
Proof.
  intros Hreturned fixed.
  destruct (invokeRPC_returns (Resp:=Resp) this rpcName path request
              authToken appCheckToken md Hreturned)
    as (p & Heq & Herr & Hval).
  apply createMetadata_metadataOf in Hreturned as ->.
  pose proof (ensureActiveStub_fields this) as (_ & _ & Hissued).
  do 3 eexists.
  split; [exact Heq|]. split; [cbn; by rewrite Hissued|].
  split; [apply metadata_client_header|].
  split; [apply metadata_resource_prefix|].
  split; [apply metadata_request_params|].
  split; [intros before k v after; apply metadata_appCheck_header|].
  split; [intros before k v after; apply metadata_auth_header|].
  by split.
Qed.

(* ------------------------------------------------------------------- *)
(** ** The promise of invokeStreamingRPC                                *)
(* ------------------------------------------------------------------- *)

Lemma onStreamingEvent_data {Resp} (st : StreamingCallState Resp)
    (ms : list Resp) :
  foldl onStreamingEvent st (map Data ms)
  = mkStreamingCall (results st ++ ms) (responseDeferred st).
Proof.
  revert st. induction ms as [|m ms IH]; intros st; cbn.
  - rewrite app_nil_r. by destruct st.
  - rewrite IH. cbn. by rewrite <-app_assoc.
Qed.

(** A settled promise stays as it is. *)
Lemma settled_is_final {Resp} (st : StreamingCallState Resp)
    (evs : list (StreamingEvent Resp)) :
  responseDeferred st ≠ Unsettled →
  responseDeferred (foldl onStreamingEvent st evs) = responseDeferred st.
Proof.
  revert st. induction evs as [|ev evs IH]; intros st Hst; [done|].
  cbn. rewrite IH.
  - destruct ev; cbn; [done| |]; by destruct (responseDeferred st).
  - destruct ev; cbn; [done| |]; by destruct (responseDeferred st).
Qed.

Lemma results_without_data {Resp} (st : StreamingCallState Resp)
    (evs : list (StreamingEvent Resp)) :
  Forall (λ ev, isData ev = false) evs →
  results (foldl onStreamingEvent st evs) = results st.
Proof.
  revert st. induction evs as [|ev evs IH]; intros st Hevs; [done|].
  apply Forall_cons in Hevs as [Hev Hevs]. cbn. rewrite IH by done.
  by destruct ev.
Qed.

(** C5.  Whenever createMetadata returns (the auth token is null or an
    OAuth token and the metadata accepts every header it is given),
    invokeStreamingRPC issues the call and returns a promise that is pending
    while only messages have arrived; after the messages m1..mk and the
    natural end of the stream it is resolved with the list [m1..mk], and
    stays so whatever 'end' or 'error' events follow; after messages and an
    error it is rejected with the FirestoreError whose code is the
    transport's status code mapped by mapCodeFromRpcCode, whatever follows,
    so no list of messages reaches the caller. *)
Theorem invokeStreamingRPC_collects_all_or_rejects (Resp : Type)
    (this : GrpcConnection) (rpcName path : string) (request : JsObject)
    (authToken appCheckToken : option Token) (md : gmap string string) :
  createMetadata (databasePath this) authToken appCheckToken
                 (appId (databaseInfo this)) = Returned md →
  ∃ this' (p : StreamingPromise Resp),
    invokeStreamingRPC this rpcName path request authToken appCheckToken
    = (this', Returned p)
    ∧ (∀ ms, p (map Data ms) = Pending)
    ∧ (∀ ms rest,
         Forall (λ ev, isData ev = false) rest →
         p (map Data ms ++ End_ :: rest) = Resolved ms)
    ∧ (∀ ms ge rest,
         p (map Data ms ++ Error ge :: rest)
         = Rejected (mkFirestoreError (mapCodeFromRpcCode (grpc_code ge))
                                      (grpc_message ge))).
Proof.
  intros Hreturned. do 2 eexists.
  split; [by eapply invokeStreamingRPC_returns|].
  split; [|split].
  - intros ms. by rewrite onStreamingEvent_data.
  - intros ms rest Hrest. rewrite foldl_app, onStreamingEvent_data.
    cbn [foldl]. unfold promise.
    rewrite settled_is_final by done.
    by rewrite results_without_data.
  - intros ms ge rest. rewrite foldl_app, onStreamingEvent_data.
    cbn [foldl]. unfold promise.
    by rewrite settled_is_final.
Qed.

(* ------------------------------------------------------------------- *)
(** ** The cached stub                                                  *)
(* ------------------------------------------------------------------- *)

Lemma ensureActiveStub_caches (this : GrpcConnection) :
  cachedStub (ensureActiveStub this).1 = Some (ensureActiveStub this).2
  ∧ (∀ stub, cachedStub this = Some stub →
       ensureActiveStub this = (this, stub)).
Proof.
  unfold ensureActiveStub. destruct (cachedStub this) as [stub|] eqn:Hstub.
  - split; [done|]. by intros stub' [= <-].
  - split; [done|]. by intros stub' Hstub'.
Qed.

(** X1.  The stub is created by the first operation that needs it and kept:
    after invokeRPC, invokeStreamingRPC or openStream, whether it returned
    or threw, the connection holds a stub, and it is the stub the connection
    held before if it held one. *)
Theorem stub_created_once_and_reused (Req Resp : Type)
    (this : GrpcConnection) (rpcName path : string) (request : JsObject)
    (authToken appCheckToken : option Token) :
  let after1 :=
    (invokeRPC (Resp:=Resp) this rpcName path request authToken
               appCheckToken).1 in
  let after2 :=
    (invokeStreamingRPC (Resp:=Resp) this rpcName path request authToken
                        appCheckToken).1 in
  let after3 :=
    (openStream (Req:=Req) (Resp:=Resp) this rpcName authToken
                appCheckToken).1 in
  cachedStub after1 = Some (ensureActiveStub this).2
  ∧ cachedStub after2 = Some (ensureActiveStub this).2
  ∧ cachedStub after3 = Some (ensureActiveStub this).2
  ∧ (∀ stub, cachedStub this = Some stub →
       (ensureActiveStub this).2 = stub).
Proof.
  destruct (ensureActiveStub_caches this) as [Hcached Hreuse].
  cbv zeta.
  destruct (createMetadata (databasePath this) authToken appCheckToken
              (appId (databaseInfo this))) as [md|e] eqn:Hmd.
  - destruct (invokeRPC_returns (Resp:=Resp) this rpcName path request
                authToken appCheckToken md Hmd) as (p & -> & _).
    rewrite (invokeStreamingRPC_returns _ _ _ _ _ _ md),
      (openStream_returns _ _ _ _ md) by done.
    repeat split; try exact Hcached.
    intros stub Hstub. by rewrite (Hreuse stub Hstub).
  - rewrite (invokeRPC_throws _ _ _ _ _ _ e),
      (invokeStreamingRPC_throws _ _ _ _ _ _ e),
      (openStream_throws _ _ _ _ e) by done.
    repeat split; try exact Hcached.
    intros stub Hstub. by rewrite (Hreuse stub Hstub).
Qed.

End ConnectionProperties.

(** The properties above, evaluated on the example platform. *)
#[local] Existing Instance examplePlatform.

(** On the example platform the metadata accepts the fixed headers of the
    example database, so a call without tokens gets its metadata. *)
Lemma example_createMetadata :
  let this := newGrpcConnection exampleInfo in
  createMetadata (databasePath this) None None (appId (databaseInfo this))
  = Returned (metadataOf this None None).
Proof. vm_compute; reflexivity. Qed.

Lemma non_oauth_token_fails_before_any_request_witness :
  type (mkToken "FirstParty" [("X-Goog-Iam-Authorization-Token", "t")])
    ≠ "OAuth"
  ∧ ∃ this',
      invokeRPC (H:=examplePlatform) (Resp:=unit)
        (newGrpcConnection exampleInfo) "Commit" "" ∅
        (Some (mkToken "FirstParty"
                 [("X-Goog-Iam-Authorization-Token", "t")])) None
      = (this',
         Thrown (InternalAssertionFailed "If provided, token must be OAuth"))
      ∧ issued this' = issued (newGrpcConnection exampleInfo).
Proof.
  split; [discriminate|].
  apply (non_oauth_token_fails_before_any_request (H:=examplePlatform)
           unit unit (newGrpcConnection exampleInfo) "Commit" "" ∅
           (mkToken "FirstParty" [("X-Goog-Iam-Authorization-Token", "t")])
           None).
  discriminate.
Defined.

(** C10, the claim as stated fails: a request whose 'database' field already
    is the connection's database path goes out the same from invokeRPC and
    from invokeStreamingRPC. *)
Lemma same_wire_request_when_database_is_the_path :
  let this := newGrpcConnection exampleInfo in
  let request : JsObject :=
    {[ "database" := JStr "projects/demo/databases/(default)" ]} in
  ∃ this1 this2 (p1 : UnaryPromise unit) (p2 : StreamingPromise unit)
    (wire : JsObject) md,
    is_Some (request !! "database")
    ∧ invokeRPC (H:=examplePlatform) this "Commit" "" request None None
      = (this1, Returned p1)
    ∧ issued this1 = [UnaryCall "Commit" wire md]
    ∧ invokeStreamingRPC (H:=examplePlatform) this "Commit" "" request
                         None None
      = (this2, Returned p2)
    ∧ issued this2 = [ServerStreamingCall "Commit" wire md].
Proof.
  intros this request.
  destruct (invokeRPC_returns (H:=examplePlatform) (Resp:=unit) this
              "Commit" "" request None None _ example_createMetadata)
    as (p1 & Hunary & _).
  pose proof (invokeStreamingRPC_returns (H:=examplePlatform) (Resp:=unit)
                this "Commit" "" request None None _
                example_createMetadata) as Hstreaming.
  assert (request ∪ {[ "database" := JStr (databasePath this) ]}
          = <[ "database" := JStr (databasePath this) ]> request) as Hsame
    by (by apply (wire_requests_equal_iff request _
                    (JStr "projects/demo/databases/(default)"))).
  rewrite Hsame in Hunary.
  exists (issue (ensureActiveStub this).1
            (UnaryCall "Commit"
               (<[ "database" := JStr (databasePath this) ]> request)
               (metadataOf this None None))).
  do 3 eexists.
  exists (<[ "database" := JStr (databasePath this) ]> request),
         (metadataOf this None None).
  split; [by eexists|].
  split; [exact Hunary|]. split; [by rewrite issued_issue|].
  split; [exact Hstreaming|]. by rewrite issued_issue.
Qed.

Lemma database_field_precedence_differs_witness :
  let this := newGrpcConnection exampleInfo in
  let request : JsObject :=
    {[ "database" := JStr "projects/other/databases/x" ]} in
  let md := metadataOf this None None in
  createMetadata (databasePath this) None None (appId (databaseInfo this))
  = Returned md
  ∧ request !! "database" = Some (JStr "projects/other/databases/x")
  ∧ ∃ this1 this2 (p1 : UnaryPromise unit) (p2 : StreamingPromise unit)
      (unaryRequest streamingRequest : JsObject),
      invokeRPC (H:=examplePlatform) this "Commit" "" request None None
      = (this1, Returned p1)
      ∧ issued this1 = issued this ++ [UnaryCall "Commit" unaryRequest md]
      ∧ invokeStreamingRPC (H:=examplePlatform) this "Commit" "" request
                           None None
        = (this2, Returned p2)
      ∧ issued this2
        = issued this ++ [ServerStreamingCall "Commit" streamingRequest md]
      ∧ unaryRequest !! "database" = Some (JStr "projects/other/databases/x")
      ∧ streamingRequest !! "database" = Some (JStr (databasePath this))
      ∧ (∀ field, field ≠ "database" →
           unaryRequest !! field = streamingRequest !! field)
      ∧ (unaryRequest = streamingRequest
         ↔ JStr "projects/other/databases/x" = JStr (databasePath this)).
Proof.
  intros this request md.
  split; [exact example_createMetadata|]. split; [reflexivity|].
  apply (database_field_precedence_differs (H:=examplePlatform) unit this
           "Commit" "" request None None
           (JStr "projects/other/databases/x") md);
    [exact example_createMetadata|reflexivity].
Defined.

(** C6, the claim as stated fails: an auth header named like a header that
    createMetadata sets afterwards is replaced, so the metadata of the call
    does not carry it. *)
Lemma auth_header_replaced_by_later_header :
  let this := newGrpcConnection exampleInfo in
  let authToken :=
    Some (mkToken "OAuth"
            [("Authorization", "Bearer abc");
             ("x-goog-request-params", "projects/other/databases/x")]) in
  ∃ this' (p : UnaryPromise unit) jsonRequest md,
    invokeRPC (H:=examplePlatform) this "Commit" "" ∅ authToken None
    = (this', Returned p)
    ∧ issued this' = [UnaryCall "Commit" jsonRequest md]
    ∧ ("x-goog-request-params", "projects/other/databases/x")
        ∈ tokenHeaders authToken
    ∧ Metadata.get "x-goog-request-params" md
      = Some "projects/demo/databases/(default)"
    ∧ Metadata.get "x-goog-request-params" md
      ≠ Some "projects/other/databases/x".
Proof.
  intros this authToken.
  assert (createMetadata (databasePath this) authToken None
            (appId (databaseInfo this))
          = Returned (metadataOf this authToken None)) as Hmd
    by (vm_compute; reflexivity).
  destruct (invokeRPC_returns (H:=examplePlatform) (Resp:=unit) this
              "Commit" "" ∅ authToken None _ Hmd) as (p & Heq & _).
  pose proof (metadata_request_params (H:=examplePlatform) this authToken
                None) as Hparams.
  do 4 eexists.
  split; [exact Heq|]. split; [by rewrite issued_issue|].
  split; [set_solver|].
  rewrite Hparams. split; [reflexivity|discriminate].
Qed.

Lemma invokeRPC_metadata_and_error_mapping_witness :
  let this := newGrpcConnection exampleInfo in
  let authToken := Some (mkToken "OAuth" [("Authorization", "Bearer abc")]) in
  let appCheckToken :=
    Some (mkToken "AppCheck" [("x-firebase-appcheck", "tok")]) in
  let md := metadataOf this authToken appCheckToken in
  createMetadata (databasePath this) authToken appCheckToken
                 (appId (databaseInfo this)) = Returned md
  ∧ ∃ this' (p : UnaryPromise nat) jsonRequest,
      invokeRPC (H:=examplePlatform) this "Commit" "" ∅ authToken
                appCheckToken
      = (this', Returned p)
      ∧ issued this' = [UnaryCall "Commit" jsonRequest md]
      ∧ Metadata.get "Authorization" md = Some "Bearer abc"
      ∧ Metadata.get "x-firebase-appcheck" md = Some "tok"
      ∧ Metadata.get "X-Goog-Api-Client" md
        = Some "gl-node/18.12.0 fire/9.6.1 grpc/__GRPC_VERSION__"
      ∧ Metadata.get "x-goog-request-params" md
        = Some "projects/demo/databases/(default)"
      ∧ p (Some (mkServiceError 10 "contention")) 0
        = Rejected (mkFirestoreError "aborted" "contention")
      ∧ p None 7 = Resolved 7.
Proof.
  intros this authToken appCheckToken md.
  assert (createMetadata (databasePath this) authToken appCheckToken
            (appId (databaseInfo this)) = Returned md) as Hmd
    by (vm_compute; reflexivity).
  split; [exact Hmd|].
  destruct (invokeRPC_metadata_and_error_mapping (H:=examplePlatform) nat
              this "Commit" "" ∅ authToken appCheckToken md Hmd)
    as (this' & p & jsonRequest & Heq & Hissued & Hclient & _ & Hparams
        & HappCheck & Hauth & Herr & Hval).
  exists this', p, jsonRequest.
  split; [exact Heq|]. split; [exact Hissued|].
  split; [apply (Hauth [] _ _ []); [reflexivity|distinct_names]|].
  split; [apply (HappCheck [] _ _ []); [reflexivity|distinct_names]|].
  split; [exact Hclient|]. split; [exact Hparams|].
  split; [apply Herr|apply Hval].
Defined.

Lemma invokeStreamingRPC_collects_all_or_rejects_witness :
  let this := newGrpcConnection exampleInfo in
  createMetadata (databasePath this) None None (appId (databaseInfo this))
  = Returned (metadataOf this None None)
  ∧ ∃ this' (p : StreamingPromise nat),
      invokeStreamingRPC (H:=examplePlatform) this "RunQuery" "" ∅ None None
      = (this', Returned p)
      ∧ p [Data 1; Data 2] = Pending
      ∧ p [Data 1; Data 2; End_] = Resolved [1; 2]
      ∧ p [Data 1; Error (mkServiceError 14 "down"); Data 2; End_]
        = Rejected (mkFirestoreError "unavailable" "down").
Proof.
  intros this. split; [exact example_createMetadata|].
  destruct (invokeStreamingRPC_collects_all_or_rejects (H:=examplePlatform)
              nat this "RunQuery" "" ∅ None None _ example_createMetadata)
    as (this' & p & Heq & Hpending & Hresolved & Hrejected).
  exists this', p.
  split; [exact Heq|].
  split; [exact (Hpending [1; 2])|].
  split; [exact (Hresolved [1; 2] [] (List.Forall_nil _))|].
  exact (Hrejected [1] (mkServiceError 14 "down") [Data 2; End_]).
Defined.

(* ===================================================================== *)
(** * Properties of a stream opened with openStream                      *)
(* ===================================================================== *)

Section StreamProperties.

Context `{Platform} {Req Resp : Type} (writeThrows : Req → option JsError).

Implicit Types (st : @StreamState Req Resp) (ev : @Event Req Resp).
Implicit Types (evs : list (@Event Req Resp)).

Lemma run_cons st ev evs :
  run writeThrows st (ev :: evs)
  = run writeThrows (handle writeThrows st ev).1 evs.
Proof. reflexivity. Qed.

Lemma run_snoc st evs ev :
  run writeThrows st (evs ++ [ev])
  = (handle writeThrows (run writeThrows st evs) ev).1.
Proof. unfold run. by rewrite foldl_app. Qed.

Lemma run_app st evs1 evs2 :
  run writeThrows st (evs1 ++ evs2)
  = run writeThrows (run writeThrows st evs1) evs2.
Proof. unfold run. by rewrite foldl_app. Qed.

(** Whatever is true of a state and kept by every handler is true after any
    sequence of events. *)
Lemma run_invariant (P : @StreamState Req Resp → Prop) :
  (∀ st ev, P st → P (handle writeThrows st ev).1) →
  ∀ evs st, P st → P (run writeThrows st evs).
Proof.
  intros Hstep evs. induction evs as [|ev evs IH]; intros st Hst; [done|].
  cbn. apply IH. by apply Hstep.
Qed.

Lemma handle_Step st ev : Step st ev (handle writeThrows st ev).1.
Proof.
  destruct ev as [msg| |msg| |grpcError|]; cbn;
    unfold sendFn, closeFn, close.
  - destruct (closed st) eqn:Hclosed; cbn; [apply StepNothing|].
    destruct (writeThrows msg); by eapply StepWrite.
  - destruct (closed st) eqn:Hclosed; cbn; [apply StepNothing|].
    by apply (StepClose st Close).
  - destruct (closed st) eqn:Hclosed; cbn; [apply StepNothing|].
    by eapply StepMessage.
  - destruct (closed st) eqn:Hclosed; cbn; [apply StepNothing|].
    by apply (StepClose st OnEnd).
  - destruct (closed st) eqn:Hclosed; cbn; [apply StepNothing|].
    by apply (StepClose st (OnError grpcError)).
  - destruct (openTimerPending st) eqn:Htimer; [|apply StepNothing].
    by apply StepOpen.
Qed.

(** A handler on a closed stream changes nothing, except that the timer may
    still deliver 'open'. *)
Lemma handle_closed st ev :
  closed st = true →
  (handle writeThrows st ev).1 = st
  ∨ (ev = Timeout ∧ openTimerPending st = true
     ∧ (handle writeThrows st ev).1
       = mkStream true false (effects st ++ [CallOnOpen])).
Proof.
  intros Hclosed.
  destruct ev as [msg| |msg| |grpcError|]; cbn;
    unfold sendFn, closeFn, close; rewrite ?Hclosed; cbn; auto.
  destruct (openTimerPending st); [right|left]; by destruct st; simplify_eq/=.
Qed.

Lemma closed_stays st ev :
  closed st = true → closed (handle writeThrows st ev).1 = true.
Proof.
  intros Hclosed. destruct (handle_closed st ev Hclosed) as [->|(_ & _ & ->)];
    done.
Qed.

Lemma closed_stays_run st evs :
  closed st = true → closed (run writeThrows st evs) = true.
Proof.
  apply (run_invariant (λ s, closed s = true)). intros s ev.
  apply closed_stays.
Qed.

Lemma trigger_closes st ev :
  isCloseTrigger ev = true → closed (handle writeThrows st ev).1 = true.
Proof.
  intros Htrigger. destruct ev; try discriminate; cbn;
    unfold closeFn, close; by destruct (closed st) eqn:Hclosed.
Qed.

Lemma closed_after_trigger st evs :
  (∃ ev, ev ∈ evs ∧ isCloseTrigger ev = true) →
  closed (run writeThrows st evs) = true.
Proof.
  intros (ev & Hin & Htrigger).
  apply list_elem_of_split in Hin as (evs1 & evs2 & ->).
  rewrite run_app. cbn. apply closed_stays_run. by apply trigger_closes.
Qed.

Lemma trigger_on_closed st ev :
  closed st = true → isCloseTrigger ev = true →
  (handle writeThrows st ev).1 = st.
Proof.
  intros Hclosed Htrigger.
  destruct (handle_closed st ev Hclosed) as [->|(-> & _)]; done.
Qed.

Lemma sendFn_closed st msg :
  closed st = true → sendFn writeThrows msg st = (st, Returned tt).
Proof. intros Hclosed. unfold sendFn. by rewrite Hclosed. Qed.

(** C3.  On a stream that is not closed yet, a sequence of close invocations
    (the owner's close call, a transport error, the natural end of the
    stream, in any number and order) does what its first invocation does and
    no more: the owner's close callback is called once, with the error of
    the first invocation (none for the owner's call and for the natural
    end), then the transport is ended; the later invocations leave the
    stream as it is. *)
Theorem close_only_first_invocation_has_effect st ev evs :
  closed st = false →
  isCloseTrigger ev = true →
  Forall (λ ev', isCloseTrigger ev' = true) evs →
  run writeThrows st (ev :: evs)
  = mkStream true (openTimerPending st)
      (effects st ++ [CallOnClose (terminalError ev); GrpcEnd])
  ∧ ∀ ev', isCloseTrigger ev' = true →
      (handle writeThrows (run writeThrows st (ev :: evs)) ev').1
      = run writeThrows st (ev :: evs).
Proof.
  intros Hopen Htrigger Hrest.
  assert ((handle writeThrows st ev).1
          = mkStream true (openTimerPending st)
              (effects st ++ [CallOnClose (terminalError ev); GrpcEnd]))
    as Hfirst.
  { destruct ev; try discriminate; cbn; unfold closeFn, close;
      by rewrite Hopen. }
  assert (run writeThrows st (ev :: evs) = (handle writeThrows st ev).1)
    as Hrun.
  { cbn. generalize (trigger_closes st ev Htrigger).
    generalize ((handle writeThrows st ev).1). intros s Hs.
    induction Hrest as [|ev' evs' Hev' _ IH]; [done|].
    cbn. by rewrite trigger_on_closed. }
  split.
  - by rewrite Hrun.
  - intros ev' Hev'. apply trigger_on_closed; [|done].
    rewrite Hrun. by apply trigger_closes.
Qed.

(** C7.  Once any close invocation has happened on a stream, send(message)
    returns without throwing, writes nothing to the transport and leaves
    the stream as it was. *)
Theorem send_after_close_is_noop st evs msg :
  (∃ ev, ev ∈ evs ∧ isCloseTrigger ev = true) →
  closed (run writeThrows st evs) = true
  ∧ sendFn writeThrows msg (run writeThrows st evs)
    = (run writeThrows st evs, Returned tt)
  ∧ run writeThrows st (evs ++ [Send msg]) = run writeThrows st evs.
Proof.
  intros Htrigger.
  pose proof (closed_after_trigger st evs Htrigger) as Hclosed.
  split; [done|]. split.
  - by apply sendFn_closed.
  - rewrite run_snoc. cbn. by rewrite sendFn_closed.
Qed.

(** Splits a lookup in [old ++ new] into the lookup in [old] and the lookups
    in the (short, literal) list [new]. *)
Ltac split_lookup H :=
  let Hlen := fresh "Hlen" in
  apply lookup_app_Some in H as [H|[Hlen H]];
  [|repeat (match type of H with
            | (_ :: _) !! ?n = Some _ =>
                let n' := fresh "n" in
                let Hn := fresh "Hn" in
                destruct n as [|n'] eqn:Hn; cbn in H
            | [] !! _ = Some _ => discriminate H
            end)].

Lemma closeIsFinal_step st ev :
  closeIsFinal st → closeIsFinal (handle writeThrows st ev).1.
Proof.
  intros Hst. destruct (handle_Step st ev) as [|msg Hopen _|msg Hopen _|Hopen _|_ _];
    [done|..]; intros i e Hi; cbn in *.
  - split_lookup Hi; [|discriminate].
    apply Hst in Hi as [Hclosed _]. congruence.
  - split_lookup Hi; [|discriminate].
    apply Hst in Hi as [Hclosed _]. congruence.
  - split; [done|]. intros j x Hij Hj.
    split_lookup Hi.
    { apply Hst in Hi as [Hclosed _]. congruence. }
    + split_lookup Hj; [apply lookup_lt_Some in Hj; lia|lia|..].
      * left. congruence.
    + discriminate.
  - split_lookup Hi; [|discriminate].
    destruct (Hst i e Hi) as [Hclosed Hafter]. split; [done|].
    intros j x Hij Hj. split_lookup Hj; [by eapply Hafter|].
    right. congruence.
Qed.

Lemma closedIsNotified_step st ev :
  closedIsNotified st → closedIsNotified (handle writeThrows st ev).1.
Proof.
  intros Hst. destruct (handle_Step st ev) as [|msg Hopen _|msg Hopen _|Hopen _|_ _];
    [done|..]; intros Hclosed; cbn in *; try congruence.
  - exists (List.length (effects st)), (terminalError ev).
    rewrite lookup_app_r by lia. by rewrite Nat.sub_diag.
  - destruct (Hst Hclosed) as (i & e & Hi). exists i, e.
    by apply lookup_app_l_Some.
Qed.

Lemma openOnce_step st ev :
  openOnce st → openOnce (handle writeThrows st ev).1.
Proof.
  intros (Hpending & Hfired & Honce).
  destruct (handle_Step st ev) as [|msg _ _|msg _ _|_ _|Htimer _];
    [done|..]; cbn in *.
  - split; [|split].
    + intros Ht i Hi. split_lookup Hi; [by eapply Hpending|discriminate].
    + intros Ht. destruct (Hfired Ht) as [i Hi]. exists i.
      by apply lookup_app_l_Some.
    + intros i j Hi Hj. split_lookup Hi; [|discriminate].
      split_lookup Hj; [by eapply Honce|discriminate].
  - split; [|split].
    + intros Ht i Hi. split_lookup Hi; [by eapply Hpending|discriminate].
    + intros Ht. destruct (Hfired Ht) as [i Hi]. exists i.
      by apply lookup_app_l_Some.
    + intros i j Hi Hj. split_lookup Hi; [|discriminate].
      split_lookup Hj; [by eapply Honce|discriminate].
  - split; [|split].
    + intros Ht i Hi. split_lookup Hi; [by eapply Hpending|discriminate..].
    + intros Ht. destruct (Hfired Ht) as [i Hi]. exists i.
      by apply lookup_app_l_Some.
    + intros i j Hi Hj. split_lookup Hi; [|discriminate..].
      split_lookup Hj; [by eapply Honce|discriminate..].
  - split; [done|split].
    + intros _. exists (List.length (effects st)). cbn.
      rewrite lookup_app_r by lia. by rewrite Nat.sub_diag.
    + intros i j Hi Hj.
      split_lookup Hi; [by apply Hpending in Hi|].
      split_lookup Hj; [by apply Hpending in Hj|]. lia.
Qed.

Lemma run_effects_grow st evs :
  ∃ more, effects (run writeThrows st evs) = effects st ++ more.
Proof.
  revert st. induction evs as [|ev evs IH]; intros st.
  - exists []. by rewrite app_nil_r.
  - rewrite run_cons. destruct (IH (handle writeThrows st ev).1) as [more ->].
    destruct (handle_Step st ev); cbn; rewrite <-?app_assoc; eauto.
Qed.

(** The owner's close callback is called only by a close invocation. *)
Lemma close_needs_trigger st evs :
  (∃ i e, effects (run writeThrows st evs) !! i = Some (CallOnClose e)) →
  (∃ i e, effects st !! i = Some (CallOnClose e))
  ∨ (∃ ev, ev ∈ evs ∧ isCloseTrigger ev = true).
Proof.
  revert st. induction evs as [|ev evs IH]; intros st Hclose; [by left|].
  rewrite run_cons in Hclose. destruct (IH _ Hclose) as [(i & e & Hi)|(ev' & Hin & Hev')].
  - destruct (handle_Step st ev) as [|msg _ _|msg _ _|_ Htrigger|_ _];
      cbn in Hi.
    + left. eauto.
    + split_lookup Hi; [left; eauto|discriminate].
    + split_lookup Hi; [left; eauto|discriminate].
    + right. exists ev. split; [apply list_elem_of_here|done].
    + split_lookup Hi; [left; eauto|discriminate].
  - right. exists ev'. split; [by apply list_elem_of_further|done].
Qed.

(** The owner's message callback is called only for a 'data' event. *)
Lemma message_needs_data st evs :
  Forall (λ ev, isOnData ev = false) evs →
  (∀ j m, effects st !! j ≠ Some (CallOnMessage m)) →
  ∀ j m, effects (run writeThrows st evs) !! j ≠ Some (CallOnMessage m).
Proof.
  intros Hevs. revert st.
  induction Hevs as [|ev evs Hev _ IH]; intros st Hst; [done|].
  rewrite run_cons. apply IH. intros j m Hj.
  destruct (handle_Step st ev) as [|msg _ _|msg _ Hdata|_ _|_ _]; cbn in Hj.
  - by eapply Hst.
  - split_lookup Hj; [by eapply Hst|discriminate].
  - by rewrite Hdata in Hev.
  - split_lookup Hj; [by eapply Hst|discriminate..].
  - split_lookup Hj; [by eapply Hst|discriminate].
Qed.

Lemma openStream_initial (this this' : GrpcConnection) (rpcName : string)
    (authToken appCheckToken : option Token) st :
  openStream this rpcName authToken appCheckToken = (this', Returned st) →
  st = mkStream false true [].
Proof.
  destruct (createMetadata (databasePath this) authToken appCheckToken
              (appId (databaseInfo this))) as [md|e] eqn:Hmd.
  - rewrite (openStream_returns _ _ _ _ md) by done. congruence.
  - rewrite (openStream_throws _ _ _ _ e) by done. congruence.
Qed.

(** C4 (as amended).  In the history of a stream returned by openStream,
    after any sequence of events: the owner's close callback is called at
    most once, and it is called exactly when a close invocation has
    happened; no message callback comes after the close callback; the open
    callback is called at most once, by the timer; and when the timer fires
    before the transport delivers its first message, every message callback
    comes after the open callback.  (Messages are not held back for 'open':
    a message that the transport delivers before the timer fires reaches the
    owner before 'open'.) *)
Theorem stream_callbacks_in_order (this this' : GrpcConnection)
    (rpcName : string) (authToken appCheckToken : option Token) st0 evs :
  openStream this rpcName authToken appCheckToken = (this', Returned st0) →
  let history := effects (run writeThrows st0 evs) in
  (∀ i j e e', history !! i = Some (CallOnClose e) →
               history !! j = Some (CallOnClose e') → i = j)
  ∧ ((∃ ev, ev ∈ evs ∧ isCloseTrigger ev = true)
     ↔ ∃ i e, history !! i = Some (CallOnClose e))
  ∧ (∀ i j e m, history !! i = Some (CallOnClose e) →
                history !! j = Some (CallOnMessage m) → j < i)
  ∧ (∀ i j, history !! i = Some CallOnOpen →
            history !! j = Some CallOnOpen → i = j)
  ∧ (∀ before after,
       evs = before ++ Timeout :: after →
       Forall (λ ev, isOnData ev = false) before →
       ∀ j m, history !! j = Some (CallOnMessage m) →
         ∃ i, i < j ∧ history !! i = Some CallOnOpen).
Proof.
  intros Hopen history. apply openStream_initial in Hopen as ->.
  set (st0 := mkStream false true []) in *.
  assert (closeIsFinal (run writeThrows st0 evs)) as Hfinal.
  { apply (run_invariant closeIsFinal); [apply closeIsFinal_step|].
    by intros i e Hi. }
  assert (closedIsNotified (run writeThrows st0 evs)) as Hnotified.
  { by apply (run_invariant closedIsNotified);
      [apply closedIsNotified_step|]. }
  assert (∀ evs', openOnce (run writeThrows st0 evs')) as Honce.
  { intros evs'. apply (run_invariant openOnce); [apply openOnce_step|].
    split; [|split]; [by intros _ i Hi|done|by intros i j Hi]. }
  split; [|split; [|split; [|split]]].
  - intros i j e e' Hi Hj.
    destruct (Nat.lt_trichotomy i j) as [Hlt|[Heq|Hlt]]; [|done|].
    + destruct (Hfinal i e Hi) as [_ Hafter].
      by destruct (Hafter j _ Hlt Hj).
    + destruct (Hfinal j e' Hj) as [_ Hafter].
      by destruct (Hafter i _ Hlt Hi).
  - split.
    + intros Htrigger. apply Hnotified. by apply closed_after_trigger.
    + intros Hclose.
      destruct (close_needs_trigger st0 evs Hclose) as [(i & e & Hi)|Hev];
        [done|done].
  - intros i j e m Hi Hj.
    destruct (Nat.lt_trichotomy i j) as [Hlt|[Heq|Hlt]]; [| |done].
    + destruct (Hfinal i e Hi) as [_ Hafter].
      by destruct (Hafter j _ Hlt Hj).
    + subst j. congruence.
  - intros i j. apply (Honce evs).
  - intros before after -> Hbefore j m Hj. subst history.
    clear Hfinal Hnotified.
    replace (before ++ Timeout :: after)
      with ((before ++ [Timeout]) ++ after) in Hj |- *
      by by rewrite <-app_assoc.
    rewrite run_app in Hj |- *.
    destruct (Honce (before ++ [Timeout])) as (_ & Hfired & _).
    assert (openTimerPending (run writeThrows st0 (before ++ [Timeout]))
            = false) as Htimer.
    { rewrite run_snoc. cbn.
      by destruct (openTimerPending (run writeThrows st0 before)) eqn:Ht. }
    destruct (Hfired Htimer) as [i Hi]. exists i.
    assert (∀ j m, effects (run writeThrows st0 (before ++ [Timeout])) !! j
                   ≠ Some (CallOnMessage m)) as Hnone.
    { apply message_needs_data; [|by intros j' m' Hj'].
      apply Forall_app. split; [done|]. by apply Forall_singleton. }
    destruct (run_effects_grow
                (run writeThrows st0 (before ++ [Timeout])) after)
      as [more Hmore].
    rewrite Hmore in Hj |- *.
    split; [|by apply lookup_app_l_Some].
    apply lookup_lt_Some in Hi.
    apply lookup_app_Some in Hj as [Hj|[Hlen _]]; [by apply Hnone in Hj|lia].
Qed.

Lemma timer_stays_fired st ev :
  openTimerPending st = false →
  openTimerPending (handle writeThrows st ev).1 = false.
Proof.
  intros Hfired. destruct (handle_Step st ev); cbn; congruence.
Qed.

Lemma timer_fired st evs :
  Timeout ∈ evs → openTimerPending (run writeThrows st evs) = false.
Proof.
  intros (evs1 & evs2 & ->)%list_elem_of_split.
  rewrite run_app, run_cons.
  apply (run_invariant (λ s, openTimerPending s = false));
    [apply timer_stays_fired|].
  cbn. by destruct (openTimerPending (run writeThrows st evs1)) eqn:Ht.
Qed.

(** X2.  Once the timer of openStream has fired, the open callback has been
    called exactly once, whatever else has happened to the stream: also when
    the stream was closed before the timer fired. *)
Theorem open_delivered_exactly_once (this this' : GrpcConnection)
    (rpcName : string) (authToken appCheckToken : option Token) st0 evs :
  openStream this rpcName authToken appCheckToken = (this', Returned st0) →
  Timeout ∈ evs →
  ∃ i, effects (run writeThrows st0 evs) !! i = Some CallOnOpen
       ∧ ∀ j, effects (run writeThrows st0 evs) !! j = Some CallOnOpen →
           j = i.
Proof.
  intros Hopen Htimeout. apply openStream_initial in Hopen as ->.
  assert (openOnce (run writeThrows (mkStream false true []) evs))
    as (_ & Hfired & Honce).
  { apply (run_invariant openOnce); [apply openOnce_step|].
    split; [|split]; [by intros _ i Hi|done|by intros i j Hi]. }
  destruct (Hfired (timer_fired _ evs Htimeout)) as [i Hi].
  exists i. split; [done|]. intros j Hj. by apply Honce.
Qed.

End StreamProperties.

(** The stream properties, evaluated on a stream of numbers. *)

Lemma close_only_first_invocation_has_effect_witness :
  let st0 : @StreamState nat nat := mkStream false true [GrpcWrite 1] in
  let down : @Event nat nat := OnError (mkServiceError 14 "down") in
  let later : list (@Event nat nat) :=
    [Close; OnEnd; OnError (mkServiceError 10 "late")] in
  closed st0 = false
  ∧ isCloseTrigger down = true
  ∧ Forall (λ ev', isCloseTrigger ev' = true) later
  ∧ run (λ _, None) st0 (down :: later)
    = mkStream true true
        [GrpcWrite 1;
         CallOnClose (Some (mkFirestoreError "unavailable" "down"));
         GrpcEnd].
Proof.
  intros st0 down later.
  assert (Forall (λ ev', isCloseTrigger ev' = true) later) as Hlater
    by (repeat constructor).
  split; [reflexivity|]. split; [reflexivity|]. split; [exact Hlater|].
  exact (proj1 (close_only_first_invocation_has_effect (H:=examplePlatform)
                  (λ _, None) st0 down later eq_refl eq_refl Hlater)).
Defined.

Lemma send_after_close_is_noop_witness :
  let st0 : @StreamState nat nat := mkStream false true [] in
  let evs : list (@Event nat nat) := [Send 1; OnEnd] in
  (∃ ev, ev ∈ evs ∧ isCloseTrigger ev = true)
  ∧ sendFn (λ _, None) 2 (run (λ _, None) st0 evs)
    = (mkStream true true [GrpcWrite 1; CallOnClose None; GrpcEnd],
       Returned tt).
Proof.
  intros st0 evs.
  assert (∃ ev, ev ∈ evs ∧ isCloseTrigger ev = true) as Htrigger.
  { exists OnEnd. split; [|reflexivity].
    apply list_elem_of_further, list_elem_of_here. }
  split; [exact Htrigger|].
  exact (proj1 (proj2 (send_after_close_is_noop (H:=examplePlatform)
                         (λ _, None) st0 evs 2 Htrigger))).
Defined.

(** C4, the claim as stated fails: a message the transport delivers before
    the timer of openStream has fired reaches the owner before 'open'. *)
Lemma message_delivered_before_open :
  ∃ this' (st0 : @StreamState nat nat),
    openStream (H:=examplePlatform) (newGrpcConnection exampleInfo) "Listen"
               None None
    = (this', Returned st0)
    ∧ effects (run (H:=examplePlatform) (λ _, None) st0 [OnData 7; Timeout])
      = [CallOnMessage 7; CallOnOpen].
Proof.
  do 2 eexists. split.
  - apply openStream_returns. exact example_createMetadata.
  - reflexivity.
Qed.

Lemma stream_callbacks_in_order_witness :
  let this := newGrpcConnection exampleInfo in
  let this' :=
    issue (ensureActiveStub this).1
          (DuplexCall "Listen" (metadataOf this None None)) in
  let st0 : @StreamState nat nat := mkStream false true [] in
  let history :=
    effects (run (λ _, None) st0 [Timeout; OnData 7; Close; OnData 8]) in
  openStream this "Listen" None None = (this', Returned st0)
  ∧ (∀ i j e m, history !! i = Some (CallOnClose e) →
                history !! j = Some (CallOnMessage m) → j < i)
  ∧ (∀ j m, history !! j = Some (CallOnMessage m) →
       ∃ i, i < j ∧ history !! i = Some CallOnOpen).
Proof.
  intros this this' st0 history.
  assert (openStream this "Listen" None None = (this', Returned st0))
    as Hopen
    by (apply openStream_returns; exact example_createMetadata).
  split; [exact Hopen|].
  destruct (stream_callbacks_in_order (H:=examplePlatform) (λ _, None)
              this this' "Listen" None None st0
              [Timeout; OnData 7; Close; OnData 8] Hopen)
    as (_ & _ & Hmessage & _ & Hopened).
  split; [exact Hmessage|].
  apply (Hopened [] [OnData 7; Close; OnData 8]); [reflexivity|].
  apply List.Forall_nil.
Defined.

Lemma open_delivered_exactly_once_witness :
  let this := newGrpcConnection exampleInfo in
  let this' :=
    issue (ensureActiveStub this).1
          (DuplexCall "Listen" (metadataOf this None None)) in
  let st0 : @StreamState nat nat := mkStream false true [] in
  let evs : list (@Event nat nat) := [Close; Timeout] in
  openStream this "Listen" None None = (this', Returned st0)
  ∧ Timeout ∈ evs
  ∧ effects (run (λ _, None) st0 evs) = [CallOnClose None; GrpcEnd; CallOnOpen]
  ∧ ∃ i, effects (run (λ _, None) st0 evs) !! i = Some CallOnOpen
         ∧ ∀ j, effects (run (λ _, None) st0 evs) !! j = Some CallOnOpen →
             j = i.
Proof.
  intros this this' st0 evs.
  assert (openStream this "Listen" None None = (this', Returned st0))
    as Hopen
    by (apply openStream_returns; exact example_createMetadata).
  assert (Timeout ∈ evs) as Htimeout
    by apply list_elem_of_further, list_elem_of_here.
  split; [exact Hopen|]. split; [exact Htimeout|]. split; [reflexivity|].
  exact (open_delivered_exactly_once (H:=examplePlatform) (λ _, None)
           this this' "Listen" None None st0 evs Hopen Htimeout).
Defined.

(* ===================================================================== *)
(** * Properties of the transaction runner                               *)
(* ===================================================================== *)

Module TxFacts.
Import Tx.

Section RunnerFacts.

Context {T : Type}.
Variable updateFunction :
  nat → Transaction → Backend → Backend * (FirestoreError + Transaction * T).

Lemma runWithBackOff_gives_up (k : nat) (b b' : Backend) (reason : string) :
  attempt updateFunction k b = (b', AbortedRetryable reason) →
  runWithBackOff updateFunction 0 k b
  = (b', mkRunResult k (Rejected (aborted reason))).
Proof. intros Hattempt. cbn. by rewrite Hattempt. Qed.

Lemma runWithBackOff_retries (remaining k : nat) (b b' : Backend)
    (reason : string) :
  attempt updateFunction k b = (b', AbortedRetryable reason) →
  runWithBackOff updateFunction (S remaining) k b
  = runWithBackOff updateFunction remaining (S k) b'.
Proof. intros Hattempt. cbn. by rewrite Hattempt. Qed.

(** The attempts made lie between the first attempt number and the budget. *)
Lemma runWithBackOff_attempts (remaining k : nat) (b : Backend) :
  k ≤ attempts (runWithBackOff updateFunction remaining k b).2
  ∧ attempts (runWithBackOff updateFunction remaining k b).2 ≤ k + remaining.
Proof.
  revert k b. induction remaining as [|remaining IH]; intros k b; cbn.
  - destruct (attempt updateFunction k b) as [b' [value|reason|e]]; cbn; lia.
  - destruct (attempt updateFunction k b) as [b' [value|reason|e]]; cbn;
      [lia| |lia].
    destruct (IH (S k) b'). lia.
Qed.

(** A run whose every attempt ends in a conflict uses the whole budget and
    then gives up with the conflict. *)
Lemma runWithBackOff_conflicts (Inv : Backend → Prop) (remaining k : nat)
    (b : Backend) :
  Inv b →
  (∀ j b0, Inv b0 →
     Inv (attempt updateFunction j b0).1
     ∧ (attempt updateFunction j b0).2 = AbortedRetryable conflictReason) →
  Inv (runWithBackOff updateFunction remaining k b).1
  ∧ (runWithBackOff updateFunction remaining k b).2
    = mkRunResult (k + remaining) (Rejected (aborted conflictReason)).
Proof.
  intros Hb Hconflict. revert k b Hb.
  induction remaining as [|remaining IH]; intros k b Hb; cbn;
    destruct (Hconflict k b Hb) as [Hinv Hout];
    destruct (attempt updateFunction k b) as [b' outcome]; cbn in *;
    subst outcome.
  - split; [done|]. by rewrite Nat.add_0_r.
  - destruct (IH (S k) b' Hinv) as [Hinv' ->]. split; [done|].
    f_equal. lia.
Qed.

(** C1.  With a budget of at least one attempt, runTransaction never makes
    more attempts than the budget; and when every attempt ends in a
    read-version conflict it makes exactly that many attempts and then
    rejects, once, with the terminal error of code 'aborted' that carries
    the reason of the conflict. *)
Theorem attempts_bounded_then_aborted (maxAttempts : nat) (b : Backend) :
  1 ≤ maxAttempts →
  (1 ≤ attempts (runTransaction updateFunction maxAttempts b).2
   ∧ attempts (runTransaction updateFunction maxAttempts b).2 ≤ maxAttempts)
  ∧ ∀ Inv : Backend → Prop,
      Inv b →
      (∀ j b0, Inv b0 →
         Inv (attempt updateFunction j b0).1
         ∧ (attempt updateFunction j b0).2
           = AbortedRetryable conflictReason) →
      attempts (runTransaction updateFunction maxAttempts b).2 = maxAttempts
      ∧ settled (runTransaction updateFunction maxAttempts b).2
        = Rejected (mkFirestoreError "aborted" conflictReason).
Proof.
  intros Hmax. unfold runTransaction. split.
  - destruct (runWithBackOff_attempts (maxAttempts - 1) 1 b). lia.
  - intros Inv Hb Hconflict.
    destruct (runWithBackOff_conflicts Inv (maxAttempts - 1) 1 b Hb Hconflict)
      as [_ ->].
    cbn. split; [lia|done].
Qed.

End RunnerFacts.

(* --------------------------------------------------------------------- *)
(** ** The test 'handle reading a doc twice with different versions'      *)
(* --------------------------------------------------------------------- *)

Lemma setDoc_versionsWithinClock (key : string) (fields : JsObject)
    (b : Backend) :
  versionsWithinClock b → versionsWithinClock (setDoc key fields b).
Proof.
  intros Hb key' d. cbn. rewrite lookup_insert.
  case_decide; intros Hd; simplify_eq/=; [lia|].
  apply Hb in Hd. lia.
Qed.

Lemma currentVersion_within_clock (b : Backend) (key : string) :
  versionsWithinClock b → currentVersion b key ≤ clock b.
Proof.
  intros Hb. unfold currentVersion.
  destruct (docs b !! key) as [d|] eqn:Hd; [by eapply Hb|lia].
Qed.

Lemma get_first_read (key : string) (b : Backend) :
  get key newTransaction b
  = (mkTransaction {[key := (currentVersion b key, docs b !! key)]} [],
     docs b !! key).
Proof. unfold get. cbn. by rewrite lookup_empty, insert_empty. Qed.

(** A repeated get is answered with the snapshot of the first. *)
Lemma get_repeated_read (key : string) (txn : Transaction) (b : Backend)
    (v : nat) (snapshot : option Document) :
  reads txn !! key = Some (v, snapshot) → get key txn b = (txn, snapshot).
Proof. intros Hv. unfold get. by rewrite Hv. Qed.

Lemma preconditions_singleton (key : string) (v : nat)
    (snapshot : option Document) (ms : list Mutation) (b : Backend) :
  preconditionsHold (mkTransaction {[key := (v, snapshot)]} ms) b
  = bool_decide (currentVersion b key = v).
Proof.
  unfold preconditionsHold, readVersions. cbn. apply bool_decide_ext.
  by rewrite map_fmap_singleton, map_Forall_singleton.
Qed.

(** A sum is exact as long as it is at most 2^53 in size. *)
Lemma jsAdd_small (x y : Z) :
  (Z.abs (x + y) ≤ 2 ^ 53)%Z → jsAdd x y = (x + y)%Z.
Proof.
  intros Hsmall. unfold jsAdd, roundToDouble. cbv zeta.
  destruct (Z.ltb_spec (Z.abs (x + y)) (2 ^ 53)) as [Hlt|Hge]; [done|].
  assert (x + y = 2 ^ 53 ∨ x + y = - 2 ^ 53)%Z as [-> | ->] by lia;
    reflexivity.
Qed.

Lemma jsAdd_exact (x : Z) :
  (- 2 ^ 53 ≤ x)%Z → (x + 1 ≤ 2 ^ 53)%Z → jsAdd x 1 = (x + 1)%Z.
Proof. intros Hlo Hhi. apply jsAdd_small. lia. Qed.

Lemma currentVersion_setDoc (key : string) (fields : JsObject) (b : Backend) :
  currentVersion (setDoc key fields b) key = S (clock b).
Proof. unfold currentVersion, setDoc. cbn. by rewrite lookup_insert_eq. Qed.

(** Every attempt of the test's transaction ends in a conflict: the write
    outside of the transaction gives the document a version newer than the
    one the transaction recorded at its first read. *)
Lemma readTwice_attempt (counter : nat) (b : Backend) :
  versionsWithinClock b →
  attempt readTwice counter b
  = (setDoc docRef (countField (jsAdd 1234 (Z.of_nat counter))) b,
     AbortedRetryable conflictReason).
Proof.
  intros Hb. pose proof (currentVersion_within_clock b docRef Hb) as Hle.
  unfold attempt, readTwice. rewrite get_first_read. cbv beta iota zeta.
  rewrite (get_repeated_read _ _ _ (currentVersion b docRef)
             (docs b !! docRef))
    by apply lookup_singleton_eq.
  cbv beta iota zeta. unfold commit, set.
  cbn [reads mutations app].
  rewrite preconditions_singleton, currentVersion_setDoc.
  rewrite bool_decide_eq_false_2 by lia. done.
Qed.

Lemma readTwice_conflicts (counter : nat) (b : Backend) :
  versionsWithinClock b →
  versionsWithinClock (attempt readTwice counter b).1
  ∧ (attempt readTwice counter b).2 = AbortedRetryable conflictReason.
Proof.
  intros Hb. rewrite readTwice_attempt by done. cbn [fst snd].
  split; [by apply setDoc_versionsWithinClock|done].
Qed.

(** The test as a whole: as many runs of the user function as the budget
    allows, the error 'aborted', and the counter as the last run wrote it
    outside of the transaction. *)
Lemma readTwice_run (remaining k : nat) (b : Backend) :
  versionsWithinClock b →
  (runWithBackOff readTwice remaining k b).2
  = mkRunResult (k + remaining) (Rejected (aborted conflictReason))
  ∧ countOf (getDoc docRef (runWithBackOff readTwice remaining k b).1)
    = jsAdd 1234 (Z.of_nat (k + remaining)).
Proof.
  revert k b. induction remaining as [|remaining IH]; intros k b Hb.
  - rewrite (runWithBackOff_gives_up _ _ _ _ _ (readTwice_attempt k b Hb)).
    rewrite Nat.add_0_r. split; [done|].
    unfold getDoc, setDoc, countOf, countField. cbn.
    rewrite lookup_insert_eq. cbn. by rewrite lookup_singleton_eq.
  - rewrite (runWithBackOff_retries _ _ _ _ _ _ (readTwice_attempt k b Hb)).
    destruct (IH (S k)
                (setDoc docRef (countField (jsAdd 1234 (Z.of_nat k))) b))
      as [-> ->]; [by apply setDoc_versionsWithinClock|].
    by rewrite Nat.add_succ_comm.
Qed.

Lemma readTwiceTest_outcome (maxAttempts : nat) :
  1 ≤ maxAttempts →
  (1234 + Z.of_nat maxAttempts ≤ 2 ^ 53)%Z →
  attempts (readTwiceTest maxAttempts).2 = maxAttempts
  ∧ settled (readTwiceTest maxAttempts).2
    = Rejected (mkFirestoreError "aborted" conflictReason)
  ∧ countOf (getDoc docRef (readTwiceTest maxAttempts).1)
    = (1234 + Z.of_nat maxAttempts)%Z.
Proof.
  intros Hmax Hsafe. unfold readTwiceTest, runTransaction.
  destruct (readTwice_run (maxAttempts - 1) 1
              (setDoc docRef (countField 15) emptyBackend)) as [-> ->].
  { apply setDoc_versionsWithinClock. by intros key d Hd. }
  cbn [attempts settled].
  replace (1 + (maxAttempts - 1)) with maxAttempts by lia.
  split; [done|]. split; [done|]. apply jsAdd_small. lia.
Qed.

(* --------------------------------------------------------------------- *)
(** ** Concurrent transactions on one counter                             *)
(* --------------------------------------------------------------------- *)

Lemma doneCount_le (rs : list Runner) : doneCount rs ≤ List.length rs.
Proof. induction rs as [|r rs IH]; cbn; [lia|]. destruct (isDone r); lia. Qed.

Lemma doneCount_insert (rs : list Runner) (i : nat) (r r' : Runner) :
  rs !! i = Some r →
  doneCount (<[i := r']> rs) + (if isDone r then 1 else 0)
  = doneCount rs + (if isDone r' then 1 else 0).
Proof.
  revert i. induction rs as [|r0 rs IH]; intros [|i] Hi; simplify_eq/=.
  - destruct (isDone r), (isDone r'); lia.
  - specialize (IH i Hi). lia.
Qed.

Lemma doneCount_lt (rs : list Runner) (i : nat) (r : Runner) :
  rs !! i = Some r → isDone r = false → doneCount rs < List.length rs.
Proof.
  revert i. induction rs as [|r0 rs IH]; intros [|i] Hi Hr; simplify_eq/=.
  - rewrite Hr. pose proof (doneCount_le rs). lia.
  - specialize (IH i Hi Hr). destruct (isDone r0); lia.
Qed.

Lemma doneCount_full (rs : list Runner) :
  (∀ i r, rs !! i = Some r → isDone r = true) →
  doneCount rs = List.length rs.
Proof.
  induction rs as [|r0 rs IH]; intros Hall; cbn; [done|].
  rewrite (Hall 0 r0) by done. rewrite IH; [lia|].
  intros i r Hi. by apply (Hall (S i)).
Qed.

Lemma doneCount_started (n m : nat) :
  doneCount (replicate n (mkRunner 1 m Started)) = 0.
Proof. induction n as [|n IH]; cbn; [done|]. by rewrite IH. Qed.

Lemma currentVersion_ok (start : Z) (C : nat) (b : Backend) :
  backendOk start C b → currentVersion b docRef = S C.
Proof.
  intros (_ & d & Hd & Hv & _). unfold currentVersion. by rewrite Hd.
Qed.

Lemma countOf_ok (start : Z) (C : nat) (b : Backend) :
  backendOk start C b →
  countOf (docs b !! docRef) = (start + Z.of_nat C)%Z.
Proof.
  intros (_ & d & Hd & _ & Hcount). rewrite Hd. unfold countOf.
  by rewrite Hcount.
Qed.

(** Staging the increment never fails: the counter was read. *)
Lemma stage_increment (kind : WriteKind) (snapshot read : option Document)
    (v : nat) :
  ∃ m, stage kind snapshot (mkTransaction {[docRef := (v, read)]} [])
       = inr (mkTransaction {[docRef := (v, read)]} [m])
       ∧ (m = SetMutation docRef (countField (jsAdd (countOf snapshot) 1))
          ∨ m = PatchMutation docRef
                  (countField (jsAdd (countOf snapshot) 1))).
Proof.
  destruct kind; unfold stage, update, set; cbn [reads mutations app].
  - eexists. split; [reflexivity|by left].
  - rewrite lookup_singleton_eq.
    eexists. split; [reflexivity|by right].
Qed.

(** A commit against the version that was read succeeds and writes the
    incremented counter. *)
Lemma commit_fresh (start : Z) (C : nat) (b : Backend) (m : Mutation)
    (read : option Document) :
  backendOk start C b →
  (m = SetMutation docRef (countField (start + Z.of_nat C + 1))
   ∨ m = PatchMutation docRef (countField (start + Z.of_nat C + 1))) →
  ∃ b', commit (mkTransaction {[docRef := (S C, read)]} [m]) b = (b', true)
        ∧ backendOk start (S C) b'.
Proof.
  intros Hb Hm. pose proof (currentVersion_ok _ _ _ Hb) as Hv.
  destruct Hb as (Hclock & d & Hd & _ & _).
  unfold commit. rewrite preconditions_singleton.
  rewrite bool_decide_eq_true_2 by done.
  eexists. split; [reflexivity|]. cbn. rewrite Hclock.
  split; [done|].
  replace (start + Z.of_nat (S C))%Z with (start + Z.of_nat C + 1)%Z by lia.
  destruct Hm as [->| ->]; cbn; eexists;
    (split; [apply lookup_insert_eq|]); cbn; (split; [done|]).
  - unfold countField. apply lookup_singleton_eq.
  - apply lookup_union_Some_l. unfold countField. apply lookup_singleton_eq.
Qed.

(** A commit against an older version is refused and writes nothing. *)
Lemma commit_stale (start : Z) (C v : nat) (b : Backend)
    (ms : list Mutation) (read : option Document) :
  backendOk start C b → v ≠ S C →
  commit (mkTransaction {[docRef := (v, read)]} ms) b = (b, false).
Proof.
  intros Hb Hv. unfold commit. rewrite preconditions_singleton.
  rewrite (currentVersion_ok _ _ _ Hb).
  by rewrite bool_decide_eq_false_2.
Qed.

(** What holds of a runner keeps holding when others commit. *)
Lemma runnerOk_mono (maxAttempts n : nat) (start : Z) (C C' : nat)
    (r : Runner) :
  runnerOk maxAttempts n start C r → C ≤ C' →
  runnerOk maxAttempts n start C' r.
Proof.
  intros (Hsum & Hone & Hphase) Hle. split; [done|split; [done|]].
  destruct (phase r) as [|txn snapshot| |e]; [lia| |lia|done].
  destruct Hphase as (v & Htxn & Hk & Hv & Hfresh).
  exists v. split; [done|]. split; [done|]. split; [lia|].
  intros Hv'. assert (C' = C) as -> by lia. by apply Hfresh.
Qed.

(** One step of one runner: either nothing is committed and all is as
    before, or this runner commits and the counter moves by one. *)
Lemma stepRunner_ok (kind : WriteKind) (maxAttempts n : nat) (start : Z)
    (C : nat) (r : Runner) (b : Backend) :
  (- 2 ^ 53 ≤ start)%Z → (start + Z.of_nat n ≤ 2 ^ 53)%Z →
  backendOk start C b →
  runnerOk maxAttempts n start C r →
  (isDone r = false → C < n) →
  ∃ b' r', stepRunner kind r b = (b', r')
    ∧ ((isDone r' = isDone r
        ∧ backendOk start C b' ∧ runnerOk maxAttempts n start C r')
       ∨ (isDone r = false ∧ isDone r' = true
          ∧ backendOk start (S C) b'
          ∧ runnerOk maxAttempts n start (S C) r')).
Proof.
  intros Hlo Hhi Hb (Hsum & Hone & Hphase) Hroom.
  destruct r as [k remaining ph]. unfold stepRunner, isDone in *.
  cbn [phase attemptNumber attemptsRemaining] in *.
  destruct ph as [|txn snapshot| |e].
  - rewrite get_first_read. rewrite (currentVersion_ok _ _ _ Hb).
    do 2 eexists. split; [reflexivity|]. left.
    split; [done|]. split; [done|].
    split; [done|]. split; [done|]. cbn.
    exists (S C). split; [done|]. split; [done|]. split; [done|].
    intros _. by apply countOf_ok.
  - destruct Hphase as (v & -> & Hk & Hv & Hfresh).
    destruct (stage_increment kind snapshot snapshot v) as (m & -> & Hm).
    specialize (Hroom eq_refl).
    destruct (decide (v = S C)) as [->|Hstale].
    + rewrite Hfresh in Hm by done.
      rewrite jsAdd_exact in Hm by lia.
      destruct (commit_fresh start C b m snapshot Hb Hm) as (b' & -> & Hb').
      do 2 eexists. split; [reflexivity|]. right.
      split; [done|]. split; [done|]. split; [done|].
      split; [done|]. split; [done|]. cbn. lia.
    + rewrite (commit_stale start C v b [m] snapshot Hb Hstale).
      destruct remaining as [|remaining].
      * do 2 eexists. split; [reflexivity|]. left.
        split; [done|]. split; [done|].
        split; [done|]. split; [done|]. cbn. split; [|done]. lia.
      * do 2 eexists. split; [reflexivity|]. left.
        split; [done|]. split; [done|].
        split; [cbn; lia|]. split; [cbn; lia|]. cbn. lia.
  - do 2 eexists. split; [reflexivity|]. left.
    split; [done|]. split; [done|]. by split.
  - do 2 eexists. split; [reflexivity|]. left.
    split; [done|]. split; [done|]. by split.
Qed.

Lemma step_systemOk (kind : WriteKind) (maxAttempts : nat) (start : Z)
    (sys : System) (i : nat) :
  (- 2 ^ 53 ≤ start)%Z →
  (start + Z.of_nat (List.length (runners sys)) ≤ 2 ^ 53)%Z →
  systemOk maxAttempts start sys →
  systemOk maxAttempts start (step kind sys i)
  ∧ List.length (runners (step kind sys i)) = List.length (runners sys).
Proof.
  intros Hlo Hhi [Hb Hrs]. unfold step.
  destruct (runners sys !! i) as [r|] eqn:Hi; [|by split].
  destruct (stepRunner_ok kind maxAttempts (List.length (runners sys)) start
              (doneCount (runners sys)) r (backend sys) Hlo Hhi Hb
              (Hrs i r Hi))
    as (b' & r' & -> & Hcases).
  { intros Hr. by eapply doneCount_lt. }
  pose proof (doneCount_insert (runners sys) i r r' Hi) as Hcount.
  pose proof (lookup_lt_Some _ _ _ Hi) as Hlt.
  cbn. rewrite length_insert. split; [|done].
  assert (∃ C', doneCount (<[i := r']> (runners sys)) = C'
                ∧ doneCount (runners sys) ≤ C'
                ∧ backendOk start C' b'
                ∧ runnerOk maxAttempts (List.length (runners sys)) start C' r')
    as (C' & HC' & Hle & Hb' & Hr').
  { destruct Hcases as [(Hsame & Hb' & Hr')|(Hnot & Hdone & Hb' & Hr')].
    - exists (doneCount (runners sys)). rewrite Hsame in Hcount.
      split; [destruct (isDone r); lia|]. split; [lia|]. by split.
    - exists (S (doneCount (runners sys))). rewrite Hnot, Hdone in Hcount.
      split; [lia|]. split; [lia|]. by split. }
  split; cbn; rewrite HC'; [done|]. rewrite length_insert.
  intros j r0 Hj. destruct (decide (i = j)) as [<-|Hne].
  - rewrite list_lookup_insert_eq in Hj by done. by simplify_eq.
  - rewrite list_lookup_insert_ne in Hj by done.
    eapply runnerOk_mono; [by apply (Hrs j)|done].
Qed.

Lemma turns_snoc (i j : nat) (schedule : list nat) :
  turns i (schedule ++ [j])
  = turns i schedule + (if decide (j = i) then 1 else 0).
Proof.
  unfold turns. rewrite filter_app, length_app. f_equal.
  cbn. unfold filter, list_filter. by case_decide.
Qed.

Lemma step_turnsOk (kind : WriteKind) (schedule : list nat) (sys : System)
    (i : nat) :
  (∀ j r, runners sys !! j = Some r → 1 ≤ attemptNumber r) →
  turnsOk schedule sys → turnsOk (schedule ++ [i]) (step kind sys i).
Proof.
  intros Hone Hturns j r'. unfold step. rewrite turns_snoc.
  destruct (runners sys !! i) as [r|] eqn:Hi.
  - destruct (stepRunner kind r (backend sys)) as [b' r''] eqn:Hstep. cbn.
    pose proof (lookup_lt_Some _ _ _ Hi) as Hlt.
    case_decide as Hij.
    + subst j. rewrite list_lookup_insert_eq by done. intros [= <-].
      specialize (Hturns i r Hi). specialize (Hone i r Hi).
      unfold stepRunner in Hstep.
      destruct r as [k remaining ph]. cbn in *.
      destruct ph as [|txn snapshot| |e].
      * destruct (get docRef newTransaction (backend sys)) as [txn snapshot].
        simplify_eq/=. lia.
      * destruct (stage kind snapshot txn) as [e|txn']; [by simplify_eq/=|].
        destruct (commit txn' (backend sys)) as [b'' [|]];
          [by simplify_eq/=|].
        destruct remaining; simplify_eq/=; [done|lia].
      * by simplify_eq/=.
      * by simplify_eq/=.
    + rewrite list_lookup_insert_ne by done. intros Hj.
      specialize (Hturns j r' Hj). destruct (phase r'); lia || done.
  - intros Hj. case_decide as Hij; [congruence|].
    specialize (Hturns j r' Hj). destruct (phase r'); lia || done.
Qed.

Lemma runSchedule_snoc (kind : WriteKind) (sys : System)
    (schedule : list nat) (i : nat) :
  runSchedule kind sys (schedule ++ [i])
  = step kind (runSchedule kind sys schedule) i.
Proof. unfold runSchedule. by rewrite foldl_app. Qed.

(** What holds after any schedule. *)
Lemma reachable_ok (kind : WriteKind) (maxAttempts n : nat) (start : Z)
    (schedule : list nat) :
  (0 < n → 1 ≤ maxAttempts) →
  (- 2 ^ 53 ≤ start)%Z → (start + Z.of_nat n ≤ 2 ^ 53)%Z →
  systemOk maxAttempts start
    (runSchedule kind (startAll maxAttempts n start) schedule)
  ∧ turnsOk schedule
      (runSchedule kind (startAll maxAttempts n start) schedule)
  ∧ List.length
      (runners (runSchedule kind (startAll maxAttempts n start) schedule))
    = n.
Proof.
  intros Hmax Hlo Hhi.
  induction schedule as [|i schedule IH] using rev_ind.
  - cbn. rewrite length_replicate. split; [|split; [|done]].
    + split; cbn; rewrite doneCount_started.
      * split; [done|]. eexists. split; [apply lookup_insert_eq|].
        split; [done|]. cbn. unfold countField.
        rewrite lookup_singleton_eq. do 2 f_equal. lia.
      * intros i r [-> Hi]%lookup_replicate. rewrite length_replicate.
        split; [cbn; lia|]. split; cbn; lia.
    + intros i r [-> Hi]%lookup_replicate. done.
  - destruct IH as (Hok & Hturns & Hlen). rewrite runSchedule_snoc.
    destruct (step_systemOk kind maxAttempts start
                (runSchedule kind (startAll maxAttempts n start) schedule)
                i Hlo) as [Hok' Hlen']; [by rewrite Hlen|done|].
    split; [done|]. split; [|congruence].
    apply step_turnsOk; [|done].
    intros j r Hj. by destruct Hok as [_ Hrs], (Hrs j r Hj) as (_ & ? & _).
Qed.

(** At any time the counter is its start value plus the number of
    transactions that have committed. *)
Lemma count_is_start_plus_commits (kind : WriteKind) (maxAttempts n : nat)
    (start : Z) (schedule : list nat) :
  (0 < n → 1 ≤ maxAttempts) →
  (- 2 ^ 53 ≤ start)%Z → (start + Z.of_nat n ≤ 2 ^ 53)%Z →
  finalCount (runSchedule kind (startAll maxAttempts n start) schedule)
  = (start
     + Z.of_nat
         (doneCount
            (runners
               (runSchedule kind (startAll maxAttempts n start) schedule))))%Z.
Proof.
  intros Hmax Hlo Hhi.
  destruct (reachable_ok kind maxAttempts n start schedule Hmax Hlo Hhi)
    as ([Hb _] & _ & _).
  unfold finalCount, getDoc. by apply countOf_ok.
Qed.

(** C2 (as amended).  When there are no more transactions than the budget
    of attempts allows (n at most maxAttempts), and the counter stays where
    adding one to a JS number is exact (its start value is at least -2^53
    and its start value plus n at most 2^53), n concurrent transactions that
    each read the counter and then write the value read plus one all
    commit, each after at most n attempts, and the counter ends at its start
    value plus n: this holds under every schedule that gives each
    transaction at least 2n steps (a read and a commit for each of n
    attempts).  Whether the write is made with set or with update makes no
    difference. *)
Theorem concurrent_increments_all_commit (kind : WriteKind)
    (maxAttempts n : nat) (start : Z) (schedule : list nat) :
  n ≤ maxAttempts →
  (- 2 ^ 53 ≤ start)%Z → (start + Z.of_nat n ≤ 2 ^ 53)%Z →
  (∀ i, i < n → 2 * n ≤ turns i schedule) →
  let sys := runSchedule kind (startAll maxAttempts n start) schedule in
  List.length (runners sys) = n
  ∧ (∀ i r, runners sys !! i = Some r →
       phase r = Done ∧ attemptNumber r ≤ n)
  ∧ finalCount sys = (start + Z.of_nat n)%Z.
Proof.
  intros Hbudget Hlo Hhi Hfair sys.
  destruct (reachable_ok kind maxAttempts n start schedule)
    as ([Hb Hrs] & Hturns & Hlen); [lia|done|done|].
  fold sys in Hb, Hrs, Hturns, Hlen.
  assert (∀ i r, runners sys !! i = Some r →
            phase r = Done ∧ attemptNumber r ≤ n) as Hall.
  { intros i r Hi.
    pose proof (lookup_lt_Some _ _ _ Hi) as Hlt. rewrite Hlen in Hlt.
    destruct (Hrs i r Hi) as (_ & Hone & Hphase).
    specialize (Hturns i r Hi). specialize (Hfair i Hlt).
    pose proof (doneCount_le (runners sys)) as Hle. rewrite Hlen in *.
    destruct (phase r) as [|txn snapshot| |e] eqn:Hph.
    - assert (doneCount (runners sys) < List.length (runners sys)) as Hroom
        by (eapply doneCount_lt; [done|]; unfold isDone; by rewrite Hph).
      lia.
    - assert (doneCount (runners sys) < List.length (runners sys)) as Hroom
        by (eapply doneCount_lt; [done|]; unfold isDone; by rewrite Hph).
      destruct Hphase as (v & _ & Hk & Hv & _). lia.
    - split; [done|lia].
    - lia. }
  split; [done|]. split; [done|].
  unfold finalCount, getDoc.
  rewrite (countOf_ok start (doneCount (runners sys))) by done.
  rewrite doneCount_full, Hlen; [done|].
  intros i r Hi. destruct (Hall i r Hi) as [Hph _].
  unfold isDone. by rewrite Hph.
Qed.

End TxFacts.

(** The runner properties, evaluated. *)

Lemma attempts_bounded_then_aborted_witness :
  let b := Tx.setDoc Tx.docRef (Tx.countField 15) Tx.emptyBackend in
  1 ≤ 5
  ∧ Tx.attempts (Tx.runTransaction Tx.readTwice 5 b).2 = 5
  ∧ Tx.settled (Tx.runTransaction Tx.readTwice 5 b).2
    = Rejected (mkFirestoreError "aborted" Tx.conflictReason).
Proof.
  intros b. split; [lia|].
  assert (Tx.versionsWithinClock b) as Hb.
  { apply TxFacts.setDoc_versionsWithinClock. by intros key d Hd. }
  apply (proj2 (TxFacts.attempts_bounded_then_aborted Tx.readTwice 5 b
                  (le_S _ _ (le_S _ _ (le_S _ _ (le_S _ _ (le_n 1))))))
           Tx.versionsWithinClock Hb).
  intros j b0 Hb0. by apply TxFacts.readTwice_conflicts.
Defined.

(** C2, the claim as stated fails: with a budget of five attempts, six
    concurrent increments whose reads all precede the commits in every round
    leave the sixth transaction rejected with 'aborted' after its fifth
    attempt; the counter, set to 5, ends at 10, and no further step changes
    anything. *)
Lemma sixth_increment_runs_out_of_attempts :
  let sys :=
    Tx.runSchedule Tx.BySet (Tx.startAll 5 6 5) (Tx.readsBeforeCommits 6 5) in
  map Tx.phase (Tx.runners sys)
  = [Tx.Done; Tx.Done; Tx.Done; Tx.Done; Tx.Done;
     Tx.Failed (Tx.aborted Tx.conflictReason)]
  ∧ map Tx.attemptNumber (Tx.runners sys) = [1; 2; 3; 4; 5; 5]
  ∧ Tx.finalCount sys = 10%Z
  ∧ forallb Tx.isFinished (Tx.runners sys) = true.
Proof.
  cbv zeta. repeat split; vm_compute; reflexivity.
Qed.

Lemma concurrent_increments_all_commit_witness :
  let schedule := Tx.readsBeforeCommits 3 3 in
  3 ≤ 5
  ∧ (- 2 ^ 53 ≤ 5)%Z
  ∧ (5 + Z.of_nat 3 ≤ 2 ^ 53)%Z
  ∧ (∀ i, i < 3 → 2 * 3 ≤ Tx.turns i schedule)
  ∧ Tx.finalCount (Tx.runSchedule Tx.BySet (Tx.startAll 5 3 5) schedule)
    = 8%Z.
Proof.
  intros schedule.
  assert (∀ i, i < 3 → 2 * 3 ≤ Tx.turns i schedule) as Hfair.
  { intros [|[|[|i]]] Hi; [vm_compute; lia..|lia]. }
  assert (- 2 ^ 53 ≤ 5)%Z as Hlo by (vm_compute; discriminate).
  assert (5 + Z.of_nat 3 ≤ 2 ^ 53)%Z as Hhi by (vm_compute; discriminate).
  split; [lia|]. split; [exact Hlo|]. split; [exact Hhi|].
  split; [exact Hfair|].
  exact (proj2 (proj2 (TxFacts.concurrent_increments_all_commit Tx.BySet
                         5 3 5 schedule
                         (le_S _ _ (le_S _ _ (le_n 3))) Hlo Hhi Hfair))).
Defined.

(* ===================================================================== *)
(** * Properties of the change buffer                                    *)
(* ===================================================================== *)

Module CacheFacts.
Import Cache.

Section WithSize.

Variable documentSize : MutableDocument → Z.

Implicit Types (cache : RemoteDocumentCache) (buf : RemoteDocumentChangeBuffer).
Implicit Types (document : MutableDocument) (documents : list MutableDocument).

Lemma addEntry_unread document buf :
  reads buf !! key document = None →
  addEntry document buf
  = Thrown (InternalAssertionFailed
              "Cannot modify a document that was not read").
Proof.
  intros Hunread. unfold addEntry.
  rewrite bool_decide_eq_false_2; [done|].
  rewrite Hunread. by intros [x Hx].
Qed.

Lemma addEntry_read document buf :
  is_Some (reads buf !! key document) →
  addEntry document buf
  = Returned (mkBuffer (<[key document := document]> (changes buf))
                       (reads buf)).
Proof.
  intros Hread. unfold addEntry. by rewrite bool_decide_eq_true_2.
Qed.

(** Reading through the buffer stages nothing, forgets no read, and leaves
    the key read unless it was staged already; what it records is what the
    cache holds. *)
Lemma bufferGetEntry_spec (k : string) buf cache :
  let buf' := (bufferGetEntry documentSize k buf cache).1 in
  changes buf' = changes buf
  ∧ (∀ k', is_Some (reads buf !! k') → is_Some (reads buf' !! k'))
  ∧ (is_Some (changes buf !! k) ∨ is_Some (reads buf' !! k))
  ∧ (∀ k' d bytes, reads buf' !! k' = Some (d, bytes) →
       reads buf !! k' = Some (d, bytes)
       ∨ (d = getEntry k' cache ∧ bytes = storedSize documentSize k' cache)).
Proof.
  unfold bufferGetEntry.
  destruct (changes buf !! k) as [staged|] eqn:Hstaged; cbn.
  { split; [done|]. split; [done|]. split; [by left|]. by left. }
  destruct (reads buf !! k) as [[d bytes]|] eqn:Hread; cbn.
  { split; [done|]. split; [done|]. split; [right; by rewrite Hread|].
    by left. }
  split; [done|]. split; [|split].
  - intros k' Hk'. rewrite lookup_insert. by case_decide.
  - right. by rewrite lookup_insert_eq.
  - intros k' d bytes. rewrite lookup_insert.
    case_decide as Hk; [|by left]. intros [= <- <-]. subst k'. by right.
Qed.

(** Reading a list of keys through the buffer: the same, for every key of
    the list. *)
Lemma bufferGetEntries_spec (keys : list string) buf cache :
  let buf' := bufferGetEntries documentSize keys buf cache in
  changes buf' = changes buf
  ∧ (∀ k, is_Some (reads buf !! k) → is_Some (reads buf' !! k))
  ∧ (∀ k, k ∈ keys →
       is_Some (changes buf !! k) ∨ is_Some (reads buf' !! k))
  ∧ (∀ k d bytes, reads buf' !! k = Some (d, bytes) →
       reads buf !! k = Some (d, bytes)
       ∨ (d = getEntry k cache ∧ bytes = storedSize documentSize k cache)).
Proof.
  unfold bufferGetEntries. revert buf.
  induction keys as [|k0 keys IH]; intros buf.
  { cbn. split; [done|]. split; [done|]. split; [|by left].
    intros k Hin. by apply elem_of_nil in Hin. }
  cbn [foldl].
  destruct (bufferGetEntry_spec k0 buf cache)
    as (Hchanges & Hkeeps & Hread & Haccurate).
  destruct (IH (bufferGetEntry documentSize k0 buf cache).1)
    as (Hchanges' & Hkeeps' & Hread' & Haccurate').
  split; [congruence|]. split; [|split].
  - intros k Hk. by apply Hkeeps', Hkeeps.
  - intros k [->|Hin]%elem_of_cons.
    + destruct Hread as [Hstaged|Hnow]; [by left|right]. by apply Hkeeps'.
    + destruct (Hread' k Hin) as [Hstaged|Hnow]; [left|by right].
      by rewrite <-Hchanges.
  - intros k d bytes Hk.
    destruct (Haccurate' k d bytes Hk) as [Hold|Hnew]; [|by right].
    by apply Haccurate.
Qed.

Lemma staged_lookup_other documents (m : gmap string MutableDocument)
    (k : string) :
  k ∉ map key documents →
  foldl (λ acc document, <[key document := document]> acc) m documents !! k
  = m !! k.
Proof.
  revert m. induction documents as [|d documents IH]; intros m Hnot; [done|].
  cbn in Hnot. apply not_elem_of_cons in Hnot as [Hne Hnot].
  cbn [foldl]. rewrite IH by done. by rewrite lookup_insert_ne.
Qed.

Lemma staged_lookup_last (before after : list MutableDocument) document
    (m : gmap string MutableDocument) :
  key document ∉ map key after →
  foldl (λ acc d, <[key d := d]> acc) m (before ++ document :: after)
    !! key document
  = Some document.
Proof.
  intros Hnot. rewrite foldl_app. cbn [foldl].
  rewrite staged_lookup_other by done. apply lookup_insert_eq.
Qed.

Lemma staged_lookup_Some documents (m : gmap string MutableDocument)
    (k : string) :
  is_Some (foldl (λ acc d, <[key d := d]> acc) m documents !! k) →
  is_Some (m !! k) ∨ ∃ document, document ∈ documents ∧ key document = k.
Proof.
  revert m. induction documents as [|d documents IH]; intros m Hk;
    [by left|].
  cbn [foldl] in Hk. destruct (IH _ Hk) as [Hnow|(d' & Hd' & Hkey)].
  - rewrite lookup_insert in Hnow. case_decide as Heq; [|by left].
    right. exists d. split; [apply list_elem_of_here|done].
  - right. exists d'. split; [by apply list_elem_of_further|done].
Qed.

(** Adding documents whose keys were all read succeeds and stages them in
    order. *)
Lemma addAll_returns documents buf :
  (∀ document, document ∈ documents → is_Some (reads buf !! key document)) →
  addAll documents buf
  = Returned (mkBuffer
                (foldl (λ acc d, <[key d := d]> acc) (changes buf) documents)
                (reads buf)).
Proof.
  revert buf. induction documents as [|document documents IH];
    intros buf Hread.
  { cbn. by destruct buf. }
  cbn [addAll foldl].
  rewrite addEntry_read by (apply Hread, list_elem_of_here). cbn.
  rewrite IH; [done|].
  intros d Hd. cbn. by apply Hread, list_elem_of_further.
Qed.

(* --------------------------------------------------------------------- *)
(** ** apply keeps the footprint in step                                  *)
(* --------------------------------------------------------------------- *)

Lemma actualBytes_write buf (k : string) document cache :
  actualBytes documentSize (write documentSize buf k document cache)
  = (actualBytes documentSize cache + documentSize document
     - storedSize documentSize k cache)%Z.
Proof.
  unfold actualBytes, write, storedSize. cbn.
  assert (∀ (j1 j2 : string) (z1 z2 : MutableDocument) (y : Z),
            (documentSize z1 + (documentSize z2 + y)
             = documentSize z2 + (documentSize z1 + y))%Z) as Hcomm
    by (intros; lia).
  destruct (entries cache !! k) as [old|] eqn:Hk.
  - rewrite <-insert_delete_eq.
    rewrite map_fold_insert_L;
      [|intros; apply Hcomm; done|apply lookup_delete_eq].
    rewrite (map_fold_delete_L _ _ k old (entries cache));
      [|intros; apply Hcomm; done|done].
    lia.
  - rewrite map_fold_insert_L; [|intros; apply Hcomm; done|done]. lia.
Qed.

Lemma write_commute buf (k1 k2 : string) (d1 d2 : MutableDocument) cache :
  k1 ≠ k2 →
  write documentSize buf k1 d1 (write documentSize buf k2 d2 cache)
  = write documentSize buf k2 d2 (write documentSize buf k1 d1 cache).
Proof.
  intros Hne. unfold write. cbn. f_equal; [by apply insert_insert_ne|lia].
Qed.

(** Writing staged documents whose keys were read from this cache: the
    cache holds them, and the reported footprint is as far from the actual
    one as it was. *)
Lemma apply_staged buf cache (m : gmap string MutableDocument) :
  (∀ k d, m !! k = Some d →
     ∃ rd, reads buf !! k = Some (rd, storedSize documentSize k cache)) →
  entries (map_fold (write documentSize buf) cache m) = m ∪ entries cache
  ∧ (storedBytes (map_fold (write documentSize buf) cache m)
     - actualBytes documentSize (map_fold (write documentSize buf) cache m)
     = storedBytes cache - actualBytes documentSize cache)%Z.
Proof.
  induction m as [|k d m Hk IH] using map_ind; intros Hread.
  { rewrite map_fold_empty. by rewrite (left_id_L ∅ (∪)). }
  rewrite map_fold_insert_L;
    [|intros; by apply write_commute|done].
  destruct IH as [Hentries Hdrift].
  { intros k' d' Hk'. apply (Hread k' d').
    rewrite lookup_insert_ne; [done|]. intros ->. congruence. }
  split.
  - cbn. rewrite Hentries. by rewrite insert_union_l.
  - rewrite actualBytes_write. cbn.
    destruct (Hread k d) as [rd Hrd]; [apply lookup_insert_eq|].
    assert (baseline k buf = storedSize documentSize k cache) as ->
      by (unfold baseline; by rewrite Hrd).
    assert (storedSize documentSize k
              (map_fold (write documentSize buf) cache m)
            = storedSize documentSize k cache) as ->.
    { unfold storedSize. rewrite Hentries.
      by rewrite lookup_union_r. }
    lia.
Qed.

(** What [addEntries] of the wrapper does. *)
Lemma addEntries_spec documents cache :
  ∃ cache',
    addEntries documentSize documents cache = Returned cache'
    ∧ entries cache'
      = foldl (λ acc d, <[key d := d]> acc) ∅ documents ∪ entries cache
    ∧ (getSize cache' - actualBytes documentSize cache'
       = getSize cache - actualBytes documentSize cache)%Z.
Proof.
  unfold addEntries, getSize.
  rewrite <-(foldl_fmap
               (λ acc k, (bufferGetEntry documentSize k acc cache).1)
               newChangeBuffer documents key).
  fold (bufferGetEntries documentSize (key <$> documents) newChangeBuffer
          cache).
  destruct (bufferGetEntries_spec (key <$> documents) newChangeBuffer cache)
    as (Hchanges & _ & Hread & Haccurate).
  set (buf := bufferGetEntries documentSize (key <$> documents)
                newChangeBuffer cache) in *.
  assert (∀ document, document ∈ documents →
            is_Some (reads buf !! key document)) as Hall.
  { intros d Hd. destruct (Hread (key d)) as [Hstaged|Hnow]; [|by destruct Hstaged|done].
    by apply list_elem_of_fmap_2. }
  rewrite addAll_returns by done. cbn. rewrite Hchanges. cbn.
  eexists. split; [reflexivity|].
  apply apply_staged. intros k d Hk.
  destruct (staged_lookup_Some documents ∅ k) as [Hempty|(d' & Hd' & <-)];
    [by rewrite Hk|by destruct Hempty|].
  destruct (Hall d' Hd') as [[rd bytes] Hrd]. exists rd.
  destruct (Haccurate _ _ _ Hrd) as [Hnew|[_ ->]]; [done|done].
Qed.

(** C8.  addEntry of the change buffer refuses, with a fatal assertion, a
    document whose key has not been read through the buffer; after the key
    has been read (by getEntry or among the keys of getEntries) it stages
    the document.  The wrapper's addEntries reads every key first, so it
    never trips the assertion, and apply then moves the reported size by
    exactly the change of the stored bytes: the difference between the
    reported and the actual size is the same before and after. *)
Theorem addEntry_requires_prior_read :
  (∀ buf document,
     reads buf !! key document = None →
     addEntry document buf
     = Thrown (InternalAssertionFailed
                 "Cannot modify a document that was not read"))
  ∧ (∀ buf cache document keys,
       (∀ k, is_Some (changes buf !! k) → is_Some (reads buf !! k)) →
       key document ∈ keys →
       ∃ buf',
         addEntry document (bufferGetEntries documentSize keys buf cache)
         = Returned buf'
         ∧ changes buf' !! key document = Some document)
  ∧ (∀ documents cache,
       ∃ cache',
         addEntries documentSize documents cache = Returned cache'
         ∧ (getSize cache' - actualBytes documentSize cache'
            = getSize cache - actualBytes documentSize cache)%Z
         ∧ ∀ before document after,
             documents = before ++ document :: after →
             key document ∉ map key after →
             getEntry (key document) cache' = document).
Proof.
  split; [|split].
  - intros buf document. apply addEntry_unread.
  - intros buf cache document keys Hstaged Hin.
    destruct (bufferGetEntries_spec keys buf cache)
      as (_ & Hkeeps & Hread & _).
    eexists. rewrite addEntry_read; [split; [reflexivity|]|].
    + cbn. apply lookup_insert_eq.
    + destruct (Hread _ Hin) as [Hchanged|Hnow]; [|done].
      by apply Hkeeps, Hstaged.
  - intros documents cache.
    destruct (addEntries_spec documents cache)
      as (cache' & Hreturned & Hentries & Hsize).
    exists cache'. split; [done|]. split; [done|].
    intros before document after -> Hnot. unfold getEntry.
    rewrite Hentries.
    erewrite lookup_union_Some_l; [done|].
    by apply staged_lookup_last.
Qed.

End WithSize.

End CacheFacts.

(** The change buffer, evaluated: documents take as many bytes as they have
    fields. *)

Example addEntry_without_read :
  Cache.addEntry (Cache.mkDoc "rooms/a" 3 Cache.Found ∅) Cache.newChangeBuffer
  = Thrown (InternalAssertionFailed
              "Cannot modify a document that was not read").
Proof. reflexivity. Qed.

Example addEntries_keeps_size_in_step :
  let documentSize := λ d : Cache.MutableDocument,
    Z.of_nat (size (Cache.fields d)) in
  let older :=
    Cache.mkDoc "rooms/a" 1 Cache.Found {[ "name" := JStr "a" ]} in
  let newer :=
    Cache.mkDoc "rooms/a" 2 Cache.Found
      {[ "name" := JStr "a"; "open" := JBool true ]} in
  let other := Cache.mkDoc "rooms/b" 2 Cache.Found {[ "name" := JStr "b" ]} in
  ∃ cache1 cache2,
    Cache.addEntries documentSize [older] (Cache.mkCache ∅ 0)
    = Returned cache1
    ∧ Cache.getSize cache1 = 1%Z
    ∧ Cache.addEntries documentSize [newer; other] cache1 = Returned cache2
    ∧ Cache.getSize cache2 = 3%Z
    ∧ Cache.getEntry "rooms/a" cache2 = newer.
Proof.
  cbv zeta. do 2 eexists.
  split; [vm_compute; reflexivity|].
  split; [vm_compute; reflexivity|].
  split; [vm_compute; reflexivity|].
  split; vm_compute; reflexivity.
Qed.

(* ===================================================================== *)
(** * The connection in use: further properties                          *)
(* ===================================================================== *)

(** A name is absent after a run of sets exactly when it was absent before
    and none of the sets names it. *)
Lemma stored_lookup_None (hs : list (string * string))
    (md : gmap string string) (name : string) :
  stored hs md !! name = None ↔ md !! name = None ∧ name ∉ names hs.
Proof.
  revert md. induction hs as [|[k v] hs IH]; intros md.
  { cbn. split; [|by intros [? _]].
    intros Hmd. split; [done|apply not_elem_of_nil]. }
  change (stored ((k, v) :: hs) md)
    with (stored hs (<[Metadata.normalizeKey k := v]> md)).
  rewrite IH. rewrite lookup_insert_None.
  cbn. rewrite not_elem_of_cons. split.
  - intros [[Hmd Hne] Hnot]. split; [done|]. split; [congruence|done].
  - intros [Hmd [Hne Hnot]]. split; [|done]. split; [done|congruence].
Qed.

Lemma hasSlash_append_slash (p1 p2 r1 r2 : string) :
  hasSlash p1 = false → hasSlash p2 = false →
  p1 +:+ String "/" r1 = p2 +:+ String "/" r2 →
  p1 = p2 ∧ r1 = r2.
Proof.
  revert p2. induction p1 as [|c1 p1 IH]; intros [|c2 p2] H1 H2 Heq.
  - cbn in Heq. by injection Heq as ->.
  - cbn in Heq, H2. injection Heq as <- _.
    by rewrite Ascii.eqb_refl in H2.
  - cbn in Heq, H1. injection Heq as -> _.
    by rewrite Ascii.eqb_refl in H1.
  - cbn in Heq, H1, H2. injection Heq as -> Heq.
    destruct (Ascii.eqb c2 "/"); [done|].
    by destruct (IH p2 H1 H2 Heq) as [-> ->].
Qed.

Section ConnectionInUse.

Context `{Platform}.

(** X3.  When createMetadata returns, it has set the headers of the two
    tokens and the fixed headers, and no other: a header is absent from the
    metadata exactly when neither token has it and it is not one of the
    fixed headers (names compared as the metadata stores them). *)
Theorem createMetadata_sets_no_other_header (databasePath : string)
    (authToken appCheckToken : option Token) (appId : string)
    (md : gmap string string) :
  createMetadata databasePath authToken appCheckToken appId = Returned md →
  ∀ name,
    Metadata.get name md = None
    ↔ Metadata.normalizeKey name
        ∉ names (tokenHeaders authToken)
            ++ names (tokenHeaders appCheckToken)
            ++ names (fixedHeaders databasePath appId).
Proof.
  intros (_ & _ & ->)%createMetadata_returns name.
  unfold Metadata.get. rewrite stored_lookup_None.
  unfold metadataEntries, names. rewrite !map_app.
  split; [by intros [_ ?]|]. intros Hnot. split; [apply lookup_empty|done].
Qed.

(** X4.  The app id header, when createMetadata returns: with an app id
    configured, the metadata carries it under X-Firebase-GMPID whatever the
    tokens carry; with none configured, the header is absent unless a token
    brings it. *)
Theorem app_id_header_sent_iff_configured (databasePath : string)
    (authToken appCheckToken : option Token) (appId : string)
    (md : gmap string string) :
  createMetadata databasePath authToken appCheckToken appId = Returned md →
  (appId ≠ "" → Metadata.get "X-Firebase-GMPID" md = Some appId)
  ∧ (appId = "" →
     "x-firebase-gmpid"
       ∉ names (tokenHeaders authToken)
           ++ names (tokenHeaders appCheckToken) →
     Metadata.get "X-Firebase-GMPID" md = None).
Proof.
  intros (_ & _ & ->)%createMetadata_returns. split.
  - intros HappId.
    assert (truthy appId = true) as Htruthy by (by destruct appId).
    apply (stored_lookup_split _
             (tokenHeaders authToken ++ tokenHeaders appCheckToken) _ _
             [("X-Goog-Api-Client", X_GOOG_API_CLIENT_VALUE);
              ("Google-Cloud-Resource-Prefix", databasePath);
              ("x-goog-request-params", databasePath)]).
    + unfold metadataEntries, fixedHeaders. rewrite Htruthy.
      by rewrite <-!app_assoc.
    + distinct_names.
  - intros -> Hnot. unfold Metadata.get. apply stored_lookup_None.
    split; [apply lookup_empty|].
    change (Metadata.normalizeKey "X-Firebase-GMPID")
      with "x-firebase-gmpid".
    apply not_elem_of_app in Hnot as [Hauth HappCheck].
    unfold metadataEntries, names in *. rewrite !map_app.
    rewrite !not_elem_of_app. split; [done|]. split; [done|].
    distinct_names.
Qed.

(** X17.  When createMetadata throws, for the assertion on the auth token
    or because the metadata refuses a header name or value, each of
    invokeRPC, invokeStreamingRPC and openStream throws that error, and none
    of them has issued a call on the stub by then. *)
Theorem failed_metadata_fails_before_any_request
    (Req Resp : Type) (this : GrpcConnection) (rpcName path : string)
    (request : JsObject) (authToken appCheckToken : option Token)
    (e : JsError) :
  createMetadata (databasePath this) authToken appCheckToken
                 (appId (databaseInfo this)) = Thrown e →
  (∃ this',
      invokeRPC (Resp:=Resp) this rpcName path request authToken
                appCheckToken = (this', Thrown e)
      ∧ issued this' = issued this)
  ∧ (∃ this',
      invokeStreamingRPC (Resp:=Resp) this rpcName path request authToken
                         appCheckToken = (this', Thrown e)
      ∧ issued this' = issued this)
  ∧ (∃ this',
      openStream (Req:=Req) (Resp:=Resp) this rpcName authToken
                 appCheckToken = (this', Thrown e)
      ∧ issued this' = issued this).
Proof.
  intros Hthrown.
  pose proof (ensureActiveStub_fields this) as (_ & _ & Hissued).
  repeat split; eexists; (split; [|exact Hissued]).
  - by apply invokeRPC_throws.
  - by apply invokeStreamingRPC_throws.
  - by apply openStream_throws.
Qed.

(** What one operation does to the connection. *)
Lemma perform_spec (this : GrpcConnection) (op : Operation) :
  databasePath (perform this op) = databasePath this
  ∧ databaseInfo (perform this op) = databaseInfo this
  ∧ cachedStub (perform this op) = Some (ensureActiveStub this).2
  ∧ ((createsMetadata this op = false
      ∧ issued (perform this op) = issued this)
     ∨ (createsMetadata this op = true
        ∧ ∃ c authToken appCheckToken,
            issued (perform this op) = issued this ++ [c]
            ∧ callName c = operationName op
            ∧ callMetadata c = metadataOf this authToken appCheckToken
            ∧ ∀ request, callRequest c = Some request →
                is_Some (request !! "database"))).
Proof.
  destruct (ensureActiveStub_fields this) as (Hpath & Hinfo & Hissued).
  destruct (ensureActiveStub_caches this) as [Hcached _].
  destruct op as [rpcName path request authToken appCheckToken
                 |rpcName path request authToken appCheckToken
                 |rpcName authToken appCheckToken];
    cbn [perform createsMetadata operationName];
    destruct (createMetadata (databasePath this) authToken appCheckToken
                (appId (databaseInfo this))) as [md|e] eqn:Hmd;
    cbn [isReturned].
  - destruct (invokeRPC_returns (Resp:=unit) this rpcName path request
                authToken appCheckToken md Hmd) as (p & -> & _).
    cbn [fst]. repeat (split; [done|]). right. split; [done|].
    eexists _, authToken, appCheckToken. split; [by rewrite issued_issue|].
    split; [done|]. split; [by apply createMetadata_metadataOf|].
    intros request' [= <-]. apply lookup_union_is_Some. right.
    by rewrite lookup_singleton_eq.
  - rewrite (invokeRPC_throws _ _ _ _ _ _ e) by done. cbn [fst].
    repeat (split; [done|]). by left.
  - rewrite (invokeStreamingRPC_returns _ _ _ _ _ _ md) by done.
    cbn [fst]. repeat (split; [done|]). right. split; [done|].
    eexists _, authToken, appCheckToken. split; [by rewrite issued_issue|].
    split; [done|]. split; [by apply createMetadata_metadataOf|].
    intros request' [= <-]. by rewrite lookup_insert_eq.
  - rewrite (invokeStreamingRPC_throws _ _ _ _ _ _ e) by done. cbn [fst].
    repeat (split; [done|]). by left.
  - rewrite (openStream_returns _ _ _ _ md) by done.
    cbn [fst]. repeat (split; [done|]). right. split; [done|].
    eexists _, authToken, appCheckToken. split; [by rewrite issued_issue|].
    split; [done|]. split; [by apply createMetadata_metadataOf|].
    by intros request' [=].
  - rewrite (openStream_throws _ _ _ _ e) by done. cbn [fst].
    repeat (split; [done|]). by left.
Qed.

Lemma metadata_app_id_header (this : GrpcConnection)
    (authToken appCheckToken : option Token) :
  appId (databaseInfo this) ≠ "" →
  Metadata.get "X-Firebase-GMPID" (metadataOf this authToken appCheckToken)
  = Some (appId (databaseInfo this)).
Proof.
  intros HappId.
  assert (truthy (appId (databaseInfo this)) = true) as Htruthy
    by (by destruct (appId (databaseInfo this))).
  unfold metadataOf.
  apply (stored_lookup_split _
           (tokenHeaders authToken ++ tokenHeaders appCheckToken) _ _
           [("X-Goog-Api-Client", X_GOOG_API_CLIENT_VALUE);
            ("Google-Cloud-Resource-Prefix", databasePath this);
            ("x-goog-request-params", databasePath this)]).
  - unfold metadataEntries, fixedHeaders. rewrite Htruthy.
    by rewrite <-!app_assoc.
  - distinct_names.
Qed.

Lemma performAll_snoc (this : GrpcConnection) (ops : list Operation)
    (op : Operation) :
  performAll this (ops ++ [op]) = perform (performAll this ops) op.
Proof. unfold performAll. by rewrite foldl_app. Qed.

Lemma performAll_fields (this : GrpcConnection) (ops : list Operation) :
  databasePath (performAll this ops) = databasePath this
  ∧ databaseInfo (performAll this ops) = databaseInfo this.
Proof.
  induction ops as [|op ops IH] using rev_ind; [done|].
  rewrite performAll_snoc.
  destruct (perform_spec (performAll this ops) op) as (-> & -> & _).
  done.
Qed.

(** Whether an operation gets its metadata depends on the database path
    and the app id only, and these stay. *)
Lemma createsMetadata_performAll (this : GrpcConnection)
    (ops : list Operation) (op : Operation) :
  createsMetadata (performAll this ops) op = createsMetadata this op.
Proof.
  destruct (performAll_fields this ops) as [Hpath Hinfo].
  unfold createsMetadata. by rewrite Hpath, Hinfo.
Qed.

(** X5.  The calls go out in the order of the operations, each under the
    name of the method it was asked for: one call for every operation for
    which createMetadata returns (the auth token passes the assertion and
    the metadata accepts every header); an operation for which
    createMetadata throws issues none, and the calls issued before stay as
    they were. *)
Theorem calls_issued_in_operation_order (this : GrpcConnection)
    (ops : list Operation) :
  ∃ calls,
    issued (performAll this ops) = issued this ++ calls
    ∧ map callName calls
      = map operationName (List.filter (createsMetadata this) ops).
Proof.
  induction ops as [|op ops IH] using rev_ind.
  { exists []. by rewrite app_nil_r. }
  destruct IH as (calls & Hissued & Hnames).
  rewrite performAll_snoc, List.filter_app, map_app, <-Hnames.
  pose proof (createsMetadata_performAll this ops op) as Hsame.
  destruct (perform_spec (performAll this ops) op)
    as (_ & _ & _ & [[Hno ->]|(Hok & c & _ & _ & -> & Hname & _)]);
    rewrite Hissued; cbn [List.filter]; rewrite <-Hsame.
  - exists calls. rewrite Hno. cbn. by rewrite app_nil_r.
  - exists (calls ++ [c]). rewrite Hok, map_app, app_assoc. cbn.
    by rewrite Hname.
Qed.

(** X6.  Every call that leaves a connection carries the routing headers of
    the connection's database and the client identification, and the app id
    when one is configured; a unary or server-streaming call carries a
    request with a 'database' field. *)
Theorem every_call_carries_routing_headers (info : DatabaseInfo)
    (ops : list Operation) (c : StubCall) :
  c ∈ issued (performAll (newGrpcConnection info) ops) →
  let path :=
    "projects/" +:+ projectId (databaseId info)
      +:+ "/databases/" +:+ database (databaseId info) in
  Metadata.get "x-goog-request-params" (callMetadata c) = Some path
  ∧ Metadata.get "Google-Cloud-Resource-Prefix" (callMetadata c) = Some path
  ∧ Metadata.get "X-Goog-Api-Client" (callMetadata c)
    = Some X_GOOG_API_CLIENT_VALUE
  ∧ (appId info ≠ "" →
     Metadata.get "X-Firebase-GMPID" (callMetadata c) = Some (appId info))
  ∧ (∀ request, callRequest c = Some request →
       is_Some (request !! "database")).
Proof.
  intros Hin path. revert c Hin.
  induction ops as [|op ops IH] using rev_ind; intros c Hin.
  { cbn in Hin. by apply elem_of_nil in Hin. }
  rewrite performAll_snoc in Hin.
  destruct (performAll_fields (newGrpcConnection info) ops)
    as [Hpath Hinfo]. cbn in Hpath, Hinfo.
  destruct (perform_spec (performAll (newGrpcConnection info) ops) op)
    as (_ & _ & _ & [[_ Hissued]
                    |(Hok & c' & authToken & appCheckToken
                      & Hissued & _ & Hmd & Hrequest)]);
    rewrite Hissued in Hin; [by apply IH|].
  apply elem_of_app in Hin as [Hin|Hin]; [by apply IH|].
  apply list_elem_of_singleton in Hin as ->. rewrite Hmd.
  split; [by rewrite metadata_request_params, Hpath|].
  split; [by rewrite metadata_resource_prefix, Hpath|].
  split; [by rewrite metadata_client_header|]. split; [|done].
  intros HappId. rewrite metadata_app_id_header; by rewrite Hinfo.
Qed.

Lemma ensureActiveStub_stub (this : GrpcConnection) :
  (ensureActiveStub this).2
  = match cachedStub this with
    | Some stub => stub
    | None =>
        mkStub (host (databaseInfo this))
               (if ssl (databaseInfo this) then createSsl else createInsecure)
    end.
Proof. unfold ensureActiveStub. by destruct (cachedStub this). Qed.

(** X7.  The stub of a connection that has been used is the one made for the
    configured host, with SSL credentials exactly when SSL is configured:
    whatever operations have run, and whether they returned or threw.  The
    operations leave the database info and the database path as the
    constructor set them. *)
Theorem stub_uses_configured_host_and_credentials (info : DatabaseInfo)
    (ops : list Operation) :
  ops ≠ [] →
  cachedStub (performAll (newGrpcConnection info) ops)
  = Some (mkStub (host info)
                 (if ssl info then createSsl else createInsecure))
  ∧ databaseInfo (performAll (newGrpcConnection info) ops) = info
  ∧ databasePath (performAll (newGrpcConnection info) ops)
    = databasePath (newGrpcConnection info).
Proof.
  intros Hops.
  destruct (performAll_fields (newGrpcConnection info) ops) as [-> ->].
  split; [|done]. clear -Hops.
  induction ops as [|op ops IH] using rev_ind; [done|].
  rewrite performAll_snoc.
  destruct (perform_spec (performAll (newGrpcConnection info) ops) op)
    as (_ & _ & -> & _).
  rewrite ensureActiveStub_stub.
  destruct (performAll_fields (newGrpcConnection info) ops) as [_ ->].
  destruct ops as [|op' ops' _] using rev_ind; [done|].
  by rewrite IH by (by destruct ops').
Qed.

(** X8.  Two databases whose project ids have no '/' in them and whose
    connections have the same database path are the same database. *)
Theorem database_path_identifies_database (info1 info2 : DatabaseInfo) :
  hasSlash (projectId (databaseId info1)) = false →
  hasSlash (projectId (databaseId info2)) = false →
  databasePath (newGrpcConnection info1)
  = databasePath (newGrpcConnection info2) →
  databaseId info1 = databaseId info2.
Proof.
  intros H1 H2 Heq.
  destruct info1 as [[p1 d1] ? ? ?], info2 as [[p2 d2] ? ? ?].
  cbn in *. injection Heq as Heq.
  apply hasSlash_append_slash in Heq as [-> Heq]; [|done..].
  by injection Heq as ->.
Qed.

(** X9.  Whenever createMetadata returns, a request that has no 'database'
    field goes out the same from invokeRPC and from invokeStreamingRPC:
    with the caller's fields, the connection's database path as its
    'database' field, and the metadata createMetadata returned. *)
Theorem request_without_database_field_sent_alike (Resp : Type)
    (this : GrpcConnection) (rpcName path : string) (request : JsObject)
    (authToken appCheckToken : option Token) (md : gmap string string) :
  createMetadata (databasePath this) authToken appCheckToken
                 (appId (databaseInfo this)) = Returned md →
  request !! "database" = None →
  ∃ this1 this2 (p1 : UnaryPromise Resp) (p2 : StreamingPromise Resp)
    (wire : JsObject),
    invokeRPC this rpcName path request authToken appCheckToken
    = (this1, Returned p1)
    ∧ issued this1 = issued this ++ [UnaryCall rpcName wire md]
    ∧ invokeStreamingRPC this rpcName path request authToken appCheckToken
      = (this2, Returned p2)
    ∧ issued this2 = issued this ++ [ServerStreamingCall rpcName wire md]
    ∧ wire !! "database" = Some (JStr (databasePath this))
    ∧ (∀ field, field ≠ "database" → wire !! field = request !! field).
Proof.
  intros Hreturned Hnone.
  destruct (invokeRPC_returns (Resp:=Resp) this rpcName path request
              authToken appCheckToken md Hreturned) as (p1 & Hunary & _).
  pose proof (invokeStreamingRPC_returns (Resp:=Resp) this rpcName path
                request authToken appCheckToken md Hreturned) as Hstreaming.
  rewrite <-insert_union_singleton_r in Hunary by done.
  do 5 eexists.
  split; [exact Hunary|]. split; [by rewrite issued_issue|].
  split; [exact Hstreaming|]. split; [by rewrite issued_issue|].
  split; [apply lookup_insert_eq|].
  intros field Hne. by apply lookup_insert_ne.
Qed.

Lemma results_collect_data {Resp} (st : StreamingCallState Resp)
    (evs : list (StreamingEvent Resp)) :
  results (foldl onStreamingEvent st evs) = results st ++ dataOf evs.
Proof.
  revert st. induction evs as [|ev evs IH]; intros st.
  { cbn. by rewrite app_nil_r. }
  cbn [foldl]. rewrite IH. destruct ev; cbn; [|done..].
  by rewrite <-app_assoc.
Qed.

(** X10.  Whenever createMetadata returns, the promise invokeStreamingRPC
    returns is resolved with the array the 'data' listener appends to, not
    with a copy: a message that the transport delivers after 'end' shows in
    the resolved list, after the messages that came before 'end'. *)
Theorem late_messages_reach_resolved_results (Resp : Type)
    (this : GrpcConnection) (rpcName path : string) (request : JsObject)
    (authToken appCheckToken : option Token) (md : gmap string string) :
  createMetadata (databasePath this) authToken appCheckToken
                 (appId (databaseInfo this)) = Returned md →
  ∃ this' (p : StreamingPromise Resp),
    invokeStreamingRPC this rpcName path request authToken appCheckToken
    = (this', Returned p)
    ∧ ∀ ms rest,
        p (map Data ms ++ End_ :: rest) = Resolved (ms ++ dataOf rest).
Proof.
  intros Hreturned. do 2 eexists.
  split; [by eapply invokeStreamingRPC_returns|].
  intros ms rest. cbv beta. rewrite foldl_app, onStreamingEvent_data.
  cbn [foldl]. unfold promise.
  rewrite settled_is_final by done.
  by rewrite results_collect_data.
Qed.

End ConnectionInUse.

(** These properties, evaluated on the example platform. *)

Lemma createMetadata_sets_no_other_header_witness :
  let authToken := Some (mkToken "OAuth" [("Authorization", "Bearer abc")]) in
  let md :=
    stored (metadataEntries "projects/demo/databases/(default)" authToken
                            None "") Metadata.empty in
  createMetadata (H:=examplePlatform) "projects/demo/databases/(default)"
                 authToken None "" = Returned md
  ∧ Metadata.get "Cookie" md = None
  ∧ Metadata.get "X-Firebase-GMPID" md = None.
Proof.
  intros authToken md.
  assert (createMetadata (H:=examplePlatform)
            "projects/demo/databases/(default)" authToken None ""
          = Returned md) as Hmd by (vm_compute; reflexivity).
  split; [exact Hmd|].
  pose proof (createMetadata_sets_no_other_header (H:=examplePlatform)
                "projects/demo/databases/(default)" authToken None "" md
                Hmd) as Hnone.
  split; apply Hnone; subst authToken; distinct_names.
Defined.

Lemma app_id_header_sent_iff_configured_witness :
  let authToken :=
    Some (mkToken "OAuth" [("X-Firebase-GMPID", "1:999:web:0")]) in
  let md :=
    stored (metadataEntries "projects/demo/databases/(default)" authToken
                            None "1:234:web:5") Metadata.empty in
  createMetadata (H:=examplePlatform) "projects/demo/databases/(default)"
                 authToken None "1:234:web:5" = Returned md
  ∧ Metadata.get "X-Firebase-GMPID" md = Some "1:234:web:5".
Proof.
  intros authToken md.
  assert (createMetadata (H:=examplePlatform)
            "projects/demo/databases/(default)" authToken None
            "1:234:web:5" = Returned md) as Hmd by (vm_compute; reflexivity).
  split; [exact Hmd|].
  apply (proj1 (app_id_header_sent_iff_configured (H:=examplePlatform)
                  "projects/demo/databases/(default)" authToken None
                  "1:234:web:5" md Hmd)).
  discriminate.
Defined.

Lemma failed_metadata_fails_before_any_request_witness :
  let this := newGrpcConnection exampleInfo in
  let authToken := Some (mkToken "OAuth" [("Bad Key", "Bearer abc")]) in
  let refused : JsError :=
    OtherError "Metadata key contains illegal characters" in
  createMetadata (databasePath this) authToken None
                 (appId (databaseInfo this)) = Thrown refused
  ∧ ∃ this',
      invokeRPC (H:=examplePlatform) (Resp:=unit) this "Commit" "" ∅
                authToken None = (this', Thrown refused)
      ∧ issued this' = issued this.
Proof.
  intros this authToken refused.
  assert (createMetadata (databasePath this) authToken None
            (appId (databaseInfo this)) = Thrown refused) as Hthrown
    by (vm_compute; reflexivity).
  split; [exact Hthrown|].
  exact (proj1 (failed_metadata_fails_before_any_request
                  (H:=examplePlatform) unit unit this "Commit" "" ∅
                  authToken None refused Hthrown)).
Defined.

(** The metadata of the example platform also refuses a value and an app id
    that are not printable ASCII. *)
Example illegal_value_and_app_id_are_refused :
  let refused : Outcome (gmap string string) :=
    Thrown (OtherError "Metadata string value contains illegal characters") in
  createMetadata (H:=examplePlatform) "projects/demo/databases/(default)"
    (Some (mkToken "OAuth" [("Authorization", "Bearer é")])) None ""
  = refused
  ∧ createMetadata (H:=examplePlatform) "projects/demo/databases/(default)"
      None None "appé"
    = refused.
Proof. split; vm_compute; reflexivity. Qed.

Lemma every_call_carries_routing_headers_witness :
  let ops :=
    [InvokeRPC "Commit" "" ∅ None None;
     OpenStream "Listen" (Some (mkToken "FirstParty" [])) None;
     InvokeStreamingRPC "RunQuery" "" ∅ None None] in
  let c :=
    ServerStreamingCall "RunQuery"
      {[ "database" := JStr "projects/demo/databases/(default)" ]}
      (metadataOf (newGrpcConnection exampleInfo) None None) in
  c ∈ issued (performAll (newGrpcConnection exampleInfo) ops)
  ∧ map callName (issued (performAll (newGrpcConnection exampleInfo) ops))
    = ["Commit"; "RunQuery"]
  ∧ Metadata.get "x-goog-request-params" (callMetadata c)
    = Some "projects/demo/databases/(default)"
  ∧ Metadata.get "X-Firebase-GMPID" (callMetadata c) = Some "1:234:web:5".
Proof.
  intros ops c.
  assert (c ∈ issued (performAll (newGrpcConnection exampleInfo) ops))
    as Hin.
  { assert (issued (performAll (newGrpcConnection exampleInfo) ops)
            = [UnaryCall "Commit"
                 {[ "database" := JStr "projects/demo/databases/(default)" ]}
                 (metadataOf (newGrpcConnection exampleInfo) None None);
               c]) as -> by (vm_compute; reflexivity).
    apply list_elem_of_further, list_elem_of_here. }
  split; [exact Hin|]. split; [vm_compute; reflexivity|].
  destruct (every_call_carries_routing_headers (H:=examplePlatform)
              exampleInfo ops c Hin) as (Hparams & _ & _ & HappId & _).
  split; [exact Hparams|]. apply HappId. discriminate.
Defined.

Lemma stub_uses_configured_host_and_credentials_witness :
  let ops := [OpenStream "Listen" (Some (mkToken "FirstParty" [])) None] in
  ops ≠ []
  ∧ cachedStub (performAll (newGrpcConnection exampleInfo) ops)
    = Some (mkStub "firestore.googleapis.com" createSsl).
Proof.
  intros ops.
  assert (ops ≠ []) as Hops by discriminate.
  split; [exact Hops|].
  exact (proj1 (stub_uses_configured_host_and_credentials
                  (H:=examplePlatform) exampleInfo ops Hops)).
Defined.

Lemma database_path_identifies_database_witness :
  let emulator :=
    mkDatabaseInfo (mkDatabaseId "demo" "(default)") "" "localhost:8080"
                   false in
  hasSlash (projectId (databaseId exampleInfo)) = false
  ∧ hasSlash (projectId (databaseId emulator)) = false
  ∧ databasePath (newGrpcConnection exampleInfo)
    = databasePath (newGrpcConnection emulator)
  ∧ databaseId exampleInfo = databaseId emulator.
Proof.
  intros emulator.
  split; [reflexivity|]. split; [reflexivity|]. split; [reflexivity|].
  apply (database_path_identifies_database exampleInfo emulator);
    reflexivity.
Defined.

(** With a '/' in a project id the path no longer tells the databases
    apart. *)
Example database_path_shared_with_slash :
  let one := mkDatabaseInfo (mkDatabaseId "a" "b/databases/c") "" "h" true in
  let other := mkDatabaseInfo (mkDatabaseId "a/databases/b" "c") "" "h" true in
  databasePath (newGrpcConnection one) = databasePath (newGrpcConnection other)
  ∧ databaseId one ≠ databaseId other.
Proof. split; [reflexivity|discriminate]. Qed.

Lemma request_without_database_field_sent_alike_witness :
  let this := newGrpcConnection exampleInfo in
  let request : JsObject := {[ "writes" := JArr [] ]} in
  let md := metadataOf this None None in
  createMetadata (databasePath this) None None (appId (databaseInfo this))
  = Returned md
  ∧ request !! "database" = None
  ∧ ∃ this1 this2 (p1 : UnaryPromise unit) (p2 : StreamingPromise unit)
      (wire : JsObject),
      invokeRPC (H:=examplePlatform) this "Commit" "" request None None
      = (this1, Returned p1)
      ∧ issued this1 = issued this ++ [UnaryCall "Commit" wire md]
      ∧ invokeStreamingRPC (H:=examplePlatform) this "Commit" "" request
                           None None
        = (this2, Returned p2)
      ∧ issued this2 = issued this ++ [ServerStreamingCall "Commit" wire md]
      ∧ wire !! "database" = Some (JStr (databasePath this))
      ∧ (∀ field, field ≠ "database" →
           wire !! field = request !! field).
Proof.
  intros this request md.
  split; [exact example_createMetadata|]. split; [reflexivity|].
  apply (request_without_database_field_sent_alike (H:=examplePlatform)
           unit this "Commit" "" request None None md);
    [exact example_createMetadata|reflexivity].
Defined.

Lemma late_messages_reach_resolved_results_witness :
  let this := newGrpcConnection exampleInfo in
  createMetadata (databasePath this) None None (appId (databaseInfo this))
  = Returned (metadataOf this None None)
  ∧ ∃ this' (p : StreamingPromise nat),
      invokeStreamingRPC (H:=examplePlatform) this "RunQuery" "" ∅ None None
      = (this', Returned p)
      ∧ p [Data 1; End_] = Resolved [1]
      ∧ p [Data 1; End_; Data 2] = Resolved [1; 2].
Proof.
  intros this. split; [exact example_createMetadata|].
  destruct (late_messages_reach_resolved_results (H:=examplePlatform) nat
              this "RunQuery" "" ∅ None None _ example_createMetadata)
    as (this' & p & Heq & Hresolved).
  exists this', p. split; [exact Heq|].
  split; [exact (Hresolved [1] [])|exact (Hresolved [1] [Data 2])].
Defined.

(* ===================================================================== *)
(** * What a stream relays                                                *)
(* ===================================================================== *)

Section StreamRelay.

Context `{Platform} {Req Resp : Type} (writeThrows : Req → option JsError).

Implicit Types (st : @StreamState Req Resp) (ev : @Event Req Resp).
Implicit Types (evs : list (@Event Req Resp)).

(** The first close invocation on a stream that is not closed. *)
Lemma trigger_on_open st ev :
  closed st = false → isCloseTrigger ev = true →
  (handle writeThrows st ev).1
  = mkStream true (openTimerPending st)
      (effects st ++ [CallOnClose (terminalError ev); GrpcEnd]).
Proof.
  intros Hopen Htrigger.
  destruct ev; try discriminate; cbn; unfold closeFn, close;
    by rewrite Hopen.
Qed.

(** An event that is no close invocation, on a stream that is not closed:
    the stream stays open, a sent message is written, a message of the
    transport is handed to the owner, the timer delivers 'open'. *)
Lemma other_on_open st ev :
  closed st = false → isCloseTrigger ev = false →
  (handle writeThrows st ev).1
  = mkStream false
      (openTimerPending st && negb (isTimeout ev))
      (effects st
         ++ match ev with
            | Send msg => [GrpcWrite msg]
            | OnData msg => [CallOnMessage msg]
            | Timeout => if openTimerPending st then [CallOnOpen] else []
            | _ => []
            end).
Proof.
  intros Hopen Hother. destruct st as [c pending history]. cbn in Hopen.
  subst c.
  destruct ev as [msg| |msg| |grpcError|]; try discriminate; cbn.
  - unfold sendFn, emit. cbn. rewrite andb_true_r.
    by destruct (writeThrows msg).
  - unfold emit. cbn. by rewrite andb_true_r.
  - rewrite andb_false_r. destruct pending; [done|]. by rewrite app_nil_r.
Qed.

(** On a closed stream nothing happens any more, except that the timer, if
    it has not fired yet, still delivers 'open'. *)
Lemma run_closed st evs :
  closed st = true →
  run writeThrows st evs
  = if openTimerPending st && existsb isTimeout evs
    then mkStream true false (effects st ++ [CallOnOpen])
    else st.
Proof.
  revert st. induction evs as [|ev evs IH]; intros st Hclosed.
  { cbn. by rewrite andb_false_r. }
  rewrite run_cons.
  destruct (handle_closed writeThrows st ev Hclosed)
    as [Hsame|(-> & Hpending & Hfired)].
  - rewrite Hsame, IH by done. cbn [existsb].
    destruct (openTimerPending st) eqn:Hpending; [|done]. cbn.
    destruct ev; cbn; try done.
    cbn in Hsame. rewrite Hpending in Hsame.
    apply (f_equal openTimerPending) in Hsame. cbn in Hsame. congruence.
  - rewrite Hfired, IH by done. cbn. by rewrite Hpending.
Qed.

Lemma run_open st evs :
  closed st = false →
  Forall (λ ev, isCloseTrigger ev = false) evs →
  closed (run writeThrows st evs) = false
  ∧ openTimerPending (run writeThrows st evs)
    = openTimerPending st && negb (existsb isTimeout evs).
Proof.
  intros Hopen Hevs. revert st Hopen.
  induction Hevs as [|ev evs Hev _ IH]; intros st Hopen.
  { cbn. by rewrite andb_true_r. }
  rewrite run_cons, (other_on_open st ev) by done.
  destruct (IH (mkStream false (openTimerPending st && negb (isTimeout ev))
                  (effects st
                     ++ match ev with
                        | Send msg => [GrpcWrite msg]
                        | OnData msg => [CallOnMessage msg]
                        | Timeout =>
                            if openTimerPending st then [CallOnOpen] else []
                        | _ => []
                        end))) as [-> ->]; [done|].
  split; [done|]. cbn. by rewrite negb_orb, andb_assoc.
Qed.

(** X11.  From the first close invocation on, the history of a stream is
    fixed but for a late 'open': what the stream has done up to then is
    followed by the call of the owner's close callback, with the error of
    that invocation (mapped, for a transport error; none for the owner's
    close and for the natural end), then by the end of the transport, and
    then only by the open callback, if the timer had not fired before and
    fires after. *)
Theorem close_notifies_owner_then_ends_transport
    (this this' : GrpcConnection) (rpcName : string)
    (authToken appCheckToken : option Token) st0 before ev after :
  openStream this rpcName authToken appCheckToken = (this', Returned st0) →
  Forall (λ ev', isCloseTrigger ev' = false) before →
  isCloseTrigger ev = true →
  effects (run writeThrows st0 (before ++ ev :: after))
  = effects (run writeThrows st0 before)
      ++ [CallOnClose (terminalError ev); GrpcEnd]
      ++ (if negb (existsb isTimeout before) && existsb isTimeout after
          then [CallOnOpen] else []).
Proof.
  intros Hopen Hbefore Htrigger. apply openStream_initial in Hopen as ->.
  destruct (run_open (mkStream false true []) before eq_refl Hbefore)
    as [Hstill Hpending].
  rewrite run_app, run_cons, trigger_on_open by done.
  rewrite run_closed by done. cbn [openTimerPending effects].
  rewrite Hpending. cbn [openTimerPending andb].
  destruct (negb (existsb isTimeout before) && existsb isTimeout after);
    cbn [effects]; by rewrite <-?app_assoc.
Qed.

(** What a stream relays while it is open, and that it relays nothing once it
    is closed. *)
Lemma relay_closed st evs :
  closed st = true →
  deliveredMessages (effects (run writeThrows st evs))
  = deliveredMessages (effects st)
  ∧ writtenMessages (effects (run writeThrows st evs))
    = writtenMessages (effects st).
Proof.
  intros Hclosed. rewrite run_closed by done.
  destruct (openTimerPending st && existsb isTimeout evs); [|done].
  unfold deliveredMessages, writtenMessages. cbn [effects].
  rewrite !omap_app. cbn. by rewrite !app_nil_r.
Qed.

Lemma relay_open st evs :
  closed st = false →
  deliveredMessages (effects (run writeThrows st evs))
  = deliveredMessages (effects st) ++ receivedData (untilClose evs)
  ∧ writtenMessages (effects (run writeThrows st evs))
    = writtenMessages (effects st) ++ sentMessages (untilClose evs).
Proof.
  revert st. induction evs as [|ev evs IH]; intros st Hopen.
  { cbn. by rewrite !app_nil_r. }
  rewrite run_cons. cbn [untilClose].
  destruct (isCloseTrigger ev) eqn:Htrigger.
  - rewrite trigger_on_open by done.
    destruct (relay_closed
                (mkStream true (openTimerPending st)
                   (effects st ++ [CallOnClose (terminalError ev); GrpcEnd]))
                evs eq_refl) as [-> ->].
    unfold deliveredMessages, writtenMessages. cbn [effects].
    rewrite !omap_app. cbn. by rewrite !app_nil_r.
  - rewrite other_on_open by done.
    edestruct IH as [-> ->]; [reflexivity|].
    unfold deliveredMessages, writtenMessages, receivedData, sentMessages.
    cbn [effects]. rewrite !omap_app, <-!app_assoc.
    destruct ev as [msg| |msg| |grpcError|]; try discriminate; cbn;
      try done.
    by destruct (openTimerPending st).
Qed.

(** X12.  The owner gets the messages of the transport as they come, none
    left out, none twice, until the first close invocation, and none from
    then on. *)
Theorem messages_delivered_in_order_until_close
    (this this' : GrpcConnection) (rpcName : string)
    (authToken appCheckToken : option Token) st0 evs :
  openStream this rpcName authToken appCheckToken = (this', Returned st0) →
  deliveredMessages (effects (run writeThrows st0 evs))
  = receivedData (untilClose evs).
Proof.
  intros Hopen. apply openStream_initial in Hopen as ->.
  by destruct (relay_open (mkStream false true []) evs eq_refl) as [-> _].
Qed.

(** X13.  Every message the owner sends before the first close invocation is
    written to the transport, once and in the order of the sends, also when
    an earlier write threw; nothing is written from the first close
    invocation on. *)
Theorem sends_written_in_order_until_close
    (this this' : GrpcConnection) (rpcName : string)
    (authToken appCheckToken : option Token) st0 evs :
  openStream this rpcName authToken appCheckToken = (this', Returned st0) →
  writtenMessages (effects (run writeThrows st0 evs))
  = sentMessages (untilClose evs).
Proof.
  intros Hopen. apply openStream_initial in Hopen as ->.
  by destruct (relay_open (mkStream false true []) evs eq_refl) as [_ ->].
Qed.

Lemma closed_iff_trigger st evs :
  closed st = false →
  closed (run writeThrows st evs) = existsb isCloseTrigger evs.
Proof.
  revert st. induction evs as [|ev evs IH]; intros st Hopen; [done|].
  rewrite run_cons. cbn [existsb].
  destruct (isCloseTrigger ev) eqn:Htrigger.
  - apply closed_stays_run. by apply trigger_closes.
  - rewrite other_on_open by done. by apply IH.
Qed.

(** X14.  send throws only what the write to the transport throws, and only
    on a stream on which no close invocation has happened; it never closes
    the stream, so a send that threw does not keep later sends from being
    written. *)
Theorem send_throws_what_write_throws
    (this this' : GrpcConnection) (rpcName : string)
    (authToken appCheckToken : option Token) st0 evs msg :
  openStream this rpcName authToken appCheckToken = (this', Returned st0) →
  let st := run writeThrows st0 evs in
  (sendFn writeThrows msg st).2
  = (if existsb isCloseTrigger evs then Returned tt
     else match writeThrows msg with
          | Some e => Thrown e
          | None => Returned tt
          end)
  ∧ closed (sendFn writeThrows msg st).1 = existsb isCloseTrigger evs.
Proof.
  intros Hopen st. apply openStream_initial in Hopen as ->.
  pose proof (closed_iff_trigger (mkStream false true []) evs eq_refl)
    as Hclosed. fold st in Hclosed.
  unfold sendFn. rewrite Hclosed.
  destruct (existsb isCloseTrigger evs); cbn; [done|].
  by destruct (writeThrows msg).
Qed.

End StreamRelay.

(** The same, evaluated on a stream of numbers. *)

Lemma close_notifies_owner_then_ends_transport_witness :
  let this := newGrpcConnection exampleInfo in
  let this' :=
    issue (ensureActiveStub this).1
          (DuplexCall "Listen" (metadataOf this None None)) in
  let st0 : @StreamState nat nat := mkStream false true [] in
  let before : list (@Event nat nat) := [Send 1; OnData 7] in
  let down : @Event nat nat := OnError (mkServiceError 14 "down") in
  let after : list (@Event nat nat) := [OnData 8; Send 2; Timeout; Close] in
  openStream this "Listen" None None = (this', Returned st0)
  ∧ Forall (λ ev', isCloseTrigger ev' = false) before
  ∧ isCloseTrigger down = true
  ∧ effects (run (λ _, None) st0 (before ++ down :: after))
    = [GrpcWrite 1; CallOnMessage 7;
       CallOnClose (Some (mkFirestoreError "unavailable" "down")); GrpcEnd;
       CallOnOpen].
Proof.
  intros this this' st0 before down after.
  assert (openStream this "Listen" None None = (this', Returned st0))
    as Hopen
    by (apply openStream_returns; exact example_createMetadata).
  assert (Forall (λ ev', isCloseTrigger ev' = false) before) as Hbefore
    by (repeat constructor).
  split; [exact Hopen|]. split; [exact Hbefore|]. split; [reflexivity|].
  exact (close_notifies_owner_then_ends_transport (H:=examplePlatform)
           (λ _, None) this this' "Listen" None None st0 before down after
           Hopen Hbefore eq_refl).
Defined.

Lemma messages_delivered_in_order_until_close_witness :
  let this := newGrpcConnection exampleInfo in
  let this' :=
    issue (ensureActiveStub this).1
          (DuplexCall "Listen" (metadataOf this None None)) in
  let st0 : @StreamState nat nat := mkStream false true [] in
  let evs : list (@Event nat nat) :=
    [OnData 1; Timeout; OnData 2; Close; OnData 3] in
  openStream this "Listen" None None = (this', Returned st0)
  ∧ deliveredMessages (effects (run (λ _, None) st0 evs)) = [1; 2].
Proof.
  intros this this' st0 evs.
  assert (openStream this "Listen" None None = (this', Returned st0))
    as Hopen
    by (apply openStream_returns; exact example_createMetadata).
  split; [exact Hopen|].
  exact (messages_delivered_in_order_until_close (H:=examplePlatform)
           (λ _, None) this this' "Listen" None None st0 evs Hopen).
Defined.

Lemma sends_written_in_order_until_close_witness :
  let this := newGrpcConnection exampleInfo in
  let this' :=
    issue (ensureActiveStub this).1
          (DuplexCall "Write" (metadataOf this None None)) in
  let st0 : @StreamState nat nat := mkStream false true [] in
  let writeThrows : nat → option JsError :=
    λ msg, if Nat.eqb msg 2 then Some (OtherError "not a proto") else None in
  let evs : list (@Event nat nat) :=
    [Send 1; Send 2; Send 3; OnEnd; Send 4] in
  openStream this "Write" None None = (this', Returned st0)
  ∧ writtenMessages (effects (run writeThrows st0 evs)) = [1; 2; 3].
Proof.
  intros this this' st0 writeThrows evs.
  assert (openStream this "Write" None None = (this', Returned st0))
    as Hopen
    by (apply openStream_returns; exact example_createMetadata).
  split; [exact Hopen|].
  exact (sends_written_in_order_until_close (H:=examplePlatform)
           writeThrows this this' "Write" None None st0 evs Hopen).
Defined.

Lemma send_throws_what_write_throws_witness :
  let this := newGrpcConnection exampleInfo in
  let this' :=
    issue (ensureActiveStub this).1
          (DuplexCall "Write" (metadataOf this None None)) in
  let st0 : @StreamState nat nat := mkStream false true [] in
  let writeThrows : nat → option JsError :=
    λ msg, if Nat.eqb msg 2 then Some (OtherError "not a proto") else None in
  openStream this "Write" None None = (this', Returned st0)
  ∧ (sendFn writeThrows 2 (run writeThrows st0 [Send 2])).2
    = Thrown (OtherError "not a proto")
  ∧ closed (sendFn writeThrows 2 (run writeThrows st0 [Send 2])).1 = false
  ∧ (sendFn writeThrows 2 (run writeThrows st0 [Send 2; Close])).2
    = Returned tt.
Proof.
  intros this this' st0 writeThrows.
  assert (openStream this "Write" None None = (this', Returned st0))
    as Hopen
    by (apply openStream_returns; exact example_createMetadata).
  split; [exact Hopen|].
  destruct (send_throws_what_write_throws (H:=examplePlatform) writeThrows
              this this' "Write" None None st0 [Send 2] 2 Hopen)
    as [Hthrown Hclosed].
  destruct (send_throws_what_write_throws (H:=examplePlatform) writeThrows
              this this' "Write" None None st0 [Send 2; Close] 2 Hopen)
    as [Hreturned _].
  split; [exact Hthrown|]. split; [exact Hclosed|exact Hreturned].
Defined.

(* ===================================================================== *)
(** * The counter tests of the transaction runner                        *)
(* ===================================================================== *)

Module TxTestFacts.
Import Tx TxFacts.

Lemma doneAttempts_insert (rs : list Runner) (i : nat) (r r' : Runner) :
  rs !! i = Some r →
  doneAttempts (<[i := r']> rs) + (if isDone r then attemptNumber r else 0)
  = doneAttempts rs + (if isDone r' then attemptNumber r' else 0).
Proof.
  revert i. induction rs as [|r0 rs IH]; intros [|i] Hi; simplify_eq/=.
  - lia.
  - specialize (IH i Hi). lia.
Qed.

(** A transaction that has committed takes no further step. *)
Lemma stepRunner_done (kind : WriteKind) (r : Runner) (b : Backend) :
  isDone r = true → stepRunner kind r b = (b, r).
Proof.
  unfold isDone, stepRunner. by destruct (phase r).
Qed.

(** The k-th transaction to commit has used at most k attempts: together,
    the committed transactions have used at most 1 + 2 + ... + C. *)
Lemma step_doneAttempts (kind : WriteKind) (maxAttempts : nat) (start : Z)
    (sys : System) (i : nat) :
  (- 2 ^ 53 ≤ start)%Z →
  (start + Z.of_nat (List.length (runners sys)) ≤ 2 ^ 53)%Z →
  systemOk maxAttempts start sys →
  2 * doneAttempts (runners sys)
  ≤ doneCount (runners sys) * S (doneCount (runners sys)) →
  2 * doneAttempts (runners (step kind sys i))
  ≤ doneCount (runners (step kind sys i))
    * S (doneCount (runners (step kind sys i))).
Proof.
  intros Hlo Hhi [Hb Hrs] Hsum. unfold step.
  destruct (runners sys !! i) as [r|] eqn:Hi; [|done].
  destruct (stepRunner_ok kind maxAttempts (List.length (runners sys)) start
              (doneCount (runners sys)) r (backend sys) Hlo Hhi Hb
              (Hrs i r Hi))
    as (b' & r' & Hstep & Hcases).
  { intros Hr. by eapply doneCount_lt. }
  rewrite Hstep. cbn [runners].
  pose proof (doneCount_insert (runners sys) i r r' Hi) as Hcount.
  pose proof (doneAttempts_insert (runners sys) i r r' Hi) as Hattempts.
  destruct Hcases as [(Hsame & _ & _)|(Hnot & Hdone & _ & Hr')].
  - destruct (isDone r) eqn:Hr.
    + rewrite stepRunner_done in Hstep by done. simplify_eq.
      rewrite Hr in *. 
      assert (doneCount (<[i:=r']> (runners sys)) = doneCount (runners sys))
        as -> by lia.
      lia.
    + rewrite Hsame in *.
      assert (doneCount (<[i:=r']> (runners sys)) = doneCount (runners sys))
        as -> by lia.
      lia.
  - rewrite Hnot, Hdone in *.
    assert (attemptNumber r' ≤ S (doneCount (runners sys))) as Hle.
    { destruct Hr' as (_ & _ & Hphase). unfold isDone in Hdone.
      by destruct (phase r'). }
    assert (doneCount (<[i:=r']> (runners sys))
            = S (doneCount (runners sys))) as -> by lia.
    nia.
Qed.

Lemma doneAttempts_started (n m : nat) :
  doneAttempts (replicate n (mkRunner 1 m Started)) = 0.
Proof. induction n as [|n IH]; cbn; [done|]. by rewrite IH. Qed.

(** What holds after any schedule, whatever other fields the counter
    document has. *)
Lemma reachable_ok_on (kind : WriteKind) (maxAttempts n : nat) (start : Z)
    (fields : JsObject) (schedule : list nat) :
  (0 < n → 1 ≤ maxAttempts) →
  (- 2 ^ 53 ≤ start)%Z → (start + Z.of_nat n ≤ 2 ^ 53)%Z →
  fields !! "count" = Some (JNum start) →
  let sys := runSchedule kind (startAllOn maxAttempts n fields) schedule in
  systemOk maxAttempts start sys
  ∧ turnsOk schedule sys
  ∧ List.length (runners sys) = n
  ∧ 2 * doneAttempts (runners sys)
    ≤ doneCount (runners sys) * S (doneCount (runners sys)).
Proof.
  intros Hmax Hlo Hhi Hcount. cbv zeta.
  induction schedule as [|i schedule IH] using rev_ind.
  - cbn. rewrite length_replicate, doneAttempts_started.
    split; [|split; [|split; [done|lia]]].
    + split; cbn; rewrite doneCount_started.
      * split; [done|]. eexists. split; [apply lookup_insert_eq|].
        split; [done|]. cbn. rewrite Hcount. do 2 f_equal. lia.
      * intros i r [-> Hi]%lookup_replicate. rewrite length_replicate.
        split; [cbn; lia|]. split; cbn; lia.
    + intros i r [-> Hi]%lookup_replicate. done.
  - destruct IH as (Hok & Hturns & Hlen & Hsum). rewrite runSchedule_snoc.
    destruct (step_systemOk kind maxAttempts start
                (runSchedule kind (startAllOn maxAttempts n fields) schedule)
                i Hlo) as [Hok' Hlen']; [by rewrite Hlen|done|].
    split; [done|]. split; [|split; [congruence|]].
    + apply step_turnsOk; [|done].
      intros j r Hj. by destruct Hok as [_ Hrs], (Hrs j r Hj) as (_ & ? & _).
    + eapply step_doneAttempts; [done|by rewrite Hlen|done..].
Qed.

Lemma counter_all_done (rs : list Runner) :
  (∀ i r, rs !! i = Some r → phase r = Done) →
  sum_list (map runsOf rs) = doneAttempts rs.
Proof.
  induction rs as [|r0 rs IH]; intros Hall; [done|].
  cbn. rewrite IH by (intros i r Hi; by apply (Hall (S i))).
  unfold runsOf, isDone. by rewrite (Hall 0 r0).
Qed.

(** X15.  The counter tests, with the runner as modelled above: when there
    are no more transactions than attempts, and the counter stays where
    adding one to a JS number is exact (its start value is at least -2^53
    and its start value plus n at most 2^53), under every schedule that
    gives each transaction 2n steps all n transactions commit, the counter
    ends at its start value plus n, and the user function has run at most
    1 + 2 + ... + n times in all (the transaction that commits k-th has used
    at most k attempts): at most 6 runs for the 3 transactions of the
    tests.  It makes no difference whether the write is a set or an update,
    nor what other fields the document has. *)
Theorem retries_bounded_by_commit_order (kind : WriteKind)
    (maxAttempts n : nat) (start : Z) (fields : JsObject)
    (schedule : list nat) :
  n ≤ maxAttempts →
  (- 2 ^ 53 ≤ start)%Z → (start + Z.of_nat n ≤ 2 ^ 53)%Z →
  fields !! "count" = Some (JNum start) →
  (∀ i, i < n → 2 * n ≤ turns i schedule) →
  let sys := runSchedule kind (startAllOn maxAttempts n fields) schedule in
  (∀ i r, runners sys !! i = Some r → phase r = Done)
  ∧ finalCount sys = (start + Z.of_nat n)%Z
  ∧ 2 * counter sys ≤ n * (n + 1).
Proof.
  intros Hbudget Hlo Hhi Hcount Hfair sys.
  destruct (reachable_ok_on kind maxAttempts n start fields schedule)
    as ([Hb Hrs] & Hturns & Hlen & Hsum); [lia|done..|].
  fold sys in Hb, Hrs, Hturns, Hlen, Hsum.
  assert (∀ i r, runners sys !! i = Some r → phase r = Done) as Hall.
  { intros i r Hi.
    pose proof (lookup_lt_Some _ _ _ Hi) as Hlt. rewrite Hlen in Hlt.
    destruct (Hrs i r Hi) as (_ & Hone & Hphase).
    specialize (Hturns i r Hi). specialize (Hfair i Hlt).
    pose proof (doneCount_le (runners sys)) as Hle. rewrite Hlen in *.
    destruct (phase r) as [|txn snapshot| |e] eqn:Hph; [| |done|lia].
    - assert (doneCount (runners sys) < List.length (runners sys)) as Hroom
        by (eapply doneCount_lt; [done|]; unfold isDone; by rewrite Hph).
      lia.
    - assert (doneCount (runners sys) < List.length (runners sys)) as Hroom
        by (eapply doneCount_lt; [done|]; unfold isDone; by rewrite Hph).
      destruct Hphase as (v & _ & Hk & Hv & _). lia. }
  assert (doneCount (runners sys) = n) as Hdone.
  { rewrite doneCount_full, Hlen; [done|].
    intros i r Hi. unfold isDone. by rewrite (Hall i r Hi). }
  split; [done|]. split.
  - unfold finalCount, getDoc.
    rewrite (countOf_ok start (doneCount (runners sys))) by done.
    by rewrite Hdone.
  - unfold counter. rewrite counter_all_done by done.
    rewrite Hdone in Hsum. lia.
Qed.

End TxTestFacts.

(** The two counter tests, evaluated: three transactions, a budget of five
    attempts, all reads before the commits in every round. *)

Lemma retries_bounded_by_commit_order_witness :
  let schedule := Tx.readsBeforeCommits 3 3 in
  let sys :=
    Tx.runSchedule Tx.ByUpdate (Tx.startAllOn 5 3 (Tx.countAndOther 5))
                   schedule in
  3 ≤ 5
  ∧ (- 2 ^ 53 ≤ 5)%Z
  ∧ (5 + Z.of_nat 3 ≤ 2 ^ 53)%Z
  ∧ Tx.countAndOther 5 !! "count" = Some (JNum 5)
  ∧ (∀ i, i < 3 → 2 * 3 ≤ Tx.turns i schedule)
  ∧ Tx.finalCount sys = 8%Z
  ∧ 2 * Tx.counter sys ≤ 3 * (3 + 1)
  ∧ Tx.counter sys = 6.
Proof.
  intros schedule sys.
  assert (∀ i, i < 3 → 2 * 3 ≤ Tx.turns i schedule) as Hfair.
  { intros [|[|[|i]]] Hi; [vm_compute; lia..|lia]. }
  assert (Tx.countAndOther 5 !! "count" = Some (JNum 5)) as Hcount
    by (vm_compute; reflexivity).
  assert (- 2 ^ 53 ≤ 5)%Z as Hlo by (vm_compute; discriminate).
  assert (5 + Z.of_nat 3 ≤ 2 ^ 53)%Z as Hhi by (vm_compute; discriminate).
  split; [lia|]. split; [exact Hlo|]. split; [exact Hhi|].
  split; [exact Hcount|]. split; [exact Hfair|].
  destruct (TxTestFacts.retries_bounded_by_commit_order Tx.ByUpdate 5 3 5
              (Tx.countAndOther 5) schedule
              (le_S _ _ (le_S _ _ (le_n 3))) Hlo Hhi Hcount Hfair)
    as (_ & Hfinal & Hruns).
  split; [exact Hfinal|]. split; [exact Hruns|]. vm_compute; reflexivity.
Defined.
